(** * CPM_PERT.py: critical path method and PERT statistics

    A shallow embedding of the script [CPM_PERT.py] and the properties of its
    scheduling engine.

    Numbers.  The script computes with Python floats read from a spreadsheet.
    The embedding of the whole script models them by exact rationals ([Q]);
    [==] on floats is [Qeq_bool].  The one irrational operation of the
    script, [math.sqrt], is only ever stored and printed, never fed back into
    arithmetic, so its result is kept as the formal root [Root q] of its
    rational argument.  The theorems stated over this embedding speak of what
    the script does with its numbers (which of them it compares, adds,
    subtracts, and in which order), not of the exact value of a rounded
    result.  Where rounding decides a question, the module [Binary64] runs
    the same lines with the operations of binary64.

    Dictionaries.  Python dictionaries (and the node and adjacency tables of
    a networkx [DiGraph]) keep insertion order, and the script iterates over
    them, so they are association lists with in-place update. *)

From Stdlib Require Import List String Ascii Bool Arith PeanoNat Lia.
From Stdlib Require Import ZArith QArith Qabs Qpower Lqa Permutation.
From Stdlib Require Import PrimFloat.
Import ListNotations.

Open Scope string_scope.
Open Scope list_scope.
Open Scope Q_scope.

(** ** Exceptions and results *)

Inductive exn : Type :=
| KeyError (key : string)
| ValueError
| NameError (name : string)
| NetworkXError
| NetworkXUnfeasible
| RuntimeError
| StatisticsError.

Inductive result (A : Type) : Type :=
| Ok (a : A)
| Raise (e : exn).

Arguments Ok {A} a.
Arguments Raise {A} e.

Definition bind {A B : Type} (r : result A) (k : A -> result B) : result B :=
  match r with
  | Ok a => k a
  | Raise e => Raise e
  end.

Notation "x <- r ;; k" := (bind r (fun x => k))
  (at level 61, r at next level, right associativity).
Notation "' p <- r ;; k" := (bind r (fun x => let 'p := x in k))
  (at level 61, p pattern, r at next level, right associativity).

(** [for x in l: s = f(s, x)], stopping at the first exception. *)
Fixpoint for_each {S X : Type} (f : S -> X -> result S) (l : list X) (s : S)
  : result S :=
  match l with
  | [] => Ok s
  | x :: l' => s' <- f s x ;; for_each f l' s'
  end.

(** ** Python dictionaries with string keys *)

Definition dict (V : Type) : Type := list (string * V).

Section Dict.
Context {V : Type}.

Fixpoint dict_get (d : dict V) (k : string) : option V :=
  match d with
  | [] => None
  | (k', v) :: d' => if String.eqb k' k then Some v else dict_get d' k
  end.

(** [d[k]] *)
Definition dict_getitem (d : dict V) (k : string) : result V :=
  match dict_get d k with
  | Some v => Ok v
  | None => Raise (KeyError k)
  end.

(** [d.get(k, default)] *)
Definition dict_get_default (d : dict V) (k : string) (default : V) : V :=
  match dict_get d k with
  | Some v => v
  | None => default
  end.

(** [k in d] *)
Definition dict_contains (d : dict V) (k : string) : bool :=
  match dict_get d k with
  | Some _ => true
  | None => false
  end.

(** [d[k] = v]: an existing key keeps its position. *)
Fixpoint dict_set (d : dict V) (k : string) (v : V) : dict V :=
  match d with
  | [] => [(k, v)]
  | (k', v') :: d' =>
      if String.eqb k' k then (k', v) :: d' else (k', v') :: dict_set d' k v
  end.

(** [del d[k]] for a key that is present. *)
Fixpoint dict_del (d : dict V) (k : string) : dict V :=
  match d with
  | [] => []
  | (k', v') :: d' =>
      if String.eqb k' k then d' else (k', v') :: dict_del d' k
  end.

Definition dict_keys (d : dict V) : list string := map fst d.
End Dict.

(** ** Numbers *)

(** A number the script stores: a rational, [math.sqrt] of one, or the
    standard normal distribution function [norm.cdf] at one. *)
Inductive number : Type :=
| Rat (q : Q)
| Root (q : Q)
| NormCdf (q : Q).

Definition sqrt (x : Q) : number := Root x.

Definition norm_cdf (z : Q) : number := NormCdf z.

Definition Qlt_bool (x y : Q) : bool := negb (Qle_bool y x).

(** [max(l, default=d)]: the first of the largest elements. *)
Fixpoint max_from (cur : Q) (l : list Q) : Q :=
  match l with
  | [] => cur
  | x :: l' => max_from (if Qlt_bool cur x then x else cur) l'
  end.

Definition py_max (l : list Q) (default : Q) : Q :=
  match l with
  | [] => default
  | x :: l' => max_from x l'
  end.

(** [min(l, default=d)]: the first of the smallest elements. *)
Fixpoint min_from (cur : Q) (l : list Q) : Q :=
  match l with
  | [] => cur
  | x :: l' => min_from (if Qlt_bool x cur then x else cur) l'
  end.

Definition py_min (l : list Q) (default : Q) : Q :=
  match l with
  | [] => default
  | x :: l' => min_from x l'
  end.

(** [max(d, key=d.get)]: the first key whose value is largest; [ValueError]
    on an empty dictionary. *)
Fixpoint max_key_from (k : string) (v : Q) (d : dict Q) : string :=
  match d with
  | [] => k
  | (k', v') :: d' =>
      if Qlt_bool v v' then max_key_from k' v' d' else max_key_from k v d'
  end.

Definition max_key (d : dict Q) : result string :=
  match d with
  | [] => Raise ValueError
  | (k, v) :: d' => Ok (max_key_from k v d')
  end.

(** ** Strings: [str.strip] and [str.split] *)

(** [str.isspace] on one ASCII character. *)
Definition isspace (c : ascii) : bool :=
  let n := nat_of_ascii c in
  ((9 <=? n) && (n <=? 13) || (28 <=? n) && (n <=? 32))%nat.

Fixpoint lstrip (s : string) : string :=
  match s with
  | EmptyString => EmptyString
  | String c s' => if isspace c then lstrip s' else s
  end.

Fixpoint string_rev (s : string) : string :=
  match s with
  | EmptyString => EmptyString
  | String c s' => string_rev s' ++ String c EmptyString
  end.

Definition rstrip (s : string) : string := string_rev (lstrip (string_rev s)).

Definition strip (s : string) : string := rstrip (lstrip s).

(** [s.split(sep)] for a one-character separator. *)
Fixpoint split (sep : ascii) (s : string) : list string :=
  match s with
  | EmptyString => [EmptyString]
  | String c s' =>
      if Ascii.eqb c sep then EmptyString :: split sep s'
      else match split sep s' with
           | h :: t => String c h :: t
           | [] => [String c EmptyString]
           end
  end.

(** ** Reading the activity records (lines 11-28) *)

(** A spreadsheet cell of the [Precedent] column: blank cells are read as
    NaN, whose [str] is ["nan"]. *)
Inductive cell : Type :=
| NaN
| Text (s : string).

Definition str (c : cell) : string :=
  match c with
  | NaN => "nan"
  | Text s => s
  end.

(** One row of the data frame. *)
Record row : Type := mk_row {
  Activity : string;
  Precedent : cell;
  A : Q;
  M : Q;
  B : Q
}.

(** The value stored for an activity by [read_activity_data]. *)
Record estimate : Type := mk_estimate {
  optimistic : Q;
  most_likely : Q;
  pessimistic : Q;
  predecessors : list string
}.

Definition keep_predecessor (p : string) : bool :=
  negb (String.eqb (strip p) "") && negb (String.eqb (strip p) "nan").

Definition parse_predecessors (c : cell) : list string :=
  map strip (filter keep_predecessor (split "," (str c))).

Definition read_row (activities : dict estimate) (r : row) : dict estimate :=
  let activity := strip (Activity r) in
  let predecessors := parse_predecessors (Precedent r) in
  dict_set activities activity
    {| optimistic := A r;
       most_likely := M r;
       pessimistic := B r;
       predecessors := predecessors |}.

Definition read_activity_data (df : list row) : dict estimate :=
  fold_left read_row df [].

(** ** Expected time, variance and standard deviation (lines 35-42) *)

Record activity : Type := mk_activity {
  data : estimate;
  TE : Q;
  variance : Q;
  std_dev : number
}.

Definition derive (data : estimate) : activity :=
  let o := optimistic data in
  let m := most_likely data in
  let p := pessimistic data in
  let te := (o + 4 * m + p) / 6 in
  let variance_val := ((p - o) / 6) ^ 2 in
  let std_dev := sqrt variance_val in
  {| data := data; TE := te; variance := variance_val; std_dev := std_dev |}.

Definition derive_all (activities : dict estimate) : dict activity :=
  map (fun kv => (fst kv, derive (snd kv))) activities.

(** ** The precedence graph: a networkx [DiGraph] *)

(** The attribute dictionary of a node; [None] is a key that is absent. *)
Module Node.
Record attrs : Type := mk {
  duration : option Q;
  variance : option Q;
  std_dev : option number
}.

Definition empty : attrs :=
  {| duration := None; variance := None; std_dev := None |}.
End Node.

Record DiGraph : Type := mk_graph {
  nodes : dict Node.attrs;
  adj_succ : dict (list string);
  adj_pred : dict (list string)
}.

Definition empty_graph : DiGraph :=
  {| nodes := []; adj_succ := []; adj_pred := [] |}.

(** Registers [n] with no attribute and no neighbour unless it is known. *)
Definition touch (G : DiGraph) (n : string) : DiGraph :=
  if dict_contains (adj_succ G) n then G
  else {| nodes := dict_set (nodes G) n Node.empty;
          adj_succ := dict_set (adj_succ G) n [];
          adj_pred := dict_set (adj_pred G) n [] |}.

(** [G.add_node(n, duration=d, variance=v, std_dev=s)] *)
Definition add_node (G : DiGraph) (n : string) (d v : Q) (s : number)
  : DiGraph :=
  let G' := touch G n in
  {| nodes := dict_set (nodes G') n
                {| Node.duration := Some d;
                   Node.variance := Some v;
                   Node.std_dev := Some s |};
     adj_succ := adj_succ G';
     adj_pred := adj_pred G' |}.

(** Adding a key to an adjacency dictionary that may hold it already. *)
Definition adj_add (l : list string) (n : string) : list string :=
  if existsb (String.eqb n) l then l else l ++ [n].

(** [G.add_edge(u, v)] *)
Definition add_edge (G : DiGraph) (u v : string) : DiGraph :=
  let G' := touch (touch G u) v in
  {| nodes := nodes G';
     adj_succ :=
       dict_set (adj_succ G') u (adj_add (dict_get_default (adj_succ G') u []) v);
     adj_pred :=
       dict_set (adj_pred G') v (adj_add (dict_get_default (adj_pred G') v []) u)
  |}.

(** Lines 51-54. *)
Definition add_activity (G : DiGraph) (item : string * activity) : DiGraph :=
  let '(name, a) := item in
  fold_left (fun g predecessor => add_edge g predecessor name)
    (predecessors (data a))
    (add_node G name (TE a) (variance a) (std_dev a)).

Definition build_graph (activities : dict activity) : DiGraph :=
  fold_left add_activity activities empty_graph.

(** Lines 57-63: every attribute a node lacks becomes 0. *)
Definition default_attrs (a : Node.attrs) : Node.attrs :=
  {| Node.duration :=
       match Node.duration a with Some d => Some d | None => Some 0 end;
     Node.variance :=
       match Node.variance a with Some v => Some v | None => Some 0 end;
     Node.std_dev :=
       match Node.std_dev a with Some s => Some s | None => Some (Rat 0) end
  |}.

Definition set_defaults (G : DiGraph) : DiGraph :=
  {| nodes := map (fun kv => (fst kv, default_attrs (snd kv))) (nodes G);
     adj_succ := adj_succ G;
     adj_pred := adj_pred G |}.

(** [G.nodes], iterated. *)
Definition node_names (G : DiGraph) : list string := dict_keys (nodes G).

(** [G.predecessors(n)] and [G.successors(n)] *)
Definition graph_predecessors (G : DiGraph) (n : string)
  : result (list string) :=
  match dict_get (adj_pred G) n with
  | Some l => Ok l
  | None => Raise NetworkXError
  end.

Definition graph_successors (G : DiGraph) (n : string)
  : result (list string) :=
  match dict_get (adj_succ G) n with
  | Some l => Ok l
  | None => Raise NetworkXError
  end.

(** [G.nodes[n]['duration']] *)
Definition node_duration (G : DiGraph) (n : string) : result Q :=
  a <- dict_getitem (nodes G) n ;;
  match Node.duration a with
  | Some d => Ok d
  | None => Raise (KeyError "duration")
  end.

(** ** [nx.topological_sort]: Kahn's algorithm, generation by generation *)

(** The library function of networkx, as its generation-based
    implementation computes it: the nodes without predecessor first, then
    round by round the nodes whose last predecessor has just been yielded;
    [NetworkXUnfeasible] when nodes remain that never get there. *)

(** [G.in_degree()] *)
Definition in_degree (G : DiGraph) : list (string * nat) :=
  map (fun kv => (fst kv, List.length (snd kv))) (adj_pred G).

Definition visit_child (st : dict nat * list string) (child : string)
  : result (dict nat * list string) :=
  let '(indegree_map, zero_indegree) := st in
  match dict_get indegree_map child with
  | None => Raise RuntimeError
  | Some d =>
      if (d - 1 =? 0)%nat
      then Ok (dict_del indegree_map child, zero_indegree ++ [child])
      else Ok (dict_set indegree_map child (d - 1)%nat, zero_indegree)
  end.

Definition visit_node (G : DiGraph) (st : dict nat * list string)
  (node : string) : result (dict nat * list string) :=
  if dict_contains (nodes G) node
  then children <- graph_successors G node ;; for_each visit_child children st
  else Raise RuntimeError.

(** The [while zero_indegree] loop.  Every round retires the nodes of a
    non-empty generation, so one unit of [fuel] per node is enough
    ([topological_sort_total] below). *)
Fixpoint generations (fuel : nat) (G : DiGraph) (indegree_map : dict nat)
  (zero_indegree : list string) (yielded : list string)
  : result (list string) :=
  match zero_indegree with
  | [] =>
      match indegree_map with
      | [] => Ok yielded
      | _ :: _ => Raise NetworkXUnfeasible
      end
  | _ :: _ =>
      match fuel with
      | O => Raise RuntimeError
      | S fuel' =>
          '(indegree_map', next) <-
            for_each (visit_node G) zero_indegree (indegree_map, []) ;;
          generations fuel' G indegree_map' next (yielded ++ zero_indegree)
      end
  end.

Definition topological_sort (G : DiGraph) : result (list string) :=
  let degrees := in_degree G in
  let indegree_map := filter (fun vd => (0 <? snd vd)%nat) degrees in
  let zero_indegree :=
    map fst (filter (fun vd => (snd vd =? 0)%nat) degrees) in
  generations (List.length degrees) G indegree_map zero_indegree [].

(** ** Earliest start and finish times (lines 66-72) *)

Definition forward_step (G : DiGraph) (st : dict Q * dict Q) (node : string)
  : result (dict Q * dict Q) :=
  let '(earliest_start, earliest_finish) := st in
  preds <- graph_predecessors G node ;;
  let es :=
    py_max (map (fun pred => dict_get_default earliest_finish pred 0) preds) 0 in
  d <- node_duration G node ;;
  let ef := es + d in
  Ok (dict_set earliest_start node es, dict_set earliest_finish node ef).

Definition forward_pass (G : DiGraph) (order : list string)
  : result (dict Q * dict Q) :=
  for_each (forward_step G) order ([], []).

(** [earliest_finish[max(earliest_finish, key=earliest_finish.get)]] *)
Definition max_earliest_finish (earliest_finish : dict Q) : result Q :=
  k <- max_key earliest_finish ;; dict_getitem earliest_finish k.

(** ** Latest finish and start times (lines 75-81) *)

Definition backward_step (G : DiGraph) (earliest_finish : dict Q)
  (st : dict Q * dict Q) (node : string) : result (dict Q * dict Q) :=
  let '(latest_finish, latest_start) := st in
  succs <- graph_successors G node ;;
  finish <- max_earliest_finish earliest_finish ;;
  let lf :=
    py_min (map (fun succ => dict_get_default latest_start succ finish) succs)
      finish in
  d <- node_duration G node ;;
  let ls := lf - d in
  Ok (dict_set latest_finish node lf, dict_set latest_start node ls).

Definition backward_pass (G : DiGraph) (order : list string)
  (earliest_finish : dict Q) : result (dict Q * dict Q) :=
  for_each (backward_step G earliest_finish) (rev order) ([], []).

(** ** Critical path and total project duration (lines 84-88) *)

Definition critical_step (earliest_start latest_start : dict Q)
  (path : list string) (node : string) : result (list string) :=
  es <- dict_getitem earliest_start node ;;
  ls <- dict_getitem latest_start node ;;
  Ok (if Qeq_bool es ls then path ++ [node] else path).

Definition critical_path_of (G : DiGraph) (earliest_start latest_start : dict Q)
  : result (list string) :=
  for_each (critical_step earliest_start latest_start) (node_names G) [].

Definition critical_activities_of (G : DiGraph) (critical_path : list string)
  : dict bool :=
  map (fun node => (node, existsb (String.eqb node) critical_path))
    (node_names G).

(** Everything the CPM section has computed when line 88 is done. *)
Record timing : Type := mk_timing {
  earliest_start : dict Q;
  earliest_finish : dict Q;
  latest_finish : dict Q;
  latest_start : dict Q;
  critical_path : list string;
  critical_activities : dict bool;
  total_project_duration : Q
}.

Definition cpm (G : DiGraph) (order : list string) : result timing :=
  '(es, ef) <- forward_pass G order ;;
  '(lf, ls) <- backward_pass G order ef ;;
  path <- critical_path_of G es ls ;;
  total <- max_earliest_finish ef ;;
  Ok {| earliest_start := es;
        earliest_finish := ef;
        latest_finish := lf;
        latest_start := ls;
        critical_path := path;
        critical_activities := critical_activities_of G path;
        total_project_duration := total |}.

(** ** The CPM table (lines 91-102) *)

Definition yes_no (b : bool) : string := if b then "Yes" else "No".

Record cpm_row : Type := mk_cpm_row {
  cpm_activity : string;
  cpm_predecessors : string;
  cpm_es : option Q;
  cpm_ef : option Q;
  cpm_ls : option Q;
  cpm_lf : option Q;
  cpm_critical : string
}.

Definition cpm_table_step (G : DiGraph) (activities : dict activity)
  (t : timing) (table : list cpm_row) (node : string)
  : result (list cpm_row) :=
  _ <- graph_successors G node ;;
  a <- dict_getitem activities node ;;
  c <- dict_getitem (critical_activities t) node ;;
  Ok (table ++
      [{| cpm_activity := node;
          cpm_predecessors := String.concat ", " (predecessors (data a));
          cpm_es := dict_get (earliest_start t) node;
          cpm_ef := dict_get (earliest_finish t) node;
          cpm_ls := dict_get (latest_start t) node;
          cpm_lf := dict_get (latest_finish t) node;
          cpm_critical := yes_no c |}]).

Definition cpm_table_data (G : DiGraph) (activities : dict activity)
  (t : timing) : result (list cpm_row) :=
  for_each (cpm_table_step G activities t) (node_names G) [].

(** ** The PERT table (lines 116-135) *)

(** Line 121 reads the global [total_standard_deviation]; no statement of
    the script assigns it, so the lookup finds nothing. *)
Definition total_standard_deviation : result Q :=
  Raise (NameError "total_standard_deviation").

Record pert_row : Type := mk_pert_row {
  pert_activity : string;
  pert_predecessors : string;
  pert_a : Q;
  pert_m : Q;
  pert_b : Q;
  pert_te : Q;
  pert_variance : Q;
  pert_std_dev : number;
  pert_z_score : Q;
  pert_probability : number;
  pert_critical : string
}.

Definition pert_table_step (t : timing) (table : list pert_row)
  (item : string * activity) : result (list pert_row) :=
  let '(name, a) := item in
  tsd <- total_standard_deviation ;;
  z_score <-
    (if Qlt_bool 0 tsd
     then ef <- dict_getitem (earliest_finish t) name ;;
          Ok ((total_project_duration t - ef) / tsd)
     else Ok 0) ;;
  tsd' <- total_standard_deviation ;;
  let probability := if Qlt_bool 0 tsd' then norm_cdf z_score else Rat 0 in
  c <- dict_getitem (critical_activities t) name ;;
  Ok (table ++
      [{| pert_activity := name;
          pert_predecessors := String.concat ", " (predecessors (data a));
          pert_a := optimistic (data a);
          pert_m := most_likely (data a);
          pert_b := pessimistic (data a);
          pert_te := TE a;
          pert_variance := variance a;
          pert_std_dev := std_dev a;
          pert_z_score := z_score;
          pert_probability := probability;
          pert_critical := yes_no c |}]).

Definition pert_table_data (activities : dict activity) (t : timing)
  : result (list pert_row) :=
  for_each (pert_table_step t) activities [].

(** ** Statistics of a chosen subset (lines 145-156) *)

Definition specific_activities : list string := ["A"; "B"; "C"; "D"].

Fixpoint specific_durations_of (activities : dict activity)
  (names : list string) : list Q :=
  match names with
  | [] => []
  | name :: names' =>
      match dict_get activities name with
      | Some a => TE a :: specific_durations_of activities names'
      | None => specific_durations_of activities names'
      end
  end.

Definition Qsum (l : list Q) : Q := fold_right Qplus 0 l.

Definition mean (l : list Q) : Q := Qsum l / inject_Z (Z.of_nat (List.length l)).

(** [statistics.variance]: the sum of squared deviations from the mean over
    [n - 1]; [StatisticsError] below two data points. *)
Definition calc_variance (l : list Q) : result Q :=
  if (List.length l <? 2)%nat then Raise StatisticsError
  else Ok (Qsum (map (fun x => (x - mean l) ^ 2) l)
           / inject_Z (Z.of_nat (List.length l) - 1)).

(** [statistics.stdev]: the square root of [statistics.variance]. *)
Definition calc_stdev (l : list Q) : result number :=
  v <- calc_variance l ;; Ok (sqrt v).

Definition subset_stats (activities : dict activity) (names : list string)
  : result (Q * number) :=
  let specific_durations := specific_durations_of activities names in
  if (1 <? List.length specific_durations)%nat
  then specific_variance <- calc_variance specific_durations ;;
       specific_std_dev <- calc_stdev specific_durations ;;
       Ok (specific_variance, specific_std_dev)
  else Ok (0, Rat 0).

(** ** The whole script *)

Record report : Type := mk_report {
  cpm_rows : list cpm_row;
  cpm_timing : timing;
  pert_rows : list pert_row;
  specific_variance : Q;
  specific_std_dev : number
}.

Definition load (df : list row) : dict activity :=
  derive_all (read_activity_data df).

Definition graph_of (activities : dict activity) : DiGraph :=
  set_defaults (build_graph activities).

Definition script_on (df : list row) (names : list string) : result report :=
  let activities := load df in
  let G := graph_of activities in
  order <- topological_sort G ;;
  t <- cpm G order ;;
  rows <- cpm_table_data G activities t ;;
  pert <- pert_table_data activities t ;;
  '(v, s) <- subset_stats activities names ;;
  Ok {| cpm_rows := rows;
        cpm_timing := t;
        pert_rows := pert;
        specific_variance := v;
        specific_std_dev := s |}.

Definition script (df : list row) : result report :=
  script_on df specific_activities.

(** ** The CPM section in binary64 (lines 37 and 66-88) *)

(** The same lines once more, with the numbers as the interpreter has them:
    binary64 floats, every operation rounded to the nearest.  The graph is
    the one built above; nodes, edges and their order do not depend on the
    numbers. *)

Module Binary64.

(** The float a spreadsheet cell holding the decimal number [q] is read as:
    the one nearest to [q].  Numerator and denominator below 2^53 are floats
    themselves, and their quotient is rounded once. *)
Fixpoint of_pos (p : positive) : float :=
  match p with
  | xH => 1%float
  | xO p' => (2 * of_pos p')%float
  | xI p' => (2 * of_pos p' + 1)%float
  end.

Definition of_Z (z : Z) : float :=
  match z with
  | Z0 => 0%float
  | Zpos p => of_pos p
  | Zneg p => (- of_pos p)%float
  end.

Definition of_Q (q : Q) : float := (of_Z (Qnum q) / of_pos (Qden q))%float.

(** [max(l, default=d)] and [min(l, default=d)] *)
Fixpoint max_from (cur : float) (l : list float) : float :=
  match l with
  | [] => cur
  | x :: l' => max_from (if PrimFloat.ltb cur x then x else cur) l'
  end.

Definition py_max (l : list float) (default : float) : float :=
  match l with
  | [] => default
  | x :: l' => max_from x l'
  end.

Fixpoint min_from (cur : float) (l : list float) : float :=
  match l with
  | [] => cur
  | x :: l' => min_from (if PrimFloat.ltb x cur then x else cur) l'
  end.

Definition py_min (l : list float) (default : float) : float :=
  match l with
  | [] => default
  | x :: l' => min_from x l'
  end.

(** [max(d, key=d.get)] *)
Fixpoint max_key_from (k : string) (v : float) (d : dict float) : string :=
  match d with
  | [] => k
  | (k', v') :: d' =>
      if PrimFloat.ltb v v' then max_key_from k' v' d' else max_key_from k v d'
  end.

Definition max_key (d : dict float) : result string :=
  match d with
  | [] => Raise ValueError
  | (k, v) :: d' => Ok (max_key_from k v d')
  end.

(** Line 37: [(o + 4 * m + p) / 6] *)
Definition TE (data : estimate) : float :=
  let o := of_Q (optimistic data) in
  let m := of_Q (most_likely data) in
  let p := of_Q (pessimistic data) in
  ((o + 4 * m + p) / 6)%float.

(** [G.nodes[n]['duration']]: line 52 stores the expected time of an
    activity, line 59 stores 0 for a node that is no activity. *)
Definition node_duration (activities : dict estimate) (G : DiGraph)
  (n : string) : result float :=
  _ <- dict_getitem (nodes G) n ;;
  match dict_get activities n with
  | Some data => Ok (TE data)
  | None => Ok 0%float
  end.

(** Lines 66-72 *)
Definition forward_step (activities : dict estimate) (G : DiGraph)
  (st : dict float * dict float) (node : string)
  : result (dict float * dict float) :=
  let '(earliest_start, earliest_finish) := st in
  preds <- graph_predecessors G node ;;
  let es :=
    py_max
      (map (fun pred => dict_get_default earliest_finish pred 0%float) preds)
      0%float in
  d <- node_duration activities G node ;;
  let ef := (es + d)%float in
  Ok (dict_set earliest_start node es, dict_set earliest_finish node ef).

Definition forward_pass (activities : dict estimate) (G : DiGraph)
  (order : list string) : result (dict float * dict float) :=
  for_each (forward_step activities G) order ([], []).

Definition max_earliest_finish (earliest_finish : dict float) : result float :=
  k <- max_key earliest_finish ;; dict_getitem earliest_finish k.

(** Lines 75-81 *)
Definition backward_step (activities : dict estimate) (G : DiGraph)
  (earliest_finish : dict float) (st : dict float * dict float)
  (node : string) : result (dict float * dict float) :=
  let '(latest_finish, latest_start) := st in
  succs <- graph_successors G node ;;
  finish <- max_earliest_finish earliest_finish ;;
  let lf :=
    py_min (map (fun succ => dict_get_default latest_start succ finish) succs)
      finish in
  d <- node_duration activities G node ;;
  let ls := (lf - d)%float in
  Ok (dict_set latest_finish node lf, dict_set latest_start node ls).

Definition backward_pass (activities : dict estimate) (G : DiGraph)
  (order : list string) (earliest_finish : dict float)
  : result (dict float * dict float) :=
  for_each (backward_step activities G earliest_finish) (rev order) ([], []).

(** Line 84 *)
Definition critical_step (earliest_start latest_start : dict float)
  (path : list string) (node : string) : result (list string) :=
  es <- dict_getitem earliest_start node ;;
  ls <- dict_getitem latest_start node ;;
  Ok (if PrimFloat.eqb es ls then path ++ [node] else path).

Definition critical_path_of (G : DiGraph)
  (earliest_start latest_start : dict float) : result (list string) :=
  for_each (critical_step earliest_start latest_start) (node_names G) [].

Record timing : Type := mk_timing {
  earliest_start : dict float;
  earliest_finish : dict float;
  latest_finish : dict float;
  latest_start : dict float;
  critical_path : list string;
  total_project_duration : float
}.

(** Lines 66-88 on the records [df] *)
Definition cpm (df : list row) : result timing :=
  let activities := read_activity_data df in
  let G := graph_of (load df) in
  order <- topological_sort G ;;
  '(es, ef) <- forward_pass activities G order ;;
  '(lf, ls) <- backward_pass activities G order ef ;;
  path <- critical_path_of G es ls ;;
  total <- max_earliest_finish ef ;;
  Ok {| earliest_start := es;
        earliest_finish := ef;
        latest_finish := lf;
        latest_start := ls;
        critical_path := path;
        total_project_duration := total |}.

(** The value a timing table holds for a node. *)
Definition value_at (d : dict float) (n : string) : float :=
  dict_get_default d n 0%float.

End Binary64.

(** * Vocabulary of the statements *)

(** ** Graphs *)

(** The predecessors and the successors of a node, none for a name that
    is not a node. *)
Definition preds_of (G : DiGraph) (n : string) : list string :=
  dict_get_default (adj_pred G) n [].

Definition succs_of (G : DiGraph) (n : string) : list string :=
  dict_get_default (adj_succ G) n [].

(** There is an edge from [u] to [v]. *)
Definition edge (G : DiGraph) (u v : string) : Prop := In v (succs_of G u).

Definition out_degree (G : DiGraph) (n : string) : nat :=
  List.length (succs_of G n).

(** The duration attribute of a node, for statements. *)
Definition duration_of (G : DiGraph) (n : string) : Q :=
  match dict_get (nodes G) n with
  | Some a => match Node.duration a with Some d => d | None => 0 end
  | None => 0
  end.

Definition variance_of (G : DiGraph) (n : string) : Q :=
  match dict_get (nodes G) n with
  | Some a => match Node.variance a with Some v => v | None => 0 end
  | None => 0
  end.

(** What the three tables of a [DiGraph] satisfy once lines 57-63 have run:
    they list the same nodes, each once; the successor and predecessor
    tables describe the same edges; every node has a duration. *)
Record wf_graph (G : DiGraph) : Prop := {
  wf_nodup : NoDup (node_names G);
  wf_succ_keys : dict_keys (adj_succ G) = node_names G;
  wf_pred_keys : dict_keys (adj_pred G) = node_names G;
  wf_sym : forall u v, In v (succs_of G u) <-> In u (preds_of G v);
  wf_duration :
    forall n a, dict_get (nodes G) n = Some a -> Node.duration a <> None
}.

(** What [add_node] and [add_edge] maintain. *)
Record graph_inv (G : DiGraph) : Prop := {
  inv_nodup : NoDup (node_names G);
  inv_succ_keys : dict_keys (adj_succ G) = node_names G;
  inv_pred_keys : dict_keys (adj_pred G) = node_names G;
  inv_sym : forall u v, In v (succs_of G u) <-> In u (preds_of G v)
}.

(** No neighbour is listed twice. *)
Definition adj_nodup (G : DiGraph) : Prop :=
  forall n, NoDup (succs_of G n) /\ NoDup (preds_of G n).

(** The nodes with attributes are activities already added; only these
    have predecessors. *)
Definition built (names : list string) (G : DiGraph) : Prop :=
  graph_inv G /\
  (forall m a, dict_get (nodes G) m = Some a ->
     a = Node.empty \/ In m names) /\
  (forall u v, In u (preds_of G v) -> In v names).

(** The attributes lines 57-63 give to a node that has none. *)
Definition zero_attrs : Node.attrs :=
  {| Node.duration := Some 0;
     Node.variance := Some 0;
     Node.std_dev := Some (Rat 0) |}.

(** [order] lists every node once and every edge points forward in it. *)
Definition topological_order (G : DiGraph) (order : list string) : Prop :=
  NoDup order /\
  (forall n, In n order <-> In n (node_names G)) /\
  (forall u v, edge G u v ->
     exists l1 l2 l3, order = l1 ++ u :: l2 ++ v :: l3).

(** A walk of at least one edge from [u] to [v]. *)
Inductive path (G : DiGraph) : string -> string -> Prop :=
| path_edge u v : edge G u v -> path G u v
| path_step u w v : edge G u w -> path G w v -> path G u v.

(** No walk comes back to where it started. *)
Definition acyclic (G : DiGraph) : Prop := forall n, ~ path G n n.

(** Each element of the list has an edge to the next one. *)
Fixpoint chain (G : DiGraph) (l : list string) : Prop :=
  match l with
  | u :: (v :: _) as l' => edge G u v /\ chain G l'
  | _ => True
  end.

Definition mem (n : string) (l : list string) : bool :=
  existsb (String.eqb n) l.

(** ** Timing tables *)

(** [m] is the largest element of [l], or [default] when [l] is empty. *)
Definition is_max_or (default : Q) (l : list Q) (m : Q) : Prop :=
  match l with
  | [] => m = default
  | _ :: _ => In m l /\ forall x, In x l -> x <= m
  end.

(** [m] is the smallest element of [l], or [default] when [l] is empty. *)
Definition is_min_or (default : Q) (l : list Q) (m : Q) : Prop :=
  match l with
  | [] => m = default
  | _ :: _ => In m l /\ forall x, In x l -> m <= x
  end.

(** The value a timing table holds for a node. *)
Definition value_at (d : dict Q) (n : string) : Q := dict_get_default d n 0.

(** Slack: latest finish minus earliest finish. *)
Definition slack (t : timing) (n : string) : Q :=
  value_at (latest_finish t) n - value_at (earliest_finish t) n.

(** Equal earliest and latest start, as line 84 tests it. *)
Definition is_critical (t : timing) (n : string) : bool :=
  Qeq_bool (value_at (earliest_start t) n) (value_at (latest_start t) n).

(** The tolerance the specification speaks of. *)
Definition epsilon : Q := 1 # 1000000000.

(** The sum of the variances along the critical path, whose square root
    the specification calls the total standard deviation. *)
Definition critical_variance (G : DiGraph) (t : timing) : Q :=
  Qsum (map (variance_of G) (critical_path t)).

(** After the nodes [done] the forward loop has filled both tables for
    exactly these nodes, by the two assignments of its body. *)
Definition forward_inv (G : DiGraph) (done : list string) (es ef : dict Q)
  : Prop :=
  dict_keys es = done /\ dict_keys ef = done /\
  forall n, In n done ->
    let e := py_max (map (fun p => dict_get_default ef p 0) (preds_of G n)) 0 in
    dict_get es n = Some e /\ dict_get ef n = Some (e + duration_of G n).

(** The same for the backward loop, which walks the order from its end;
    [total] is the largest earliest finish. *)
Definition backward_inv (G : DiGraph) (total : Q) (done : list string)
  (lf ls : dict Q) : Prop :=
  dict_keys lf = done /\ dict_keys ls = done /\
  forall n, In n done ->
    let f :=
      py_min (map (fun s => dict_get_default ls s total) (succs_of G n)) total in
    dict_get lf n = Some f /\ dict_get ls n = Some (f - duration_of G n).

(** What lines 66-88 leave in their tables. *)
Record timing_ok (G : DiGraph) (order : list string) (t : timing) : Prop := {
  ok_forward_keys :
    dict_keys (earliest_start t) = order /\
    dict_keys (earliest_finish t) = order;
  ok_backward_keys :
    dict_keys (latest_finish t) = rev order /\
    dict_keys (latest_start t) = rev order;
  ok_es : forall n, In n (node_names G) ->
    dict_get (earliest_start t) n
    = Some (py_max (map (value_at (earliest_finish t)) (preds_of G n)) 0);
  ok_ef : forall n, In n (node_names G) ->
    dict_get (earliest_finish t) n
    = Some (value_at (earliest_start t) n + duration_of G n);
  ok_total_attained : exists n,
    dict_get (earliest_finish t) n = Some (total_project_duration t);
  ok_total_max : forall n, In n (node_names G) ->
    value_at (earliest_finish t) n <= total_project_duration t;
  ok_lf : forall n, In n (node_names G) ->
    dict_get (latest_finish t) n
    = Some (py_min (map (value_at (latest_start t)) (succs_of G n))
              (total_project_duration t));
  ok_ls : forall n, In n (node_names G) ->
    dict_get (latest_start t) n
    = Some (value_at (latest_finish t) n - duration_of G n);
  ok_critical_path :
    critical_path t = filter (is_critical t) (node_names G);
  ok_critical_activities : forall n, In n (node_names G) ->
    dict_get (critical_activities t) n
    = Some (existsb (String.eqb n) (critical_path t))
}.

(** ** Invariants of Kahn's algorithm *)

Definition mem_edge (u v : string) (E : list (string * string)) : bool :=
  existsb (fun e => String.eqb (fst e) u && String.eqb (snd e) v) E.

(** The predecessors of [v] whose edge to [v] has not been walked. *)
Definition pending (G : DiGraph) (E : list (string * string)) (v : string)
  : list string :=
  filter (fun u => negb (mem_edge u v E)) (preds_of G v).

(** The edges that leave the nodes of a generation, in walking order. *)
Definition edges_from (G : DiGraph) (gen : list string)
  : list (string * string) :=
  flat_map (fun x => map (pair x) (succs_of G x)) gen.

(** Between two visits of a child: [E] are the edges walked, [out] the
    nodes yielded or in the current generation, [next] the generation in
    the making. *)
Record kahn_inv (G : DiGraph) (E : list (string * string))
  (out : list string) (indegree_map : dict nat) (next : list string) : Prop := {
  k_keys : NoDup (dict_keys indegree_map);
  k_count : forall v d, dict_get indegree_map v = Some d ->
    d = List.length (pending G E v) /\ (0 < d)%nat;
  k_zero : forall v, In v (node_names G) ->
    ~ In v (dict_keys indegree_map) -> pending G E v = [];
  k_out : NoDup (out ++ next);
  k_cover : forall n, In n (node_names G) <->
    In n (out ++ next) \/ In n (dict_keys indegree_map);
  k_disjoint : forall n, In n (out ++ next) ->
    ~ In n (dict_keys indegree_map)
}.

(** Every node of a prefix has its predecessors earlier in the list. *)
Definition sorted (G : DiGraph) (l : list string) : Prop :=
  forall pre v suf, l = pre ++ v :: suf ->
    forall u, In u (preds_of G v) -> In u pre.

(** At the head of the [while] loop: the edges walked are those that leave
    the nodes yielded. *)
Record kahn_head (G : DiGraph) (E : list (string * string))
  (yielded zero_indegree : list string) (indegree_map : dict nat) : Prop := {
  h_inv : kahn_inv G E yielded indegree_map zero_indegree;
  h_edges_nodup : NoDup E;
  h_edges : forall u v, In (u, v) E <-> In u yielded /\ edge G u v;
  h_sorted : sorted G yielded
}.

(** ** Records *)

Definition name_of (r : row) : string := strip (Activity r).

(** The value [read_activity_data] stores for a row. *)
Definition estimate_of (r : row) : estimate :=
  {| optimistic := A r;
     most_likely := M r;
     pessimistic := B r;
     predecessors := parse_predecessors (Precedent r) |}.

(** No estimate of a record exceeds 10^150 in absolute value.  The one
    arithmetic operation of the script that can raise is the power of line
    38 ([OverflowError] when the square leaves the range of binary64); on
    records within this bound it does not. *)
Definition estimate_bound : Q := inject_Z (10 ^ 150).

Definition estimates_in_range (df : list row) : Prop :=
  forall r, In r df ->
    Qabs (A r) <= estimate_bound /\ Qabs (M r) <= estimate_bound /\
    Qabs (B r) <= estimate_bound.

(** ** Inputs used as examples *)

(** The example of the specification: A; B after A; C after A. *)
Definition three_activities : list row :=
  [ mk_row "A" NaN 1 2 3;
    mk_row "B" (Text "A") 2 4 6;
    mk_row "C" (Text "A") 1 1 1 ].

Definition three_graph : DiGraph := graph_of (load three_activities).

Definition three_order : list string := ["A"; "B"; "C"].

(** A project whose second activity has a negative duration: A takes 5,
    B follows A and takes -1. *)
Definition negative_activities : list row :=
  [ mk_row "A" NaN 5 5 5;
    mk_row "B" (Text "A") (-1) (-1) (-1) ].

Definition negative_graph : DiGraph := graph_of (load negative_activities).

(** A project with a nearly critical activity: B and C both follow A; B
    takes 1 and C takes 0.9999999999. *)
Definition near_activities : list row :=
  [ mk_row "A" NaN 1 1 1;
    mk_row "B" (Text "A") 1 1 1;
    mk_row "C" (Text "A")
      (9999999999 # 10000000000) (9999999999 # 10000000000)
      (9999999999 # 10000000000) ].

Definition near_graph : DiGraph := graph_of (load near_activities).

(** An activity whose one predecessor, X, is no activity. *)
Definition dangling_activities : list row :=
  [ mk_row "B" (Text "X") 1 1 1 ].


(** Two activities that wait for each other. *)
Definition cyclic_activities : list row :=
  [ mk_row "X" (Text "Y") 1 1 1;
    mk_row "Y" (Text "X") 1 1 1 ].



(** Two records named A, the second with blanks around the name. *)
Definition duplicate_activities : list row :=
  [ mk_row "A" NaN 1 2 3;
    mk_row " A " (Text "B") 4 5 6;
    mk_row "B" NaN 1 1 1 ].

(** One activity whose three estimates agree: its variance is 0. *)
Definition single_activity : list row := [ mk_row "A" NaN 1 1 1 ].

(** ** Further vocabulary *)

(** [c] occurs in [s]. *)
Fixpoint contains (c : ascii) (s : string) : bool :=
  match s with
  | EmptyString => false
  | String c' s' => Ascii.eqb c' c || contains c s'
  end.

(** A name that survives being written into a [Precedent] cell: no blank
    around it, not empty, not the text of a blank cell, no comma. *)
Definition clean_name (n : string) : Prop :=
  strip n = n /\ n <> "" /\ n <> "nan" /\ contains "," n = false.

(** The attributes line 52 gives to the node of an activity. *)
Definition attrs_of (a : activity) : Node.attrs :=
  {| Node.duration := Some (TE a);
     Node.variance := Some (variance a);
     Node.std_dev := Some (std_dev a) |}.


(** No node has a negative duration. *)
Definition nonnegative_durations (G : DiGraph) : Prop :=
  forall n, In n (node_names G) -> 0 <= duration_of G n.

(** What the CPM section computes for the example of the specification,
    walking A, B, C and walking A, C, B. *)
Definition three_timing : timing :=
  Eval vm_compute in
    match cpm three_graph three_order with
    | Ok t => t
    | Raise _ => mk_timing [] [] [] [] [] [] 0
    end.

Definition three_other_order : list string := ["A"; "C"; "B"].

Definition three_other_timing : timing :=
  Eval vm_compute in
    match cpm three_graph three_other_order with
    | Ok t => t
    | Raise _ => mk_timing [] [] [] [] [] [] 0
    end.

(** * Properties *)

(** ** Dictionaries *)

Section DictFacts.
Context {V : Type}.
Implicit Types (d : dict V) (k : string) (v : V).

Lemma dict_get_set_same d k v : dict_get (dict_set d k v) k = Some v.
Proof.
  induction d as [|[k' v'] d IH]; simpl.
  - now rewrite String.eqb_refl.
  - destruct (String.eqb k' k) eqn:E; simpl; now rewrite E.
Qed.

Lemma dict_get_set_other d k k' v :
  k <> k' -> dict_get (dict_set d k v) k' = dict_get d k'.
Proof.
  intros Hne. induction d as [|[k0 v0] d IH]; simpl.
  - destruct (String.eqb_spec k k'); congruence.
  - destruct (String.eqb_spec k0 k) as [->|]; simpl.
    + destruct (String.eqb_spec k k'); congruence.
    + now rewrite IH.
Qed.

Lemma dict_get_none d k : dict_get d k = None <-> ~ In k (dict_keys d).
Proof.
  induction d as [|[k' v'] d IH]; simpl.
  - tauto.
  - destruct (String.eqb_spec k' k) as [->|Hne].
    + split; [discriminate | tauto].
    + rewrite IH. tauto.
Qed.

Lemma dict_get_some d k v : dict_get d k = Some v -> In k (dict_keys d).
Proof.
  intros H. destruct (in_dec string_dec k (dict_keys d)) as [|Hn]; auto.
  apply dict_get_none in Hn. congruence.
Qed.

Lemma dict_get_in d k : In k (dict_keys d) -> exists v, dict_get d k = Some v.
Proof.
  intros H. destruct (dict_get d k) eqn:E; eauto.
  apply dict_get_none in E. contradiction.
Qed.

Lemma dict_get_entry d k v : dict_get d k = Some v -> In (k, v) d.
Proof.
  induction d as [|[k' v'] d IH]; simpl; [discriminate|].
  destruct (String.eqb_spec k' k) as [->|]; intros H.
  - injection H as ->. now left.
  - right. auto.
Qed.

Lemma dict_entry_get d k v :
  NoDup (dict_keys d) -> In (k, v) d -> dict_get d k = Some v.
Proof.
  induction d as [|[k' v'] d IH]; simpl; [tauto|].
  intros Hnd [H|H]; inversion Hnd; subst.
  - injection H as -> ->. now rewrite String.eqb_refl.
  - destruct (String.eqb_spec k' k) as [->|]; auto.
    exfalso. apply H2. change k with (fst (k, v)). now apply in_map.
Qed.

Lemma dict_keys_set_in d k v :
  In k (dict_keys d) -> dict_keys (dict_set d k v) = dict_keys d.
Proof.
  induction d as [|[k' v'] d IH]; simpl; [tauto|].
  destruct (String.eqb_spec k' k) as [->|Hne]; simpl; auto.
  intros [H|H]; [congruence|]. now rewrite IH.
Qed.

Lemma dict_keys_set_new d k v :
  ~ In k (dict_keys d) -> dict_keys (dict_set d k v) = dict_keys d ++ [k].
Proof.
  induction d as [|[k' v'] d IH]; simpl; auto.
  destruct (String.eqb_spec k' k) as [->|Hne]; simpl; [tauto|].
  intros H. rewrite IH; tauto.
Qed.

Lemma dict_keys_set_iff d k v k' :
  In k' (dict_keys (dict_set d k v)) <-> k' = k \/ In k' (dict_keys d).
Proof.
  destruct (in_dec string_dec k (dict_keys d)) as [Hin|Hn].
  - rewrite dict_keys_set_in by assumption.
    split; [tauto | intros [->|]; auto].
  - rewrite dict_keys_set_new by assumption.
    rewrite in_app_iff. simpl. intuition congruence.
Qed.

Lemma dict_keys_set_nodup d k v :
  NoDup (dict_keys d) -> NoDup (dict_keys (dict_set d k v)).
Proof.
  intros Hnd. destruct (in_dec string_dec k (dict_keys d)) as [Hin|Hn].
  - now rewrite dict_keys_set_in.
  - rewrite dict_keys_set_new by assumption.
    apply NoDup_app; auto.
    + repeat constructor. simpl. tauto.
    + intros x Hx [<-|[]]. contradiction.
Qed.

Lemma dict_contains_true d k : dict_contains d k = true <-> In k (dict_keys d).
Proof.
  unfold dict_contains. split.
  - destruct (dict_get d k) eqn:E; [|discriminate].
    intros _. eapply dict_get_some; eauto.
  - intros H. apply dict_get_in in H as [v ->]. reflexivity.
Qed.

Lemma dict_get_default_set_other d k k' v default :
  k <> k' ->
  dict_get_default (dict_set d k v) k' default = dict_get_default d k' default.
Proof.
  intros H. unfold dict_get_default. now rewrite dict_get_set_other.
Qed.
End DictFacts.

Lemma dict_get_map_values {V W : Type} (f : V -> W) (d : dict V) (k : string) :
  dict_get (map (fun kv => (fst kv, f (snd kv))) d) k
  = option_map f (dict_get d k).
Proof.
  induction d as [|[k' v'] d IH]; simpl; auto.
  destruct (String.eqb k' k); auto.
Qed.

Lemma dict_keys_map_values {V W : Type} (f : V -> W) (d : dict V) :
  dict_keys (map (fun kv => (fst kv, f (snd kv))) d) = dict_keys d.
Proof.
  unfold dict_keys. rewrite map_map. reflexivity.
Qed.

(** ** [for] loops *)

Lemma for_each_app {S X : Type} (f : S -> X -> result S) (l1 l2 : list X)
  (s : S) :
  for_each f (l1 ++ l2) s = (s' <- for_each f l1 s ;; for_each f l2 s').
Proof.
  revert s. induction l1 as [|x l1 IH]; intros s; simpl; auto.
  destruct (f s x); simpl; auto.
Qed.

(** ** Largest and smallest elements *)

Lemma Qlt_bool_true x y : Qlt_bool x y = true <-> x < y.
Proof.
  unfold Qlt_bool. rewrite negb_true_iff. split.
  - intros H. apply Qnot_le_lt. intros Hle.
    apply Qle_bool_iff in Hle. congruence.
  - intros H. destruct (Qle_bool y x) eqn:E; auto.
    apply Qle_bool_iff in E. exfalso. eapply Qlt_not_le; eauto.
Qed.

Lemma Qlt_bool_false x y : Qlt_bool x y = false <-> y <= x.
Proof.
  unfold Qlt_bool. rewrite negb_false_iff. apply Qle_bool_iff.
Qed.

Lemma max_from_spec l cur :
  In (max_from cur l) (cur :: l) /\
  forall x, In x (cur :: l) -> x <= max_from cur l.
Proof.
  revert cur. induction l as [|y l IH]; intros cur; simpl.
  - split; [now left | intros x [<-|[]]; apply Qle_refl].
  - destruct (Qlt_bool cur y) eqn:E.
    + apply Qlt_bool_true in E. destruct (IH y) as [Hin Hle]. split.
      * simpl in Hin. tauto.
      * intros x [<-|Hx].
        -- apply Qle_trans with y; [now apply Qlt_le_weak | apply Hle; now left].
        -- now apply Hle.
    + apply Qlt_bool_false in E. destruct (IH cur) as [Hin Hle]. split.
      * simpl in Hin. tauto.
      * intros x [<-|[<-|Hx]].
        -- apply Hle. now left.
        -- apply Qle_trans with cur; [assumption | apply Hle; now left].
        -- apply Hle. now right.
Qed.

Lemma min_from_spec l cur :
  In (min_from cur l) (cur :: l) /\
  forall x, In x (cur :: l) -> min_from cur l <= x.
Proof.
  revert cur. induction l as [|y l IH]; intros cur; simpl.
  - split; [now left | intros x [<-|[]]; apply Qle_refl].
  - destruct (Qlt_bool y cur) eqn:E.
    + apply Qlt_bool_true in E. destruct (IH y) as [Hin Hle]. split.
      * simpl in Hin. tauto.
      * intros x [<-|Hx].
        -- apply Qle_trans with y; [apply Hle; now left | now apply Qlt_le_weak].
        -- now apply Hle.
    + apply Qlt_bool_false in E. destruct (IH cur) as [Hin Hle]. split.
      * simpl in Hin. tauto.
      * intros x [<-|[<-|Hx]].
        -- apply Hle. now left.
        -- apply Qle_trans with cur; [apply Hle; now left | assumption].
        -- apply Hle. now right.
Qed.

Lemma py_min_cases l default :
  (l = [] /\ py_min l default = default) \/ In (py_min l default) l.
Proof.
  destruct l as [|x l]; [now left | right].
  apply (min_from_spec l x).
Qed.

Lemma py_max_spec l default : is_max_or default l (py_max l default).
Proof. destruct l as [|x l]; simpl; [reflexivity | apply max_from_spec]. Qed.

Lemma py_min_spec l default : is_min_or default l (py_min l default).
Proof. destruct l as [|x l]; simpl; [reflexivity | apply min_from_spec]. Qed.

Lemma max_key_from_spec (d : dict Q) (k : string) (v : Q) :
  exists v', In (max_key_from k v d, v') ((k, v) :: d) /\
             forall kv, In kv ((k, v) :: d) -> snd kv <= v'.
Proof.
  revert k v. induction d as [|[k1 v1] d IH]; intros k v; simpl.
  - exists v. split; [now left | intros kv [<-|[]]; apply Qle_refl].
  - destruct (Qlt_bool v v1) eqn:E.
    + apply Qlt_bool_true in E. destruct (IH k1 v1) as (v' & Hin & Hle).
      exists v'. split; [now right|].
      intros kv [<-|Hkv]; [|now apply Hle]. simpl.
      apply Qle_trans with v1; [now apply Qlt_le_weak|].
      apply (Hle (k1, v1)). now left.
    + apply Qlt_bool_false in E. destruct (IH k v) as (v' & Hin & Hle).
      exists v'. split.
      * destruct Hin as [Hin|Hin]; [now left | now right; right].
      * intros kv [<-|[<-|Hkv]].
        -- apply (Hle (k, v)). now left.
        -- simpl. apply Qle_trans with v; [assumption|].
           apply (Hle (k, v)). now left.
        -- apply Hle. now right.
Qed.

(** On a non-empty dictionary the largest value is found, and it is the
    value of some key. *)
Lemma max_earliest_finish_spec (ef : dict Q) :
  NoDup (dict_keys ef) -> ef <> [] ->
  exists total, max_earliest_finish ef = Ok total /\
    (exists k, dict_get ef k = Some total) /\
    (forall k v, dict_get ef k = Some v -> v <= total).
Proof.
  intros Hnd Hne. destruct ef as [|[k v] d]; [congruence|].
  unfold max_earliest_finish, max_key.
  destruct (max_key_from_spec d k v) as (total & Hin & Hle).
  simpl bind. unfold dict_getitem.
  rewrite (dict_entry_get _ _ _ Hnd Hin).
  exists total. split; [reflexivity|]. split.
  - exists (max_key_from k v d). now apply dict_entry_get.
  - intros k' v' Hget. apply dict_get_entry in Hget.
    apply (Hle (k', v')). assumption.
Qed.

Lemma max_earliest_finish_empty : max_earliest_finish [] = Raise ValueError.
Proof. reflexivity. Qed.

(** ** Well-formed graphs and topological orders *)

Lemma nodup_split_eq {X : Type} (a a' b b' : list X) (x : X) :
  NoDup (a ++ x :: b) -> a ++ x :: b = a' ++ x :: b' -> a = a' /\ b = b'.
Proof.
  revert a'. induction a as [|y a IH]; intros [|y' a'] Hnd Heq; simpl in *.
  - injection Heq as ->. auto.
  - injection Heq as <- ->. inversion Hnd; subst.
    exfalso. apply H1. apply in_or_app. right. now left.
  - injection Heq as -> <-. inversion Hnd; subst.
    exfalso. apply H1. apply in_or_app. right. now left.
  - injection Heq as <- Heq. inversion Hnd; subst.
    destruct (IH a' H2 Heq) as [-> ->]. auto.
Qed.

Section GraphFacts.
Variable G : DiGraph.
Hypothesis Hwf : wf_graph G.

Lemma succs_of_node u v : In v (succs_of G u) -> In u (node_names G).
Proof.
  unfold succs_of, dict_get_default. intros H.
  destruct (dict_get (adj_succ G) u) eqn:E; [|contradiction].
  rewrite <- (wf_succ_keys G Hwf). eapply dict_get_some; eauto.
Qed.

Lemma preds_of_node u v : In u (preds_of G v) -> In v (node_names G).
Proof.
  unfold preds_of, dict_get_default. intros H.
  destruct (dict_get (adj_pred G) v) eqn:E; [|contradiction].
  rewrite <- (wf_pred_keys G Hwf). eapply dict_get_some; eauto.
Qed.

Lemma edge_nodes u v :
  edge G u v -> In u (node_names G) /\ In v (node_names G).
Proof.
  intros H. split.
  - eapply succs_of_node; eauto.
  - apply (wf_sym G Hwf) in H. eapply preds_of_node; eauto.
Qed.

Lemma graph_predecessors_ok n :
  In n (node_names G) -> graph_predecessors G n = Ok (preds_of G n).
Proof.
  intros H. rewrite <- (wf_pred_keys G Hwf) in H.
  apply dict_get_in in H as [l Hl].
  unfold graph_predecessors, preds_of, dict_get_default. now rewrite Hl.
Qed.

Lemma graph_successors_ok n :
  In n (node_names G) -> graph_successors G n = Ok (succs_of G n).
Proof.
  intros H. rewrite <- (wf_succ_keys G Hwf) in H.
  apply dict_get_in in H as [l Hl].
  unfold graph_successors, succs_of, dict_get_default. now rewrite Hl.
Qed.

Lemma node_duration_ok n :
  In n (node_names G) -> node_duration G n = Ok (duration_of G n).
Proof.
  intros H. apply dict_get_in in H as [a Ha].
  unfold node_duration, dict_getitem, duration_of. rewrite Ha. simpl.
  pose proof (wf_duration G Hwf n a Ha) as Hd.
  destruct (Node.duration a); congruence.
Qed.

Variable order : list string.
Hypothesis Htopo : topological_order G order.

Lemma order_nodup : NoDup order.
Proof. apply Htopo. Qed.

Lemma order_nodes n : In n order <-> In n (node_names G).
Proof. apply Htopo. Qed.

Lemma preds_before pre n suf p :
  order = pre ++ n :: suf -> In p (preds_of G n) -> In p pre.
Proof.
  intros Ho Hp. apply (wf_sym G Hwf) in Hp.
  destruct Htopo as (Hnd & _ & Hedge).
  destruct (Hedge p n Hp) as (l1 & l2 & l3 & Hsplit).
  rewrite Ho in Hnd.
  assert (Heq : pre ++ n :: suf = (l1 ++ p :: l2) ++ n :: l3).
  { rewrite <- Ho, Hsplit, <- app_assoc. reflexivity. }
  destruct (nodup_split_eq _ _ _ _ _ Hnd Heq) as [-> _].
  apply in_or_app. right. now left.
Qed.

Lemma succs_after pre n suf s :
  order = pre ++ n :: suf -> In s (succs_of G n) -> In s suf.
Proof.
  intros Ho Hs.
  destruct Htopo as (Hnd & _ & Hedge).
  destruct (Hedge n s Hs) as (l1 & l2 & l3 & Hsplit).
  rewrite Ho in Hnd.
  assert (Heq : pre ++ n :: suf = l1 ++ n :: l2 ++ s :: l3).
  { rewrite <- Ho, Hsplit. reflexivity. }
  destruct (nodup_split_eq _ _ _ _ _ Hnd Heq) as [_ ->].
  apply in_or_app. right. now left.
Qed.

(** Predecessors of a node of a prefix of the order lie in that prefix. *)
Lemma preds_in_prefix done todo n p :
  order = done ++ todo -> In n done -> In p (preds_of G n) -> In p done.
Proof.
  intros Ho Hn Hp. apply in_split in Hn as (a & b & ->).
  rewrite <- app_assoc in Ho. simpl in Ho.
  apply in_or_app. left. eapply preds_before; eauto.
Qed.

(** Successors of a node of a suffix of the order lie in that suffix. *)
Lemma succs_in_suffix todo done n s :
  order = todo ++ done -> In n done -> In s (succs_of G n) -> In s done.
Proof.
  intros Ho Hn Hs. apply in_split in Hn as (a & b & ->).
  rewrite app_assoc in Ho.
  apply in_or_app. right. right. eapply succs_after; eauto.
Qed.
End GraphFacts.

(** ** The forward and backward passes *)

Lemma value_at_get d n v : dict_get d n = Some v -> value_at d n = v.
Proof. unfold value_at, dict_get_default. now intros ->. Qed.

Section Passes.
Variable G : DiGraph.
Hypothesis Hwf : wf_graph G.
Variable order : list string.
Hypothesis Htopo : topological_order G order.

Lemma forward_prefix done :
  forall todo, order = done ++ todo ->
  exists es ef,
    for_each (forward_step G) done ([], []) = Ok (es, ef) /\
    forward_inv G done es ef.
Proof.
  induction done as [|x done IH] using rev_ind; intros todo Ho.
  - exists [], []. split; [reflexivity|].
    repeat split; simpl; contradiction.
  - rewrite <- app_assoc in Ho. simpl in Ho.
    destruct (IH _ Ho) as (es & ef & Hrun & Hk1 & Hk2 & Hval).
    assert (Hx : In x (node_names G)).
    { apply (order_nodes G order Htopo). rewrite Ho.
      apply in_or_app. right. now left. }
    assert (Hnew : ~ In x done).
    { pose proof (order_nodup G order Htopo) as Hnd. rewrite Ho in Hnd.
      apply NoDup_remove_2 in Hnd. intros Hin. apply Hnd.
      apply in_or_app. now left. }
    rewrite for_each_app, Hrun. simpl. unfold forward_step.
    rewrite (graph_predecessors_ok G Hwf x Hx). simpl.
    rewrite (node_duration_ok G Hwf x Hx). simpl.
    eexists _, _. split; [reflexivity|].
    assert (Hsame : forall n, In n (done ++ [x]) ->
      map (fun p => dict_get_default
                      (dict_set ef x
                         (py_max (map (fun pred => dict_get_default ef pred 0)
                                    (preds_of G x)) 0 + duration_of G x)) p 0)
          (preds_of G n)
      = map (fun p => dict_get_default ef p 0) (preds_of G n)).
    { intros n Hn. apply map_ext_in. intros p Hp.
      apply dict_get_default_set_other. intros <-. apply Hnew.
      apply in_app_or in Hn as [Hn|[<-|[]]].
      - eapply (preds_in_prefix G Hwf order Htopo); eauto.
      - eapply (preds_before G Hwf order Htopo); eauto. }
    split; [|split].
    + rewrite dict_keys_set_new; congruence.
    + rewrite dict_keys_set_new; congruence.
    + intros n Hn. cbv zeta. rewrite (Hsame n Hn).
      apply in_app_or in Hn as [Hn|[<-|[]]].
      * assert (x <> n) by congruence.
        rewrite !dict_get_set_other by assumption. now apply Hval.
      * rewrite !dict_get_set_same. auto.
Qed.

Lemma forward_pass_spec :
  exists es ef,
    forward_pass G order = Ok (es, ef) /\ forward_inv G order es ef.
Proof. apply (forward_prefix order []). now rewrite app_nil_r. Qed.

Variable ef : dict Q.
Variable total : Q.
Hypothesis Htotal : max_earliest_finish ef = Ok total.

Lemma backward_prefix done :
  forall todo, rev order = done ++ todo ->
  exists lf ls,
    for_each (backward_step G ef) done ([], []) = Ok (lf, ls) /\
    backward_inv G total done lf ls.
Proof.
  induction done as [|x done IH] using rev_ind; intros todo Ho.
  - exists [], []. split; [reflexivity|].
    repeat split; simpl; contradiction.
  - rewrite <- app_assoc in Ho. simpl in Ho.
    destruct (IH _ Ho) as (lf & ls & Hrun & Hk1 & Hk2 & Hval).
    assert (Ho' : order = rev todo ++ rev (done ++ [x])).
    { rewrite <- rev_app_distr, <- app_assoc. simpl.
      rewrite <- Ho. now rewrite rev_involutive. }
    assert (Hx : In x (node_names G)).
    { apply (order_nodes G order Htopo). apply in_rev. rewrite Ho.
      apply in_or_app. right. now left. }
    assert (Hnew : ~ In x done).
    { pose proof (order_nodup G order Htopo) as Hnd.
      apply NoDup_rev in Hnd. rewrite Ho in Hnd.
      apply NoDup_remove_2 in Hnd. intros Hin. apply Hnd.
      apply in_or_app. now left. }
    rewrite for_each_app, Hrun. simpl. unfold backward_step.
    rewrite (graph_successors_ok G Hwf x Hx). simpl.
    rewrite Htotal. simpl.
    rewrite (node_duration_ok G Hwf x Hx). simpl.
    eexists _, _. split; [reflexivity|].
    assert (Hsame : forall n, In n (done ++ [x]) ->
      map (fun s => dict_get_default
                      (dict_set ls x
                         (py_min (map (fun succ => dict_get_default ls succ total)
                                    (succs_of G x)) total - duration_of G x))
                      s total)
          (succs_of G n)
      = map (fun s => dict_get_default ls s total) (succs_of G n)).
    { intros n Hn. apply map_ext_in. intros s Hs.
      apply dict_get_default_set_other. intros <-.
      apply in_app_or in Hn as [Hn|[<-|[]]].
      - (* n was walked before x, so x is no successor of n *)
        apply in_split in Hn as (a & b & ->).
        assert (Ho2 : order = rev (b ++ x :: todo) ++ n :: rev a).
        { apply (f_equal (@rev string)) in Ho.
          rewrite rev_involutive in Ho. rewrite Ho.
          rewrite <- !app_assoc. simpl.
          rewrite !rev_app_distr. simpl. rewrite !rev_app_distr. simpl.
          rewrite <- !app_assoc. simpl. reflexivity. }
        pose proof (succs_after G order Htopo _ _ _ _ Ho2 Hs) as Hxa.
        apply Hnew. apply in_or_app. left. now apply in_rev.
      - (* a node is not its own successor *)
        assert (Ho2 : order = rev todo ++ x :: rev done).
        { rewrite Ho', rev_app_distr. reflexivity. }
        pose proof (succs_after G order Htopo _ _ _ _ Ho2 Hs) as Hxa.
        apply Hnew. now apply in_rev. }
    split; [|split].
    + rewrite dict_keys_set_new; congruence.
    + rewrite dict_keys_set_new; congruence.
    + intros n Hn. cbv zeta. rewrite (Hsame n Hn).
      apply in_app_or in Hn as [Hn|[<-|[]]].
      * assert (x <> n) by congruence.
        rewrite !dict_get_set_other by assumption. now apply Hval.
      * rewrite !dict_get_set_same. auto.
Qed.

Lemma backward_pass_spec :
  exists lf ls,
    backward_pass G order ef = Ok (lf, ls) /\
    backward_inv G total (rev order) lf ls.
Proof. apply (backward_prefix (rev order) []). now rewrite app_nil_r. Qed.
End Passes.

(** ** The CPM section as a whole *)

Lemma critical_path_spec (es ls : dict Q) (l acc : list string) :
  (forall n, In n l -> In n (dict_keys es) /\ In n (dict_keys ls)) ->
  for_each (critical_step es ls) l acc
  = Ok (acc ++ filter (fun n => Qeq_bool (value_at es n) (value_at ls n)) l).
Proof.
  revert acc. induction l as [|x l IH]; intros acc Hin; simpl.
  - now rewrite app_nil_r.
  - destruct (Hin x (or_introl eq_refl)) as [He Hl].
    apply dict_get_in in He as [e He]. apply dict_get_in in Hl as [v Hl].
    unfold critical_step at 1, dict_getitem. rewrite He, Hl. simpl.
    rewrite (value_at_get _ _ _ He), (value_at_get _ _ _ Hl).
    rewrite IH by (intros n Hn; apply Hin; now right).
    destruct (Qeq_bool e v); [|reflexivity].
    now rewrite <- app_assoc.
Qed.

Lemma critical_activities_spec (G : DiGraph) (path : list string) (n : string) :
  In n (node_names G) ->
  dict_get (critical_activities_of G path) n
  = Some (existsb (String.eqb n) path).
Proof.
  unfold critical_activities_of. induction (node_names G) as [|x l IH]; simpl.
  - tauto.
  - destruct (String.eqb_spec x n) as [->|Hne]; [reflexivity|].
    intros [H|H]; [congruence | auto].
Qed.

Lemma map_value_at_default (d : dict Q) (l : list string) (default : Q) :
  (forall n, In n l -> In n (dict_keys d)) ->
  map (fun n => dict_get_default d n default) l = map (value_at d) l.
Proof.
  intros H. apply map_ext_in. intros n Hn.
  apply H in Hn. apply dict_get_in in Hn as [v Hv].
  unfold value_at, dict_get_default. now rewrite Hv.
Qed.

(** On every non-empty graph with a topological order the CPM section runs
    to its end, and its tables are as the loops assign them. *)
Lemma cpm_spec (G : DiGraph) (order : list string) :
  wf_graph G -> topological_order G order -> node_names G <> [] ->
  exists t, cpm G order = Ok t /\ timing_ok G order t.
Proof.
  intros Hwf Htopo Hne.
  destruct (forward_pass_spec G Hwf order Htopo)
    as (es & ef & Hfwd & Hes_keys & Hef_keys & Hfwd_val).
  assert (Hnode : forall n, In n (node_names G) <-> In n order).
  { intros n. symmetry. apply (order_nodes G order Htopo). }
  assert (Hef_ne : ef <> []).
  { intros ->. simpl in Hef_keys.
    destruct (node_names G) as [|x l]; [congruence|].
    assert (Hx : In x order) by (apply Hnode; now left).
    rewrite <- Hef_keys in Hx. exact Hx. }
  assert (Hef_nd : NoDup (dict_keys ef)).
  { rewrite Hef_keys. apply (order_nodup G order Htopo). }
  destruct (max_earliest_finish_spec ef Hef_nd Hef_ne)
    as (total & Htotal & Hatt & Hmax).
  destruct (backward_pass_spec G Hwf order Htopo ef total Htotal)
    as (lf & ls & Hbwd & Hlf_keys & Hls_keys & Hbwd_val).
  unfold cpm. rewrite Hfwd. simpl. rewrite Hbwd. simpl.
  unfold critical_path_of. rewrite critical_path_spec.
  2:{ intros n Hn. apply Hnode in Hn. rewrite Hes_keys, Hls_keys.
      split; [assumption | now apply -> in_rev]. }
  simpl. rewrite Htotal. simpl.
  eexists. split; [reflexivity|].
  constructor; simpl.
  - auto.
  - auto.
  - intros n Hn. apply Hnode in Hn.
    destruct (Hfwd_val n Hn) as [H _]. exact H.
  - intros n Hn. apply Hnode in Hn.
    destruct (Hfwd_val n Hn) as [H1 H2].
    now rewrite (value_at_get _ _ _ H1).
  - exact Hatt.
  - intros n Hn. apply Hnode in Hn. rewrite <- Hef_keys in Hn.
    apply dict_get_in in Hn as [v Hv].
    rewrite (value_at_get _ _ _ Hv). eapply Hmax; eauto.
  - intros n Hn. pose proof Hn as Hn'. apply Hnode, in_rev in Hn.
    destruct (Hbwd_val n Hn) as [H _]. rewrite H. f_equal. f_equal.
    apply map_value_at_default. intros s Hs.
    rewrite Hls_keys. apply -> in_rev. apply Hnode.
    apply (edge_nodes G Hwf n s Hs).
  - intros n Hn. apply Hnode, in_rev in Hn.
    destruct (Hbwd_val n Hn) as [H1 H2].
    now rewrite (value_at_get _ _ _ H1).
  - reflexivity.
  - intros n Hn. now apply critical_activities_spec.
Qed.

Lemma cpm_inv (G : DiGraph) (order : list string) (t : timing) :
  cpm G order = Ok t ->
  forward_pass G order = Ok (earliest_start t, earliest_finish t) /\
  backward_pass G order (earliest_finish t)
  = Ok (latest_finish t, latest_start t) /\
  critical_path_of G (earliest_start t) (latest_start t)
  = Ok (critical_path t) /\
  max_earliest_finish (earliest_finish t) = Ok (total_project_duration t).
Proof.
  unfold cpm.
  destruct (forward_pass G order) as [[es ef]|]; simpl; [|discriminate].
  destruct (backward_pass G order ef) as [[lf ls]|] eqn:Eb; simpl;
    [|discriminate].
  destruct (critical_path_of G es ls) as [path|] eqn:Ec; simpl;
    [|discriminate].
  destruct (max_earliest_finish ef) as [total|] eqn:Et; simpl;
    [|discriminate].
  intros H. injection H as <-. simpl. auto.
Qed.

Section TimingFacts.
Variable G : DiGraph.
Hypothesis Hwf : wf_graph G.
Variable order : list string.
Hypothesis Htopo : topological_order G order.
Variable t : timing.
Hypothesis Hok : timing_ok G order t.

Local Abbreviation ES := (value_at (earliest_start t)).
Local Abbreviation EF := (value_at (earliest_finish t)).
Local Abbreviation LS := (value_at (latest_start t)).
Local Abbreviation LF := (value_at (latest_finish t)).
Local Abbreviation total := (total_project_duration t).

Lemma ES_eq n :
  In n (node_names G) -> ES n = py_max (map EF (preds_of G n)) 0.
Proof. intros H. apply value_at_get. now apply (ok_es G order t Hok). Qed.

Lemma EF_eq n : In n (node_names G) -> EF n = ES n + duration_of G n.
Proof. intros H. apply value_at_get. now apply (ok_ef G order t Hok). Qed.

Lemma LF_eq n :
  In n (node_names G) -> LF n = py_min (map LS (succs_of G n)) total.
Proof. intros H. apply value_at_get. now apply (ok_lf G order t Hok). Qed.

Lemma LS_eq n : In n (node_names G) -> LS n = LF n - duration_of G n.
Proof. intros H. apply value_at_get. now apply (ok_ls G order t Hok). Qed.

(** A node starts no earlier than any of its predecessors finishes. *)
Lemma EF_le_ES u v : edge G u v -> EF u <= ES v.
Proof.
  intros He. destruct (edge_nodes G Hwf u v He) as [Hu Hv].
  rewrite (ES_eq v Hv).
  apply (wf_sym G Hwf) in He.
  pose proof (py_max_spec (map EF (preds_of G v)) 0) as Hmax.
  assert (Hin : In (EF u) (map EF (preds_of G v))) by now apply in_map.
  destruct (map EF (preds_of G v)) as [|x l]; [contradiction|].
  destruct Hmax as [_ Hle]. now apply Hle.
Qed.


(** With no negative duration, the project finish is reached at a node
    with no successor. *)
Lemma sink_suffix suf :
  (forall n, In n (node_names G) -> 0 <= duration_of G n) ->
  forall pre, order = pre ++ suf ->
  forall n, In n suf -> EF n == total ->
  exists sink, In sink (node_names G) /\ out_degree G sink = 0%nat /\
               EF sink == total.
Proof.
  intros Hpos.
  induction suf as [|a suf IH]; intros pre Ho n Hn Hfin; [contradiction|].
  assert (Ho' : order = (pre ++ [a]) ++ suf).
  { rewrite <- app_assoc. exact Ho. }
  destruct Hn as [<-|Hn]; [|now apply (IH _ Ho' n)].
  assert (Ha : In a (node_names G)).
  { apply (order_nodes G order Htopo). rewrite Ho.
    apply in_or_app. right. now left. }
  destruct (succs_of G a) as [|s l] eqn:E.
  - exists a. unfold out_degree. rewrite E. auto.
  - assert (Hsin : edge G a s) by (unfold edge; rewrite E; now left).
    assert (Hsn : In s (node_names G)) by apply (edge_nodes G Hwf a s Hsin).
    pose proof (succs_after G order Htopo _ _ _ _ Ho Hsin) as Hsuf.
    apply (IH _ Ho' s Hsuf).
    pose proof (EF_le_ES a s Hsin) as Hes.
    pose proof (ok_total_max G order t Hok s Hsn) as Hmax.
    pose proof (Hpos s Hsn) as Hd.
    rewrite (EF_eq s Hsn) in *. lra.
Qed.
End TimingFacts.

(** ** The graph built from the activities *)

Lemma empty_graph_inv : graph_inv empty_graph.
Proof.
  constructor; simpl; auto.
  - constructor.
  - intros u v. unfold succs_of, preds_of. simpl. tauto.
Qed.

Lemma dict_get_default_set_nil {X : Type} (d : dict (list X)) (n u : string) :
  dict_get d n = None ->
  dict_get_default (dict_set d n []) u [] = dict_get_default d u [].
Proof.
  intros Hn. unfold dict_get_default.
  destruct (string_dec n u) as [<-|Hne].
  - now rewrite dict_get_set_same, Hn.
  - now rewrite dict_get_set_other.
Qed.

Lemma touch_cases (G : DiGraph) (n : string) :
  graph_inv G ->
  (In n (node_names G) /\ touch G n = G) \/
  (~ In n (node_names G) /\
   node_names (touch G n) = node_names G ++ [n] /\
   dict_keys (adj_succ (touch G n)) = node_names G ++ [n] /\
   dict_keys (adj_pred (touch G n)) = node_names G ++ [n] /\
   dict_get (nodes (touch G n)) n = Some Node.empty /\
   (forall m, m <> n ->
      dict_get (nodes (touch G n)) m = dict_get (nodes G) m) /\
   (forall u, succs_of (touch G n) u = succs_of G u) /\
   (forall u, preds_of (touch G n) u = preds_of G u)).
Proof.
  intros Hinv. unfold touch.
  destruct (dict_contains (adj_succ G) n) eqn:E.
  - left. split; [|reflexivity].
    apply dict_contains_true in E. now rewrite <- (inv_succ_keys G Hinv).
  - right.
    assert (Hn : ~ In n (node_names G)).
    { intros H. rewrite <- (inv_succ_keys G Hinv) in H.
      apply dict_contains_true in H. congruence. }
    assert (Hs : dict_get (adj_succ G) n = None).
    { apply dict_get_none. now rewrite (inv_succ_keys G Hinv). }
    assert (Hp : dict_get (adj_pred G) n = None).
    { apply dict_get_none. now rewrite (inv_pred_keys G Hinv). }
    split; [assumption|]. unfold node_names, succs_of, preds_of. simpl.
    repeat split.
    + now apply dict_keys_set_new.
    + rewrite dict_keys_set_new, (inv_succ_keys G Hinv); auto.
      now rewrite (inv_succ_keys G Hinv).
    + rewrite dict_keys_set_new, (inv_pred_keys G Hinv); auto.
      now rewrite (inv_pred_keys G Hinv).
    + apply dict_get_set_same.
    + intros m Hm. apply dict_get_set_other. congruence.
    + intros u. now apply dict_get_default_set_nil.
    + intros u. now apply dict_get_default_set_nil.
Qed.

Lemma touch_inv (G : DiGraph) (n : string) :
  graph_inv G -> graph_inv (touch G n).
Proof.
  intros Hinv.
  destruct (touch_cases G n Hinv)
    as [[_ ->]|(Hn & Hk & Hks & Hkp & _ & _ & Hs & Hp)]; [assumption|].
  constructor.
  - rewrite Hk. apply NoDup_app; [apply Hinv | |].
    + repeat constructor. simpl. tauto.
    + intros x Hx [<-|[]]. contradiction.
  - congruence.
  - congruence.
  - intros u v. rewrite Hs, Hp. apply Hinv.
Qed.

Lemma touch_in (G : DiGraph) (n : string) :
  graph_inv G -> In n (node_names (touch G n)).
Proof.
  intros Hinv.
  destruct (touch_cases G n Hinv) as [[H ->]|(_ & Hk & _)]; [assumption|].
  rewrite Hk. apply in_or_app. right. now left.
Qed.

Lemma touch_keeps (G : DiGraph) (n m : string) :
  graph_inv G -> In m (node_names G) -> In m (node_names (touch G n)).
Proof.
  intros Hinv Hm.
  destruct (touch_cases G n Hinv) as [[H ->]|(_ & Hk & _)]; [assumption|].
  rewrite Hk. apply in_or_app. now left.
Qed.

Lemma touch_succs (G : DiGraph) (n u : string) :
  graph_inv G -> succs_of (touch G n) u = succs_of G u.
Proof.
  intros Hinv.
  destruct (touch_cases G n Hinv)
    as [[_ ->]|(_ & _ & _ & _ & _ & _ & Hs & _)]; auto.
Qed.

Lemma touch_preds (G : DiGraph) (n u : string) :
  graph_inv G -> preds_of (touch G n) u = preds_of G u.
Proof.
  intros Hinv.
  destruct (touch_cases G n Hinv)
    as [[_ ->]|(_ & _ & _ & _ & _ & _ & _ & Hp)]; auto.
Qed.

Lemma add_node_inv (G : DiGraph) (n : string) (d v : Q) (s : number) :
  graph_inv G -> graph_inv (add_node G n d v s).
Proof.
  intros Hinv. pose proof (touch_inv G n Hinv) as Ht.
  pose proof (touch_in G n Hinv) as Hin.
  assert (Hk : node_names (add_node G n d v s) = node_names (touch G n)).
  { unfold node_names, add_node. simpl. now apply dict_keys_set_in. }
  constructor.
  - rewrite Hk. apply Ht.
  - rewrite Hk. apply Ht.
  - rewrite Hk. apply Ht.
  - apply Ht.
Qed.

Lemma adj_add_in (l : list string) (n x : string) :
  In x (adj_add l n) <-> x = n \/ In x l.
Proof.
  unfold adj_add. destruct (existsb (String.eqb n) l) eqn:E.
  - split; [tauto|]. intros [->|H]; [|assumption].
    apply existsb_exists in E as (y & Hy & Heq).
    apply String.eqb_eq in Heq. now subst.
  - rewrite in_app_iff. simpl. intuition congruence.
Qed.

Lemma add_edge_succs (G : DiGraph) (u v x y : string) :
  graph_inv G ->
  In y (succs_of (add_edge G u v) x) <-> (x = u /\ y = v) \/ In y (succs_of G x).
Proof.
  intros Hinv. pose proof (touch_inv G u Hinv) as H1.
  unfold succs_of at 1, add_edge. simpl. unfold dict_get_default at 1.
  destruct (string_dec u x) as [<-|Hne].
  - rewrite dict_get_set_same, adj_add_in.
    fold (succs_of (touch (touch G u) v) u).
    rewrite !touch_succs by assumption. intuition congruence.
  - rewrite dict_get_set_other by assumption.
    fold (dict_get_default (adj_succ (touch (touch G u) v)) x []).
    fold (succs_of (touch (touch G u) v) x).
    rewrite !touch_succs by assumption. intuition congruence.
Qed.

Lemma add_edge_preds (G : DiGraph) (u v x y : string) :
  graph_inv G ->
  In x (preds_of (add_edge G u v) y) <-> (x = u /\ y = v) \/ In x (preds_of G y).
Proof.
  intros Hinv. pose proof (touch_inv G u Hinv) as H1.
  unfold preds_of at 1, add_edge. simpl. unfold dict_get_default at 1.
  destruct (string_dec v y) as [<-|Hne].
  - rewrite dict_get_set_same, adj_add_in.
    fold (preds_of (touch (touch G u) v) v).
    rewrite !touch_preds by assumption. intuition congruence.
  - rewrite dict_get_set_other by assumption.
    fold (dict_get_default (adj_pred (touch (touch G u) v)) y []).
    fold (preds_of (touch (touch G u) v) y).
    rewrite !touch_preds by assumption. intuition congruence.
Qed.

Lemma add_edge_names (G : DiGraph) (u v : string) :
  graph_inv G -> node_names (add_edge G u v) = node_names (touch (touch G u) v).
Proof. reflexivity. Qed.

Lemma add_edge_inv (G : DiGraph) (u v : string) :
  graph_inv G -> graph_inv (add_edge G u v).
Proof.
  intros Hinv. pose proof (touch_inv G u Hinv) as H1.
  pose proof (touch_inv _ v H1) as H2.
  assert (Hu : In u (node_names (touch (touch G u) v))).
  { apply touch_keeps; auto. now apply touch_in. }
  assert (Hv : In v (node_names (touch (touch G u) v))).
  { now apply touch_in. }
  constructor.
  - apply H2.
  - unfold add_edge. simpl. rewrite dict_keys_set_in; [apply H2|].
    now rewrite (inv_succ_keys _ H2).
  - unfold add_edge. simpl. rewrite dict_keys_set_in; [apply H2|].
    now rewrite (inv_pred_keys _ H2).
  - intros x y. rewrite add_edge_succs, add_edge_preds by assumption.
    rewrite (inv_sym G Hinv). tauto.
Qed.

Lemma add_edges_inv (name : string) (ps : list string) (G : DiGraph) :
  graph_inv G ->
  graph_inv (fold_left (fun g p => add_edge g p name) ps G).
Proof.
  revert G. induction ps as [|p ps IH]; intros G Hinv; simpl; auto.
  apply IH. now apply add_edge_inv.
Qed.

Lemma add_activity_inv (G : DiGraph) (item : string * activity) :
  graph_inv G -> graph_inv (add_activity G item).
Proof.
  intros Hinv. destruct item as [name a]. unfold add_activity.
  apply add_edges_inv. now apply add_node_inv.
Qed.

Lemma build_from_inv (activities : dict activity) (G : DiGraph) :
  graph_inv G -> graph_inv (fold_left add_activity activities G).
Proof.
  revert G. induction activities as [|item l IH]; intros G Hinv; simpl; auto.
  apply IH. now apply add_activity_inv.
Qed.

Lemma build_graph_inv (activities : dict activity) :
  graph_inv (build_graph activities).
Proof. apply build_from_inv, empty_graph_inv. Qed.

Lemma set_defaults_wf (G : DiGraph) : graph_inv G -> wf_graph (set_defaults G).
Proof.
  intros Hinv.
  assert (Hk : node_names (set_defaults G) = node_names G).
  { unfold node_names, set_defaults. simpl. apply dict_keys_map_values. }
  constructor.
  - rewrite Hk. apply Hinv.
  - rewrite Hk. apply Hinv.
  - rewrite Hk. apply Hinv.
  - apply Hinv.
  - intros n a. unfold set_defaults. simpl. rewrite dict_get_map_values.
    destruct (dict_get (nodes G) n) as [a0|]; simpl; [|discriminate].
    intros H. injection H as <-. simpl.
    destruct (Node.duration a0); discriminate.
Qed.

(** The graph handed to the timing loops is well formed, whatever the
    activities. *)
Lemma graph_of_wf (activities : dict activity) : wf_graph (graph_of activities).
Proof. apply set_defaults_wf, build_graph_inv. Qed.

Lemma add_node_succs (G : DiGraph) (n u : string) (d v : Q) (s : number) :
  graph_inv G -> succs_of (add_node G n d v s) u = succs_of G u.
Proof. intros Hinv. now apply touch_succs. Qed.

Lemma add_node_preds (G : DiGraph) (n u : string) (d v : Q) (s : number) :
  graph_inv G -> preds_of (add_node G n d v s) u = preds_of G u.
Proof. intros Hinv. now apply touch_preds. Qed.

Lemma touch_nodes_get (G : DiGraph) (n m : string) (a : Node.attrs) :
  graph_inv G ->
  dict_get (nodes (touch G n)) m = Some a ->
  a = Node.empty \/ dict_get (nodes G) m = Some a.
Proof.
  intros Hinv.
  destruct (touch_cases G n Hinv)
    as [[_ ->]|(_ & _ & _ & _ & Hn & Hm & _)]; [auto|].
  destruct (string_dec m n) as [->|Hne].
  - rewrite Hn. intros H. injection H as <-. now left.
  - rewrite (Hm m Hne). auto.
Qed.

Lemma built_weaken (names names' : list string) (G : DiGraph) :
  incl names names' -> built names G -> built names' G.
Proof.
  intros Hincl (Hinv & Hattrs & Hpreds). split; [assumption|]. split.
  - intros m a H. destruct (Hattrs m a H); auto.
  - intros u v H. eauto.
Qed.

Lemma add_edge_built (names : list string) (name p : string) (G : DiGraph) :
  In name names -> built names G -> built names (add_edge G p name).
Proof.
  intros Hname (Hinv & Hattrs & Hpreds).
  split; [now apply add_edge_inv|]. split.
  - intros m a. unfold add_edge. simpl. intros H.
    apply touch_nodes_get in H as [H|H]; [auto | | now apply touch_inv].
    apply touch_nodes_get in H as [H|H]; eauto.
  - intros u v H. apply add_edge_preds in H as [[_ ->]|H]; eauto.
Qed.

Lemma add_edges_built (names : list string) (name : string)
  (ps : list string) (G : DiGraph) :
  In name names -> built names G ->
  built names (fold_left (fun g p => add_edge g p name) ps G).
Proof.
  intros Hname. revert G.
  induction ps as [|p ps IH]; intros G HG; simpl; auto.
  apply IH. now apply add_edge_built.
Qed.

Lemma add_node_built (names : list string) (name : string) (d v : Q)
  (s : number) (G : DiGraph) :
  built names G -> built (name :: names) (add_node G name d v s).
Proof.
  intros (Hinv & Hattrs & Hpreds).
  split; [now apply add_node_inv|]. split.
  - intros m a. unfold add_node. simpl.
    destruct (string_dec name m) as [<-|Hne]; [now right; left|].
    rewrite dict_get_set_other by assumption. intros H.
    apply touch_nodes_get in H as [H|H]; [auto | | assumption].
    destruct (Hattrs m a H); [auto | right; now right].
  - intros u w. rewrite add_node_preds by assumption.
    intros H. right. eauto.
Qed.

Lemma add_activity_built (names : list string) (item : string * activity)
  (G : DiGraph) :
  built names G -> built (fst item :: names) (add_activity G item).
Proof.
  intros HG. destruct item as [name a]. unfold add_activity. simpl.
  apply add_edges_built; [now left|]. now apply add_node_built.
Qed.

Lemma build_from_built (activities : dict activity) (names : list string)
  (G : DiGraph) :
  built names G ->
  built (rev (dict_keys activities) ++ names)
    (fold_left add_activity activities G).
Proof.
  revert names G.
  induction activities as [|item l IH]; intros names G HG; simpl; auto.
  rewrite <- app_assoc. simpl. apply IH. now apply add_activity_built.
Qed.

Lemma build_graph_built (activities : dict activity) :
  built (dict_keys activities) (build_graph activities).
Proof.
  apply built_weaken with (rev (dict_keys activities) ++ []).
  - intros x Hx. rewrite app_nil_r in Hx. now apply in_rev.
  - apply build_from_built. split; [apply empty_graph_inv|].
    split; [discriminate|]. intros u v [].
Qed.

(** Edges, once added, stay. *)
Lemma add_edges_keep (name : string) (ps : list string) (G : DiGraph)
  (u v : string) :
  graph_inv G -> edge G u v ->
  edge (fold_left (fun g p => add_edge g p name) ps G) u v.
Proof.
  revert G. induction ps as [|p ps IH]; intros G Hinv He; simpl; auto.
  apply IH; [now apply add_edge_inv|].
  unfold edge. apply add_edge_succs; auto.
Qed.

Lemma add_edges_new (name : string) (ps : list string) (G : DiGraph)
  (p : string) :
  graph_inv G -> In p ps ->
  edge (fold_left (fun g q => add_edge g q name) ps G) p name.
Proof.
  revert G. induction ps as [|q ps IH]; intros G Hinv Hp; simpl; [contradiction|].
  destruct Hp as [->|Hp].
  - apply add_edges_keep; [now apply add_edge_inv|].
    unfold edge. apply add_edge_succs; auto.
  - apply IH; [now apply add_edge_inv | assumption].
Qed.

Lemma add_activity_keep (G : DiGraph) (item : string * activity)
  (u v : string) :
  graph_inv G -> edge G u v -> edge (add_activity G item) u v.
Proof.
  intros Hinv He. destruct item as [name a]. unfold add_activity.
  apply add_edges_keep; [now apply add_node_inv|].
  unfold edge. now rewrite add_node_succs.
Qed.

Lemma build_from_keep (activities : dict activity) (G : DiGraph)
  (u v : string) :
  graph_inv G -> edge G u v -> edge (fold_left add_activity activities G) u v.
Proof.
  revert G. induction activities as [|item l IH]; intros G Hinv He; simpl; auto.
  apply IH; [now apply add_activity_inv | now apply add_activity_keep].
Qed.

Lemma build_from_edge (activities : dict activity) (G : DiGraph)
  (name p : string) (a : activity) :
  graph_inv G -> In (name, a) activities -> In p (predecessors (data a)) ->
  edge (fold_left add_activity activities G) p name.
Proof.
  revert G. induction activities as [|item l IH]; intros G Hinv Hin Hp;
    simpl; [contradiction|].
  destruct Hin as [->|Hin].
  - apply build_from_keep; [now apply add_activity_inv|].
    unfold add_activity. apply add_edges_new; [now apply add_node_inv|].
    assumption.
  - apply IH; auto. now apply add_activity_inv.
Qed.

(** ** Membership *)

Lemma mem_In n l : mem n l = true <-> In n l.
Proof.
  unfold mem. rewrite existsb_exists. split.
  - intros (x & Hx & Heq). apply String.eqb_eq in Heq. now subst.
  - intros H. exists n. split; [assumption | apply String.eqb_refl].
Qed.

(** ** Adjacency tables without repetition *)

Lemma adj_add_nodup (l : list string) (n : string) :
  NoDup l -> NoDup (adj_add l n).
Proof.
  intros Hnd. unfold adj_add. destruct (existsb (String.eqb n) l) eqn:E; auto.
  apply NoDup_app; auto.
  - repeat constructor. simpl. tauto.
  - intros x Hx [Hxn|[]]. subst x.
    assert (H : existsb (String.eqb n) l = true).
    { apply existsb_exists. exists n. split; auto. apply String.eqb_refl. }
    congruence.
Qed.

Lemma add_edge_succs_eq (G : DiGraph) (u v x : string) :
  graph_inv G ->
  succs_of (add_edge G u v) x
  = if string_dec u x then adj_add (succs_of G x) v else succs_of G x.
Proof.
  intros Hinv. pose proof (touch_inv G u Hinv) as H1.
  unfold succs_of at 1, add_edge. simpl. unfold dict_get_default at 1.
  destruct (string_dec u x) as [<-|Hne].
  - rewrite dict_get_set_same.
    fold (succs_of (touch (touch G u) v) u).
    now rewrite !touch_succs by assumption.
  - rewrite dict_get_set_other by assumption.
    fold (dict_get_default (adj_succ (touch (touch G u) v)) x []).
    fold (succs_of (touch (touch G u) v) x).
    now rewrite !touch_succs by assumption.
Qed.

Lemma add_edge_preds_eq (G : DiGraph) (u v y : string) :
  graph_inv G ->
  preds_of (add_edge G u v) y
  = if string_dec v y then adj_add (preds_of G y) u else preds_of G y.
Proof.
  intros Hinv. pose proof (touch_inv G u Hinv) as H1.
  unfold preds_of at 1, add_edge. simpl. unfold dict_get_default at 1.
  destruct (string_dec v y) as [<-|Hne].
  - rewrite dict_get_set_same.
    fold (preds_of (touch (touch G u) v) v).
    now rewrite !touch_preds by assumption.
  - rewrite dict_get_set_other by assumption.
    fold (dict_get_default (adj_pred (touch (touch G u) v)) y []).
    fold (preds_of (touch (touch G u) v) y).
    now rewrite !touch_preds by assumption.
Qed.

Lemma add_edge_adj_nodup (G : DiGraph) (u v : string) :
  graph_inv G -> adj_nodup G -> adj_nodup (add_edge G u v).
Proof.
  intros Hinv Hnd n. rewrite add_edge_succs_eq, add_edge_preds_eq by assumption.
  destruct (Hnd n) as [Hs Hp].
  destruct (string_dec u n), (string_dec v n); auto using adj_add_nodup.
Qed.

Lemma add_node_adj_nodup (G : DiGraph) (n : string) (d v : Q) (s : number) :
  graph_inv G -> adj_nodup G -> adj_nodup (add_node G n d v s).
Proof.
  intros Hinv Hnd m. rewrite add_node_succs, add_node_preds by assumption.
  apply Hnd.
Qed.

Lemma add_edges_adj_nodup (name : string) (ps : list string) (G : DiGraph) :
  graph_inv G -> adj_nodup G ->
  adj_nodup (fold_left (fun g p => add_edge g p name) ps G).
Proof.
  revert G. induction ps as [|p ps IH]; intros G Hinv Hnd; simpl; auto.
  apply IH; [now apply add_edge_inv | now apply add_edge_adj_nodup].
Qed.

Lemma build_from_adj_nodup (activities : dict activity) (G : DiGraph) :
  graph_inv G -> adj_nodup G ->
  adj_nodup (fold_left add_activity activities G).
Proof.
  revert G. induction activities as [|[name a] l IH]; intros G Hinv Hnd;
    simpl; auto.
  apply IH.
  - now apply (add_activity_inv G (name, a)).
  - apply add_edges_adj_nodup; [now apply add_node_inv|].
    now apply add_node_adj_nodup.
Qed.

Lemma graph_of_adj_nodup (activities : dict activity) :
  adj_nodup (graph_of activities).
Proof.
  intros n. apply (build_from_adj_nodup activities empty_graph).
  - apply empty_graph_inv.
  - intros m. unfold succs_of, preds_of. simpl. split; constructor.
Qed.

(** ** Deleting from a dictionary *)

Lemma dict_get_del_same {V : Type} (d : dict V) (k : string) :
  NoDup (dict_keys d) -> dict_get (dict_del d k) k = None.
Proof.
  induction d as [|[k' v'] d IH]; simpl; auto.
  intros Hnd. inversion Hnd; subst.
  destruct (String.eqb_spec k' k) as [->|Hne].
  - now apply dict_get_none.
  - simpl. destruct (String.eqb_spec k' k); [contradiction | auto].
Qed.

Lemma dict_get_del_other {V : Type} (d : dict V) (k k' : string) :
  k <> k' -> dict_get (dict_del d k) k' = dict_get d k'.
Proof.
  intros Hne. induction d as [|[k0 v0] d IH]; simpl; auto.
  destruct (String.eqb_spec k0 k) as [->|Hk]; simpl.
  - destruct (String.eqb_spec k k'); [contradiction | reflexivity].
  - now rewrite IH.
Qed.

Lemma dict_keys_del_in {V : Type} (d : dict V) (k k' : string) :
  NoDup (dict_keys d) ->
  In k' (dict_keys (dict_del d k)) <-> k' <> k /\ In k' (dict_keys d).
Proof.
  intros Hnd. split.
  - intros H. apply dict_get_in in H as [v Hv].
    destruct (string_dec k k') as [<-|Hne].
    + rewrite dict_get_del_same in Hv by assumption. discriminate.
    + rewrite dict_get_del_other in Hv by assumption.
      split; [congruence | eapply dict_get_some; eauto].
  - intros [Hne H]. apply dict_get_in in H as [v Hv].
    apply dict_get_some with v. rewrite dict_get_del_other; congruence.
Qed.

Lemma dict_keys_del_nodup {V : Type} (d : dict V) (k : string) :
  NoDup (dict_keys d) -> NoDup (dict_keys (dict_del d k)).
Proof.
  induction d as [|[k' v'] d IH]; simpl; auto.
  intros Hnd. inversion Hnd; subst.
  destruct (String.eqb_spec k' k) as [->|Hne]; auto.
  simpl. constructor; auto.
  intros H. apply dict_keys_del_in in H; tauto.
Qed.

(** ** Kahn's algorithm: one decrement, one round *)

Lemma mem_edge_In u v E : mem_edge u v E = true <-> In (u, v) E.
Proof.
  unfold mem_edge. rewrite existsb_exists. split.
  - intros ([a b] & Hin & Heq). simpl in Heq.
    apply andb_true_iff in Heq as [H1 H2].
    apply String.eqb_eq in H1, H2. now subst.
  - intros H. exists (u, v). simpl. now rewrite !String.eqb_refl.
Qed.

Lemma mem_edge_cons u v x c E :
  mem_edge u v ((x, c) :: E)
  = (String.eqb x u && String.eqb c v) || mem_edge u v E.
Proof. reflexivity. Qed.

Lemma pending_other (G : DiGraph) E x c v :
  c <> v -> pending G ((x, c) :: E) v = pending G E v.
Proof.
  intros Hne. unfold pending. apply filter_ext. intros u.
  rewrite mem_edge_cons.
  destruct (String.eqb_spec c v); [contradiction|].
  now rewrite andb_false_r.
Qed.

Lemma filter_drop_one (f : string -> bool) (x : string) (l : list string) :
  NoDup l -> In x l -> f x = true ->
  S (List.length (filter (fun u => negb (String.eqb x u) && f u) l))
  = List.length (filter f l).
Proof.
  induction l as [|y l IH]; simpl; [tauto|].
  intros Hnd Hin Hfx. inversion Hnd; subst.
  destruct (String.eqb_spec x y) as [<-|Hne]; simpl.
  - rewrite Hfx. simpl. f_equal. f_equal. apply filter_ext_in.
    intros u Hu. destruct (String.eqb_spec x u) as [<-|]; [contradiction|].
    reflexivity.
  - destruct Hin as [Hin|Hin]; [congruence|].
    destruct (f y); simpl; auto.
Qed.

Lemma pending_same (G : DiGraph) E x c :
  NoDup (preds_of G c) -> In x (preds_of G c) -> ~ In (x, c) E ->
  S (List.length (pending G ((x, c) :: E) c)) = List.length (pending G E c).
Proof.
  intros Hnd Hin Hnew. unfold pending.
  rewrite <- (filter_drop_one (fun u => negb (mem_edge u c E)) x); auto.
  - f_equal. f_equal. apply filter_ext. intros u.
    rewrite mem_edge_cons, String.eqb_refl, andb_true_r.
    now rewrite negb_orb.
  - apply negb_true_iff. destruct (mem_edge x c E) eqn:E1; auto.
    apply mem_edge_In in E1. contradiction.
Qed.

Section Kahn.
Variable G : DiGraph.
Hypothesis Hwf : wf_graph G.
Hypothesis Hadj : adj_nodup G.

(** One decrement. *)
Lemma visit_child_inv E out m next x c :
  kahn_inv G E out m next -> edge G x c -> ~ In (x, c) E ->
  exists m' next',
    visit_child (m, next) c = Ok (m', next') /\
    kahn_inv G ((x, c) :: E) out m' next'.
Proof.
  intros Hinv He Hnew.
  destruct (edge_nodes G Hwf x c He) as [Hx Hc].
  assert (Hpred : In x (preds_of G c)) by now apply (wf_sym G Hwf).
  pose proof (pending_same G E x c (proj2 (Hadj c)) Hpred Hnew) as Hcount.
  assert (Hkey : In c (dict_keys m)).
  { destruct (in_dec string_dec c (dict_keys m)) as [|Hn]; auto.
    rewrite (k_zero G E out m next Hinv c Hc Hn) in Hcount. discriminate. }
  apply dict_get_in in Hkey as [d Hd].
  destruct (k_count G E out m next Hinv c d Hd) as [Hdeq Hdpos].
  unfold visit_child. rewrite Hd.
  assert (Hd1 : (d - 1)%nat = List.length (pending G ((x, c) :: E) c)) by lia.
  assert (Hc_out : ~ In c (out ++ next)).
  { intros H. apply (k_disjoint G E out m next Hinv c H).
    eapply dict_get_some; eauto. }
  pose proof (k_keys G E out m next Hinv) as Hnd.
  destruct (Nat.eqb_spec (d - 1) 0) as [Hz|Hnz].
  - eexists _, _. split; [reflexivity|]. constructor.
    + now apply dict_keys_del_nodup.
    + intros v d' Hv.
      destruct (string_dec c v) as [<-|Hne].
      * rewrite dict_get_del_same in Hv by assumption. discriminate.
      * rewrite dict_get_del_other in Hv by assumption.
        rewrite pending_other by assumption.
        now apply (k_count G E out m next Hinv).
    + intros v Hv Hnot.
      destruct (string_dec c v) as [<-|Hne].
      * apply length_zero_iff_nil. lia.
      * rewrite pending_other by assumption.
        apply (k_zero G E out m next Hinv v Hv).
        intros H. apply Hnot. apply dict_keys_del_in; auto.
    + rewrite app_assoc. apply NoDup_app.
      * exact (k_out G E out m next Hinv).
      * repeat constructor. simpl. tauto.
      * intros n Hn [Hcn|[]]. subst n. contradiction.
    + intros n. rewrite (k_cover G E out m next Hinv n).
      rewrite dict_keys_del_in by assumption.
      rewrite !in_app_iff. simpl.
      assert (Hcm : In c (dict_keys m)) by (eapply dict_get_some; eauto).
      destruct (string_dec n c) as [->|Hne]; [tauto|].
      intuition congruence.
    + intros n Hn. rewrite dict_keys_del_in by assumption.
      intros [Hne Hk].
      apply in_app_or in Hn as [Hn|Hn].
      * apply (k_disjoint G E out m next Hinv n); auto.
        apply in_or_app. now left.
      * apply in_app_or in Hn as [Hn|[Hn|[]]]; [|congruence].
        apply (k_disjoint G E out m next Hinv n); auto.
        apply in_or_app. now right.
  - assert (Hk : dict_keys (dict_set m c (d - 1)%nat) = dict_keys m).
    { apply dict_keys_set_in. eapply dict_get_some; eauto. }
    eexists _, _. split; [reflexivity|]. constructor.
    + now rewrite Hk.
    + intros v d' Hv.
      destruct (string_dec c v) as [<-|Hne].
      * rewrite dict_get_set_same in Hv. injection Hv as <-. lia.
      * rewrite dict_get_set_other in Hv by assumption.
        rewrite pending_other by assumption.
        now apply (k_count G E out m next Hinv).
    + rewrite Hk. intros v Hv Hnot.
      destruct (string_dec c v) as [<-|Hne].
      * exfalso. apply Hnot. eapply dict_get_some; eauto.
      * rewrite pending_other by assumption.
        now apply (k_zero G E out m next Hinv v Hv).
    + exact (k_out G E out m next Hinv).
    + rewrite Hk. exact (k_cover G E out m next Hinv).
    + rewrite Hk. exact (k_disjoint G E out m next Hinv).
Qed.
End Kahn.

Lemma nodup_app_disjoint {X : Type} (a b : list X) (x : X) :
  NoDup (a ++ b) -> In x a -> In x b -> False.
Proof.
  induction a as [|y a IH]; simpl; [tauto|].
  intros Hnd [->|Ha] Hb; inversion Hnd; subst.
  - apply H1. apply in_or_app. now right.
  - auto.
Qed.

Lemma nodup_map_pair (x : string) (l : list string) :
  NoDup l -> NoDup (map (pair x) l).
Proof.
  induction l as [|y l IH]; simpl; intros Hnd; [constructor|].
  inversion Hnd; subst. constructor; auto.
  intros H. apply in_map_iff in H as (z & Heq & Hz).
  injection Heq as ->. contradiction.
Qed.

Lemma edges_from_in (G : DiGraph) (gen : list string) (u v : string) :
  In (u, v) (edges_from G gen) <-> In u gen /\ edge G u v.
Proof.
  unfold edges_from, edge. rewrite in_flat_map. split.
  - intros (x & Hx & Hin). apply in_map_iff in Hin as (y & Heq & Hy).
    injection Heq as -> ->. auto.
  - intros [Hu Hv]. exists u. split; auto. now apply in_map.
Qed.

Lemma edges_from_nodup (G : DiGraph) (gen : list string) :
  adj_nodup G -> NoDup gen -> NoDup (edges_from G gen).
Proof.
  intros Hadj. induction gen as [|x gen IH]; intros Hnd; simpl.
  - constructor.
  - inversion Hnd; subst. apply NoDup_app; auto.
    + apply nodup_map_pair, Hadj.
    + intros [u v] Hin1 Hin2.
      apply in_map_iff in Hin1 as (y & Heq & _). injection Heq as -> ->.
      apply edges_from_in in Hin2 as [Hin2 _]. contradiction.
Qed.

Lemma edges_from_snd (G : DiGraph) (gen : list string) :
  map snd (edges_from G gen) = flat_map (succs_of G) gen.
Proof.
  induction gen as [|x gen IH]; simpl; auto.
  rewrite map_app, IH, map_map. simpl. now rewrite map_id.
Qed.

Section KahnLoop.
Variable G : DiGraph.
Hypothesis Hwf : wf_graph G.
Hypothesis Hadj : adj_nodup G.

(** The decrements of a list of fresh edges. *)
Lemma visit_edges_inv out el :
  forall E m next,
    kahn_inv G E out m next ->
    (forall u v, In (u, v) el -> edge G u v) ->
    NoDup (el ++ E) ->
    exists m' next',
      for_each visit_child (map snd el) (m, next) = Ok (m', next') /\
      kahn_inv G (rev el ++ E) out m' next'.
Proof.
  induction el as [|[x c] el IH]; intros E m next Hinv Hedge Hnd;
    cbn [map snd for_each rev app].
  - eauto.
  - simpl in Hnd. inversion Hnd as [|? ? Hnotin Hnd']; subst.
    assert (Hnew : ~ In (x, c) E).
    { intros H. apply Hnotin. apply in_or_app. now right. }
    destruct (visit_child_inv G Hwf Hadj E out m next x c Hinv)
      as (m1 & next1 & Hstep & Hinv1); auto.
    { apply Hedge. now left. }
    rewrite Hstep. simpl.
    destruct (IH ((x, c) :: E) m1 next1 Hinv1) as (m' & next' & Hrun & Hinv').
    { intros u v H. apply Hedge. now right. }
    { apply Permutation_NoDup with ((x, c) :: el ++ E); [|assumption].
      apply Permutation_middle. }
    exists m', next'. split; [assumption|].
    now rewrite <- app_assoc.
Qed.

Lemma visit_nodes_flat gen :
  (forall n, In n gen -> In n (node_names G)) ->
  forall st,
    for_each (visit_node G) gen st
    = for_each visit_child (flat_map (succs_of G) gen) st.
Proof.
  induction gen as [|x gen IH]; intros Hnodes st; simpl; auto.
  rewrite for_each_app. unfold visit_node at 1.
  assert (Hx : In x (node_names G)) by (apply Hnodes; now left).
  assert (Hc : dict_contains (nodes G) x = true).
  { now apply dict_contains_true. }
  rewrite Hc, (graph_successors_ok G Hwf x Hx). simpl.
  destruct (for_each visit_child (succs_of G x) st); simpl; auto.
  apply IH. intros n Hn. apply Hnodes. now right.
Qed.

Lemma head_zero_nodes E yielded zero m n :
  kahn_head G E yielded zero m -> In n zero ->
  In n (node_names G) /\ forall u, In u (preds_of G n) -> In u yielded.
Proof.
  intros Hh Hn. pose proof (h_inv G E yielded zero m Hh) as Hinv.
  assert (Hout : In n (yielded ++ zero)) by (apply in_or_app; now right).
  assert (Hnode : In n (node_names G)).
  { apply (k_cover G E yielded m zero Hinv). now left. }
  split; [assumption|]. intros u Hu.
  pose proof (k_zero G E yielded m zero Hinv n Hnode
                (k_disjoint G E yielded m zero Hinv n Hout)) as Hp.
  destruct (mem_edge u n E) eqn:Em.
  - apply mem_edge_In in Em.
    apply (h_edges G E yielded zero m Hh) in Em. tauto.
  - exfalso. assert (Hin : In u (pending G E n)).
    { unfold pending. apply filter_In. split; auto. now rewrite Em. }
    rewrite Hp in Hin. contradiction.
Qed.

Lemma sorted_app E yielded zero m :
  kahn_head G E yielded zero m -> sorted G (yielded ++ zero).
Proof.
  intros Hh pre v suf Heq u Hu.
  pose proof (h_inv G E yielded zero m Hh) as Hinv.
  pose proof (k_out G E yielded m zero Hinv) as Hnd.
  assert (Hv : In v (yielded ++ zero)).
  { rewrite Heq. apply in_or_app. right. now left. }
  apply in_app_or in Hv as [Hv|Hv].
  - apply in_split in Hv as (a & b & ->).
    rewrite <- app_assoc in Heq. simpl in Heq.
    rewrite <- app_assoc in Hnd. simpl in Hnd.
    destruct (nodup_split_eq _ _ _ _ _ Hnd Heq) as [<- _].
    now apply (h_sorted G E _ zero m Hh a v b).
  - destruct (head_zero_nodes E yielded zero m v Hh Hv) as [_ Hpre].
    apply in_split in Hv as (a & b & ->).
    rewrite app_assoc in Heq. rewrite app_assoc in Hnd.
    destruct (nodup_split_eq _ _ _ _ _ Hnd Heq) as [<- _].
    apply in_or_app. left. now apply Hpre.
Qed.

(** One round of the [while] loop. *)
Lemma generation_inv E yielded zero m :
  kahn_head G E yielded zero m ->
  exists m' next,
    for_each (visit_node G) zero (m, []) = Ok (m', next) /\
    kahn_head G (rev (edges_from G zero) ++ E) (yielded ++ zero) next m'.
Proof.
  intros Hh. pose proof (h_inv G E yielded zero m Hh) as Hinv.
  pose proof (k_out G E yielded m zero Hinv) as Hnd.
  assert (Hzero : NoDup zero) by (apply NoDup_app_remove_l in Hnd; exact Hnd).
  assert (Hstart : kahn_inv G E (yielded ++ zero) m []).
  { destruct Hinv as [H1 H2 H3 H4 H5 H6].
    constructor; try rewrite app_nil_r; assumption. }
  destruct (visit_edges_inv (yielded ++ zero) (edges_from G zero) E m []
              Hstart) as (m' & next & Hrun & Hinv').
  { intros u v H. now apply edges_from_in in H. }
  { apply NoDup_app.
    - now apply edges_from_nodup.
    - apply Hh.
    - intros [u v] H1 H2. apply edges_from_in in H1 as [H1 _].
      apply (h_edges G E yielded zero m Hh) in H2 as [H2 _].
      exact (nodup_app_disjoint _ _ u Hnd H2 H1). }
  exists m', next. split.
  - rewrite visit_nodes_flat, <- edges_from_snd; [assumption|].
    intros n Hn. now apply (head_zero_nodes E yielded zero m n Hh).
  - constructor.
    + exact Hinv'.
    + apply NoDup_app.
      * apply NoDup_rev. now apply edges_from_nodup.
      * apply Hh.
      * intros [u v] H1 H2. apply in_rev, edges_from_in in H1 as [H1 _].
        apply (h_edges G E yielded zero m Hh) in H2 as [H2 _].
        exact (nodup_app_disjoint _ _ u Hnd H2 H1).
    + intros u v. rewrite !in_app_iff, <- in_rev, edges_from_in.
      rewrite (h_edges G E yielded zero m Hh). tauto.
    + now apply (sorted_app E yielded zero m).
Qed.
End KahnLoop.

(** ** Cycles *)

Lemma path_forward (G : DiGraph) (order : list string) (u v : string) :
  topological_order G order -> path G u v ->
  exists l1 l2 l3, order = l1 ++ u :: l2 ++ v :: l3.
Proof.
  intros (Hnd & _ & Hedge) Hp. induction Hp as [u v He|u w v He Hp IH].
  - now apply Hedge.
  - destruct (Hedge u w He) as (a & b & c & Ho).
    destruct IH as (a' & b' & c' & Ho').
    assert (Heq : (a ++ u :: b) ++ w :: c = a' ++ w :: b' ++ v :: c').
    { rewrite <- Ho', Ho, <- app_assoc. reflexivity. }
    rewrite Ho, app_comm_cons, app_assoc in Hnd.
    destruct (nodup_split_eq _ _ _ _ _ Hnd Heq) as [<- ->].
    exists a, (b ++ w :: b'), c'.
    rewrite Ho, <- !app_assoc. reflexivity.
Qed.

Lemma topological_order_acyclic (G : DiGraph) (order : list string) :
  topological_order G order -> acyclic G.
Proof.
  intros Htopo n Hp.
  destruct (path_forward G order n n Htopo Hp) as (l1 & l2 & l3 & Ho).
  destruct Htopo as (Hnd & _). rewrite Ho in Hnd.
  apply NoDup_remove_2 in Hnd. apply Hnd.
  apply in_or_app. right. apply in_or_app. right. now left.
Qed.

Lemma chain_suffix (G : DiGraph) (a l : list string) :
  chain G (a ++ l) -> chain G l.
Proof.
  induction a as [|x a IH]; simpl; auto.
  destruct (a ++ l) as [|y r] eqn:E; [|tauto].
  intros _. destruct a; simpl in E; [subst; exact I | discriminate].
Qed.

Lemma chain_path (G : DiGraph) (b : list string) :
  forall u v c, chain G (u :: b ++ v :: c) -> path G u v.
Proof.
  induction b as [|w b IH]; intros u v c; simpl.
  - intros [He _]. now apply path_edge.
  - intros [He Hc]. apply path_step with w; auto. eapply IH; eauto.
Qed.

(** A list without room for all its elements repeats one. *)
Lemma repeated_element (l : list string) :
  ~ NoDup l -> exists n a b c, l = a ++ n :: b ++ n :: c.
Proof.
  induction l as [|x l IH]; intros Hdup.
  - exfalso. apply Hdup. constructor.
  - destruct (in_dec string_dec x l) as [Hin|Hnot].
    + apply in_split in Hin as (b & c & ->). now exists x, [], b, c.
    + destruct IH as (n & a & b & c & ->).
      * intros Hnd. apply Hdup. now constructor.
      * now exists n, (x :: a), b, c.
Qed.

(** When every node of a non-empty set has a predecessor in the set, the
    graph has a cycle. *)
Lemma closed_set_cycle (G : DiGraph) (S : list string) :
  S <> [] ->
  (forall v, In v S -> exists u, In u S /\ edge G u v) ->
  exists n, path G n n.
Proof.
  intros Hne Hclosed.
  assert (Hwalk : forall k, exists l,
            List.length l = Datatypes.S k /\ chain G l /\ incl l S).
  { induction k as [|k (l & Hlen & Hc & Hincl)].
    - destruct S as [|s S']; [congruence|]. exists [s].
      repeat split. intros x [<-|[]]. now left.
    - destruct l as [|h t]; [discriminate|].
      destruct (Hclosed h (Hincl h (or_introl eq_refl))) as (u & Hu & He).
      exists (u :: h :: t). split; [simpl in *; lia|]. split.
      + simpl. split; [assumption|]. exact Hc.
      + intros x [<-|Hx]; auto. }
  destruct (Hwalk (List.length S)) as (l & Hlen & Hc & Hincl).
  destruct (repeated_element l) as (n & a & b & c & ->).
  { intros Hnd. pose proof (NoDup_incl_length Hnd Hincl). lia. }
  exists n. apply chain_suffix in Hc. eapply chain_path; eauto.
Qed.

(** ** Kahn's algorithm: the first and the last round *)

Lemma dict_get_filter {V : Type} (f : string * V -> bool) (d : dict V)
  (k : string) :
  NoDup (dict_keys d) ->
  dict_get (filter f d) k
  = match dict_get d k with
    | Some v => if f (k, v) then Some v else None
    | None => None
    end.
Proof.
  induction d as [|[k' v'] d IH]; simpl; auto.
  intros Hnd. inversion Hnd; subst.
  destruct (f (k', v')) eqn:Ef; simpl.
  - destruct (String.eqb_spec k' k) as [->|Hne]; [now rewrite Ef | auto].
  - rewrite IH by assumption.
    destruct (String.eqb_spec k' k) as [->|Hne]; [|reflexivity].
    rewrite Ef. apply dict_get_none in H1. now rewrite H1.
Qed.

Lemma dict_keys_filter_nodup {V : Type} (f : string * V -> bool) (d : dict V) :
  NoDup (dict_keys d) -> NoDup (dict_keys (filter f d)).
Proof.
  induction d as [|[k' v'] d IH]; simpl; auto.
  intros Hnd. inversion Hnd; subst.
  destruct (f (k', v')); simpl; auto.
  constructor; auto. intros H. apply H1.
  unfold dict_keys in *. apply in_map_iff in H as (kv & Hk & Hin).
  apply filter_In in Hin as [Hin _]. apply in_map_iff. eauto.
Qed.

Lemma dict_keys_filter_in {V : Type} (f : string * V -> bool) (d : dict V)
  (k : string) :
  NoDup (dict_keys d) ->
  In k (dict_keys (filter f d)) <->
  exists v, dict_get d k = Some v /\ f (k, v) = true.
Proof.
  intros Hnd. split.
  - intros H. apply dict_get_in in H as [v Hv].
    rewrite dict_get_filter in Hv by assumption.
    destruct (dict_get d k) as [w|]; [|discriminate].
    destruct (f (k, w)) eqn:Ef; [|discriminate].
    injection Hv as <-. eauto.
  - intros (v & Hv & Hf). apply dict_get_some with v.
    rewrite dict_get_filter, Hv, Hf; auto.
Qed.

Lemma filter_true {X : Type} (l : list X) : filter (fun _ => true) l = l.
Proof. induction l as [|x l IH]; simpl; congruence. Qed.

Lemma pending_nil (G : DiGraph) (v : string) : pending G [] v = preds_of G v.
Proof. unfold pending. simpl. apply filter_true. Qed.

Section KahnTotal.
Variable G : DiGraph.
Hypothesis Hwf : wf_graph G.
Hypothesis Hadj : adj_nodup G.

Lemma head_start :
  let degrees := in_degree G in
  kahn_head G [] []
    (map fst (filter (fun vd => (snd vd =? 0)%nat) degrees))
    (filter (fun vd => (0 <? snd vd)%nat) degrees).
Proof.
  intros degrees.
  assert (Hkeys : dict_keys degrees = node_names G).
  { unfold degrees, in_degree. rewrite dict_keys_map_values.
    apply (wf_pred_keys G Hwf). }
  assert (Hnd : NoDup (dict_keys degrees)).
  { rewrite Hkeys. apply (wf_nodup G Hwf). }
  assert (Hdeg : forall v, In v (node_names G) ->
            dict_get degrees v = Some (List.length (preds_of G v))).
  { intros v Hv. unfold degrees, in_degree. rewrite dict_get_map_values.
    rewrite <- (wf_pred_keys G Hwf) in Hv. apply dict_get_in in Hv as [l Hl].
    unfold preds_of, dict_get_default. now rewrite Hl. }
  assert (Hnode : forall v d, dict_get degrees v = Some d ->
            In v (node_names G)).
  { intros v d H. rewrite <- Hkeys. eapply dict_get_some; eauto. }
  constructor; [constructor| | |].
  - now apply dict_keys_filter_nodup.
  - intros v d Hv. rewrite dict_get_filter in Hv by assumption.
    destruct (dict_get degrees v) as [d'|] eqn:Ed; [|discriminate].
    simpl in Hv. destruct (Nat.ltb_spec 0 d'); [|discriminate].
    injection Hv as <-. rewrite pending_nil.
    rewrite (Hdeg v (Hnode v d' Ed)) in Ed. injection Ed as <-. auto.
  - intros v Hv Hnot. rewrite pending_nil.
    rewrite dict_keys_filter_in in Hnot by assumption.
    apply length_zero_iff_nil.
    destruct (List.length (preds_of G v)) as [|k] eqn:El; [reflexivity|].
    exfalso. apply Hnot. exists (S k). rewrite (Hdeg v Hv), El. auto.
  - simpl. now apply (dict_keys_filter_nodup _ degrees).
  - intros n. simpl.
    change (map fst (filter (fun vd => (snd vd =? 0)%nat) degrees))
      with (dict_keys (filter (fun vd => (snd vd =? 0)%nat) degrees)).
    rewrite !dict_keys_filter_in by assumption. simpl. split.
    + intros Hn. rewrite (Hdeg n Hn).
      destruct (List.length (preds_of G n)) as [|k]; [left | right]; eauto.
    + intros [(d & Hd & _)|(d & Hd & _)]; eauto.
  - intros n. simpl.
    change (map fst (filter (fun vd => (snd vd =? 0)%nat) degrees))
      with (dict_keys (filter (fun vd => (snd vd =? 0)%nat) degrees)).
    rewrite !dict_keys_filter_in by assumption. simpl.
    intros (d & Hd & Hz) (d' & Hd' & Hpos).
    rewrite Hd in Hd'. injection Hd' as <-.
    apply Nat.eqb_eq in Hz. subst d. discriminate.
  - constructor.
  - intros u v. simpl. tauto.
  - intros pre v suf Heq. destruct pre; discriminate.
Qed.

(** With nothing left to yield, the list yielded is a topological order. *)
Lemma head_final E yielded :
  kahn_head G E yielded [] [] -> topological_order G yielded.
Proof.
  intros Hh. pose proof (h_inv G E yielded [] [] Hh) as Hinv.
  assert (Hnodes : forall n, In n yielded <-> In n (node_names G)).
  { intros n. rewrite (k_cover G E yielded [] [] Hinv n).
    rewrite app_nil_r. simpl. tauto. }
  repeat split.
  - pose proof (k_out G E yielded [] [] Hinv) as H.
    now rewrite app_nil_r in H.
  - apply Hnodes.
  - apply Hnodes.
  - intros u v He.
    destruct (edge_nodes G Hwf u v He) as [_ Hv].
    apply Hnodes, in_split in Hv as (pre & suf & Heq).
    apply (wf_sym G Hwf) in He.
    pose proof (h_sorted G E yielded [] [] Hh pre v suf Heq u He) as Hu.
    apply in_split in Hu as (l1 & l2 & ->).
    exists l1, l2, suf. rewrite Heq, <- app_assoc. reflexivity.
Qed.

(** With no generation left but degrees left, the nodes left lie on or
    behind a cycle. *)
Lemma head_stuck E yielded item m :
  kahn_head G E yielded [] (item :: m) -> exists n, path G n n.
Proof.
  intros Hh. pose proof (h_inv G E yielded [] (item :: m) Hh) as Hinv.
  apply (closed_set_cycle G (dict_keys (item :: m))); [discriminate|].
  intros v Hv. apply dict_get_in in Hv as [d Hd].
  destruct (k_count G E yielded (item :: m) [] Hinv v d Hd) as [Hcount Hpos].
  destruct (pending G E v) as [|u l] eqn:Ep; [simpl in Hcount; lia|].
  assert (Hu : In u (pending G E v)) by (rewrite Ep; now left).
  apply filter_In in Hu as [Hu Hmem]. apply negb_true_iff in Hmem.
  assert (He : edge G u v) by now apply (wf_sym G Hwf).
  exists u. split; [|assumption].
  destruct (edge_nodes G Hwf u v He) as [Hnode _].
  apply (k_cover G E yielded (item :: m) [] Hinv) in Hnode as [Hy|Hm];
    [|assumption].
  exfalso. rewrite app_nil_r in Hy.
  assert (HE : In (u, v) E).
  { apply (h_edges G E yielded [] (item :: m) Hh). auto. }
  apply mem_edge_In in HE. congruence.
Qed.

(** The [while] loop ends, either with a topological order or, when the
    graph has a cycle, with [NetworkXUnfeasible]. *)
Lemma generations_total fuel :
  forall E yielded zero m,
    kahn_head G E yielded zero m ->
    (List.length (node_names G) <= fuel + List.length yielded)%nat ->
    (exists order, generations fuel G m zero yielded = Ok order /\
                   topological_order G order) \/
    (generations fuel G m zero yielded = Raise NetworkXUnfeasible /\
     exists n, path G n n).
Proof.
  induction fuel as [|fuel IH]; intros E yielded zero m Hh Hfuel.
  - destruct zero as [|z zero].
    + destruct m as [|item m]; simpl.
      * left. exists yielded. split; [reflexivity|]. now apply (head_final E).
      * right. split; [reflexivity|].
        now apply (head_stuck E yielded item m).
    + exfalso. pose proof (h_inv G E yielded (z :: zero) m Hh) as Hinv.
      assert (Hlen : (List.length (yielded ++ z :: zero)
                      <= List.length (node_names G))%nat).
      { apply NoDup_incl_length; [apply (k_out G E yielded m _ Hinv)|].
        intros n Hn. apply (k_cover G E yielded m _ Hinv). now left. }
      rewrite length_app in Hlen. simpl in Hlen. lia.
  - destruct zero as [|z zero].
    + destruct m as [|item m]; simpl.
      * left. exists yielded. split; [reflexivity|]. now apply (head_final E).
      * right. split; [reflexivity|].
        now apply (head_stuck E yielded item m).
    + destruct (generation_inv G Hwf Hadj E yielded (z :: zero) m Hh)
        as (m' & next & Hrun & Hh').
      cbn [generations]. rewrite Hrun. cbn [bind].
      apply (IH _ _ _ _ Hh').
      rewrite length_app. simpl. lia.
Qed.

(** [nx.topological_sort] on a well-formed graph. *)
Lemma topological_sort_total :
  (exists order, topological_sort G = Ok order /\ topological_order G order) \/
  (topological_sort G = Raise NetworkXUnfeasible /\ exists n, path G n n).
Proof.
  unfold topological_sort. apply (generations_total _ []).
  - apply head_start.
  - unfold in_degree. rewrite length_map, <- (wf_pred_keys G Hwf).
    unfold dict_keys. rewrite length_map. simpl. lia.
Qed.

Lemma topological_sort_sound order :
  topological_sort G = Ok order -> topological_order G order.
Proof.
  intros H. destruct topological_sort_total as [(o & Ho & Ht)|[Hr _]];
    congruence.
Qed.

(** On an acyclic graph the sort succeeds. *)
Lemma topological_sort_acyclic :
  acyclic G ->
  exists order, topological_sort G = Ok order /\ topological_order G order.
Proof.
  intros Hac. destruct topological_sort_total as [H|[_ (n & Hn)]]; auto.
  now destruct (Hac n).
Qed.
End KahnTotal.

(** ** The example of the specification: A; B after A; C after A *)

Lemma three_order_sorted :
  topological_sort three_graph = Ok three_order.
Proof. vm_compute. reflexivity. Qed.

Lemma three_order_topological : topological_order three_graph three_order.
Proof.
  apply topological_sort_sound;
    [apply graph_of_wf | apply graph_of_adj_nodup | apply three_order_sorted].
Qed.

(** ** Claims about the timing engine *)

(** The loops of the CPM section walk an order of the nodes.  The claims
    are proved for every topological order, hence for the one
    [nx.topological_sort] yields; it yields one exactly when the graph has
    no cycle ([topological_sort_acyclic], [topological_order_acyclic]). *)

Lemma dict_get_value_at d n v :
  dict_get d n = Some v -> dict_get d n = Some (value_at d n).
Proof. intros H. now rewrite (value_at_get _ _ _ H). Qed.

Lemma empty_order (G : DiGraph) (order : list string) :
  topological_order G order -> node_names G = [] -> order = [].
Proof.
  intros (_ & Hn & _) He. destruct order as [|x l]; [reflexivity|].
  exfalso. rewrite He in Hn. apply (Hn x). now left.
Qed.




(** C3, as stated, fails: with a negative duration the project finish
    (5, the earliest finish of A) is the earliest finish of no node without
    successors (B, the only one, finishes at 4). *)
Lemma sink_finish_counterexample :
  wf_graph negative_graph /\
  topological_sort negative_graph = Ok ["A"; "B"] /\
  topological_order negative_graph ["A"; "B"] /\
  exists t,
    cpm negative_graph ["A"; "B"] = Ok t /\
    ~ exists n, In n (node_names negative_graph) /\
                out_degree negative_graph n = 0%nat /\
                value_at (earliest_finish t) n == total_project_duration t.
Proof.
  split; [apply graph_of_wf|].
  split; [vm_compute; reflexivity|].
  split.
  { apply topological_sort_sound;
      [apply graph_of_wf | apply graph_of_adj_nodup | vm_compute; reflexivity]. }
  eexists. split; [vm_compute; reflexivity|].
  intros (n & Hn & Hout & Heq).
  vm_compute in Hn. destruct Hn as [<-|[<-|[]]].
  - vm_compute in Hout. discriminate.
  - vm_compute in Heq. discriminate.
Qed.

(** C3, amended.  On every non-empty directed acyclic graph the CPM section
    runs to its end; ES of a node is the largest EF of its predecessors (0
    when it has none), EF is ES plus the duration, the tables being filled
    in the topological order; the total duration is the largest EF and the
    EF of some node; and when no duration is negative it is the EF of some
    node of out-degree 0. *)
Theorem forward_pass_correct (G : DiGraph) (order : list string) :
  wf_graph G -> topological_order G order -> node_names G <> [] ->
  exists t,
    cpm G order = Ok t /\
    dict_keys (earliest_start t) = order /\
    dict_keys (earliest_finish t) = order /\
    (forall n, In n (node_names G) ->
       exists es ef,
         dict_get (earliest_start t) n = Some es /\
         dict_get (earliest_finish t) n = Some ef /\
         is_max_or 0 (map (value_at (earliest_finish t)) (preds_of G n)) es /\
         ef = es + duration_of G n) /\
    (forall n, In n (node_names G) ->
       value_at (earliest_finish t) n <= total_project_duration t) /\
    (exists n, In n (node_names G) /\
       dict_get (earliest_finish t) n = Some (total_project_duration t)) /\
    ((forall n, In n (node_names G) -> 0 <= duration_of G n) ->
     exists n, In n (node_names G) /\ out_degree G n = 0%nat /\
       value_at (earliest_finish t) n == total_project_duration t).
Proof.
  intros Hwf Htopo Hne.
  destruct (cpm_spec G order Hwf Htopo Hne) as (t & Hcpm & Hok).
  exists t. split; [assumption|].
  destruct (ok_total_attained G order t Hok) as (n0 & Hn0).
  assert (Hn0_order : In n0 order).
  { destruct (ok_forward_keys G order t Hok) as [_ <-].
    eapply dict_get_some; eauto. }
  assert (Hn0_node : In n0 (node_names G)).
  { now apply (order_nodes G order Htopo). }
  split; [apply Hok|]. split; [apply Hok|]. split; [|split; [|split]].
  - intros n Hn.
    exists (value_at (earliest_start t) n), (value_at (earliest_finish t) n).
    split; [|split; [|split]].
    + eapply dict_get_value_at, (ok_es G order t Hok); eauto.
    + eapply dict_get_value_at, (ok_ef G order t Hok); eauto.
    + rewrite (ES_eq G order t Hok n Hn). apply py_max_spec.
    + now apply (EF_eq G order t Hok).
  - apply Hok.
  - now exists n0.
  - intros Hpos.
    apply (sink_suffix G Hwf order Htopo t Hok order Hpos [] eq_refl n0);
      [assumption|].
    rewrite (value_at_get _ _ _ Hn0). reflexivity.
Qed.

Lemma forward_pass_correct_witness :
  exists t,
    cpm three_graph three_order = Ok t /\
    dict_keys (earliest_start t) = three_order /\
    dict_keys (earliest_finish t) = three_order /\
    (forall n, In n (node_names three_graph) ->
       exists es ef,
         dict_get (earliest_start t) n = Some es /\
         dict_get (earliest_finish t) n = Some ef /\
         is_max_or 0
           (map (value_at (earliest_finish t)) (preds_of three_graph n)) es /\
         ef = es + duration_of three_graph n) /\
    (forall n, In n (node_names three_graph) ->
       value_at (earliest_finish t) n <= total_project_duration t) /\
    (exists n, In n (node_names three_graph) /\
       dict_get (earliest_finish t) n = Some (total_project_duration t)) /\
    ((forall n, In n (node_names three_graph) ->
        0 <= duration_of three_graph n) ->
     exists n, In n (node_names three_graph) /\
       out_degree three_graph n = 0%nat /\
       value_at (earliest_finish t) n == total_project_duration t).
Proof.
  apply (forward_pass_correct three_graph three_order).
  - apply graph_of_wf.
  - apply three_order_topological.
  - vm_compute. discriminate.
Defined.

(** C4.  On every non-empty directed acyclic graph the CPM section runs to
    its end; LF of a node is the smallest LS of its successors, or the total
    duration when it has none, and LS is LF minus the duration, the tables
    being filled in the reverse of the topological order; so every node of
    out-degree 0 has LF equal to the total duration. *)
Theorem backward_pass_correct (G : DiGraph) (order : list string) :
  wf_graph G -> topological_order G order -> node_names G <> [] ->
  exists t,
    cpm G order = Ok t /\
    dict_keys (latest_finish t) = rev order /\
    dict_keys (latest_start t) = rev order /\
    (forall n, In n (node_names G) ->
       exists lf ls,
         dict_get (latest_finish t) n = Some lf /\
         dict_get (latest_start t) n = Some ls /\
         is_min_or (total_project_duration t)
           (map (value_at (latest_start t)) (succs_of G n)) lf /\
         ls = lf - duration_of G n) /\
    (forall n, In n (node_names G) -> out_degree G n = 0%nat ->
       dict_get (latest_finish t) n = Some (total_project_duration t)).
Proof.
  intros Hwf Htopo Hne.
  destruct (cpm_spec G order Hwf Htopo Hne) as (t & Hcpm & Hok).
  exists t. split; [assumption|].
  split; [apply Hok|]. split; [apply Hok|]. split.
  - intros n Hn.
    exists (value_at (latest_finish t) n), (value_at (latest_start t) n).
    split; [|split; [|split]].
    + eapply dict_get_value_at, (ok_lf G order t Hok); eauto.
    + eapply dict_get_value_at, (ok_ls G order t Hok); eauto.
    + rewrite (LF_eq G order t Hok n Hn). apply py_min_spec.
    + now apply (LS_eq G order t Hok).
  - intros n Hn Hout. rewrite (ok_lf G order t Hok n Hn).
    unfold out_degree in Hout. apply length_zero_iff_nil in Hout.
    rewrite Hout. reflexivity.
Qed.

Lemma backward_pass_correct_witness :
  exists t,
    cpm three_graph three_order = Ok t /\
    dict_keys (latest_finish t) = rev three_order /\
    dict_keys (latest_start t) = rev three_order /\
    (forall n, In n (node_names three_graph) ->
       exists lf ls,
         dict_get (latest_finish t) n = Some lf /\
         dict_get (latest_start t) n = Some ls /\
         is_min_or (total_project_duration t)
           (map (value_at (latest_start t)) (succs_of three_graph n)) lf /\
         ls = lf - duration_of three_graph n) /\
    (forall n, In n (node_names three_graph) ->
       out_degree three_graph n = 0%nat ->
       dict_get (latest_finish t) n = Some (total_project_duration t)).
Proof.
  apply (backward_pass_correct three_graph three_order).
  - apply graph_of_wf.
  - apply three_order_topological.
  - vm_compute. discriminate.
Defined.

(** C5, as stated, fails: the slack of C is 1e-10, which is zero within
    the tolerance 1e-9, and C is not on the critical path. *)
Lemma critical_tolerance_counterexample :
  wf_graph near_graph /\
  topological_sort near_graph = Ok ["A"; "B"; "C"] /\
  topological_order near_graph ["A"; "B"; "C"] /\
  exists t,
    cpm near_graph ["A"; "B"; "C"] = Ok t /\
    In "C" (node_names near_graph) /\
    Qabs (slack t "C") <= epsilon /\
    Qabs (value_at (latest_start t) "C" - value_at (earliest_start t) "C")
    <= epsilon /\
    ~ In "C" (critical_path t) /\
    dict_get (critical_activities t) "C" = Some false.
Proof.
  split; [apply graph_of_wf|].
  split; [vm_compute; reflexivity|].
  split.
  { apply topological_sort_sound;
      [apply graph_of_wf | apply graph_of_adj_nodup | vm_compute; reflexivity]. }
  eexists. split; [vm_compute; reflexivity|].
  split; [vm_compute; tauto|].
  split; [vm_compute; discriminate|].
  split; [vm_compute; discriminate|].
  split; [|vm_compute; reflexivity].
  vm_compute. intros [H|[H|[]]]; discriminate.
Qed.

(** C5, amended.  On every non-empty directed acyclic graph a node is put
    on the critical path if and only if its earliest start and its latest
    start are equal, as line 84 compares them; no tolerance is applied.
    Line 85 flags exactly these nodes. *)
Theorem critical_iff_equal_starts (G : DiGraph) (order : list string) :
  wf_graph G -> topological_order G order -> node_names G <> [] ->
  exists t,
    cpm G order = Ok t /\
    forall n, In n (node_names G) ->
      (In n (critical_path t) <->
       value_at (earliest_start t) n == value_at (latest_start t) n) /\
      (In n (critical_path t) <->
       dict_get (critical_activities t) n = Some true).
Proof.
  intros Hwf Htopo Hne.
  destruct (cpm_spec G order Hwf Htopo Hne) as (t & Hcpm & Hok).
  exists t. split; [assumption|]. intros n Hn. split.
  - rewrite (ok_critical_path G order t Hok), filter_In.
    unfold is_critical. rewrite Qeq_bool_iff. tauto.
  - rewrite (ok_critical_activities G order t Hok n Hn).
    fold (mem n (critical_path t)). rewrite <- mem_In.
    split; [now intros -> | congruence].
Qed.

Lemma critical_iff_equal_starts_witness :
  exists t,
    cpm three_graph three_order = Ok t /\
    forall n, In n (node_names three_graph) ->
      (In n (critical_path t) <->
       value_at (earliest_start t) n == value_at (latest_start t) n) /\
      (In n (critical_path t) <->
       dict_get (critical_activities t) n = Some true).
Proof.
  apply (critical_iff_equal_starts three_graph three_order).
  - apply graph_of_wf.
  - apply three_order_topological.
  - vm_compute. discriminate.
Defined.

(** ** Predecessors that are not activities *)

(** C7, as stated, fails: the graph is built without an error, X is a node
    of it, and the timing loops schedule B after X. *)
Lemma missing_predecessor_counterexample :
  let activities := load dangling_activities in
  let G := graph_of activities in
  (exists a, dict_get activities "B" = Some a /\
             predecessors (data a) = ["X"]) /\
  dict_get activities "X" = None /\
  node_names G = ["B"; "X"] /\
  edge G "X" "B" /\
  topological_sort G = Ok ["X"; "B"] /\
  exists t,
    cpm G ["X"; "B"] = Ok t /\
    earliest_start t = [("X", 0); ("B", 0)] /\
    critical_path t = ["B"; "X"].
Proof.
  cbv zeta. split; [eexists; split; vm_compute; reflexivity|].
  split; [vm_compute; reflexivity|].
  split; [vm_compute; reflexivity|].
  split; [vm_compute; tauto|].
  split; [vm_compute; reflexivity|].
  eexists. split; [vm_compute; reflexivity|].
  split; vm_compute; reflexivity.
Qed.

(** C7, amended.  When an activity lists a predecessor name that matches no
    activity, building the graph raises nothing: the name becomes a node of
    the graph, with an edge to the activity, no predecessor of its own, and
    duration, variance and standard deviation 0; the graph is one the
    timing loops accept, and they give the node earliest start 0 and
    earliest finish 0. *)
Theorem missing_predecessor_is_zero_node (activities : dict activity)
  (name p : string) (a : activity) :
  In (name, a) activities -> In p (predecessors (data a)) ->
  ~ In p (dict_keys activities) ->
  let G := graph_of activities in
  wf_graph G /\
  In p (node_names G) /\ edge G p name /\ preds_of G p = [] /\
  dict_get (nodes G) p = Some zero_attrs /\ duration_of G p = 0 /\
  forall order, topological_order G order ->
    exists t, cpm G order = Ok t /\
      dict_get (earliest_start t) p = Some 0 /\
      dict_get (earliest_finish t) p = Some (0 + 0).
Proof.
  intros Hin Hp Hmissing G.
  pose proof (graph_of_wf activities) as Hwf. fold G in Hwf.
  destruct (build_graph_built activities) as (Hinv & Hattrs & Hpreds).
  assert (He : edge G p name).
  { unfold G, graph_of, edge, succs_of. simpl.
    apply (build_from_edge activities empty_graph name p a);
      auto using empty_graph_inv. }
  assert (Hnode : In p (node_names G)) by apply (edge_nodes G Hwf p name He).
  assert (Hattr : dict_get (nodes G) p = Some zero_attrs).
  { unfold G, graph_of, set_defaults. simpl. rewrite dict_get_map_values.
    unfold G, graph_of, set_defaults, node_names in Hnode. simpl in Hnode.
    rewrite dict_keys_map_values in Hnode.
    apply dict_get_in in Hnode as [a0 Ha0]. rewrite Ha0. simpl.
    destruct (Hattrs p a0 Ha0) as [->|Hc]; [reflexivity | contradiction]. }
  assert (Hroot : preds_of G p = []).
  { destruct (preds_of G p) as [|u l] eqn:E; [reflexivity|].
    exfalso. apply Hmissing. apply (Hpreds u p).
    change (preds_of (build_graph activities) p) with (preds_of G p).
    rewrite E. now left. }
  assert (Hdur : duration_of G p = 0).
  { unfold duration_of. rewrite Hattr. reflexivity. }
  repeat (split; [assumption|]).
  intros order Htopo.
  assert (Hne : node_names G <> []).
  { intros Hnil. rewrite Hnil in Hnode. contradiction. }
  destruct (cpm_spec G order Hwf Htopo Hne) as (t & Hcpm & Hok).
  exists t. split; [assumption|].
  pose proof (ok_es G order t Hok p Hnode) as Hes.
  rewrite Hroot in Hes. simpl in Hes.
  pose proof (ok_ef G order t Hok p Hnode) as Hef.
  rewrite (value_at_get _ _ _ Hes), Hdur in Hef. auto.
Qed.

Lemma missing_predecessor_is_zero_node_witness :
  let activities := load dangling_activities in
  let G := graph_of activities in
  wf_graph G /\
  In "X" (node_names G) /\ edge G "X" "B" /\ preds_of G "X" = [] /\
  dict_get (nodes G) "X" = Some zero_attrs /\ duration_of G "X" = 0 /\
  forall order, topological_order G order ->
    exists t, cpm G order = Ok t /\
      dict_get (earliest_start t) "X" = Some 0 /\
      dict_get (earliest_finish t) "X" = Some (0 + 0).
Proof.
  apply (missing_predecessor_is_zero_node (load dangling_activities)
           "B" "X" (derive (mk_estimate 1 1 1 ["X"]))).
  - vm_compute. now left.
  - vm_compute. now left.
  - vm_compute. intros [H|[]]. discriminate.
Defined.

(** ** Ingestion *)

Lemma read_row_set (activities : dict estimate) (r : row) :
  read_row activities r = dict_set activities (name_of r) (estimate_of r).
Proof. reflexivity. Qed.

Lemma read_rows_nodup (df : list row) (activities : dict estimate) :
  NoDup (dict_keys activities) ->
  NoDup (dict_keys (fold_left read_row df activities)).
Proof.
  revert activities. induction df as [|r df IH]; intros acc Hnd; simpl; auto.
  apply IH. rewrite read_row_set. now apply dict_keys_set_nodup.
Qed.

(** Rows of other names leave the entry of a name alone. *)
Lemma read_rows_other (df : list row) (activities : dict estimate)
  (k : string) :
  (forall r, In r df -> name_of r <> k) ->
  dict_get (fold_left read_row df activities) k = dict_get activities k.
Proof.
  revert activities. induction df as [|r df IH]; intros acc Hne; simpl; auto.
  rewrite IH by (intros r' Hr'; apply Hne; now right).
  rewrite read_row_set. apply dict_get_set_other. apply Hne. now left.
Qed.

(** Every name read so far stays in the store. *)
Lemma read_rows_keys (df : list row) (activities : dict estimate)
  (k : string) :
  In k (dict_keys activities) \/ (exists r, In r df /\ name_of r = k) ->
  In k (dict_keys (fold_left read_row df activities)).
Proof.
  revert activities. induction df as [|r df IH]; intros acc H; simpl.
  - destruct H as [H|(r & [] & _)]. assumption.
  - apply IH. rewrite read_row_set, dict_keys_set_iff.
    destruct H as [H|(r' & [<-|Hr'] & Hk)]; eauto.
Qed.

(** The last row of a name is the one stored. *)
Lemma read_last_wins (before after : list row) (r : row) :
  (forall r', In r' after -> name_of r' <> name_of r) ->
  dict_get (read_activity_data (before ++ r :: after)) (name_of r)
  = Some (estimate_of r).
Proof.
  intros Hlast. unfold read_activity_data.
  rewrite fold_left_app. simpl.
  rewrite read_rows_other by assumption.
  rewrite read_row_set. apply dict_get_set_same.
Qed.






(** C10.  When two records have the same stripped name and no record after
    them has it, ingestion (which raises nothing) stores under that name
    exactly the estimates and the predecessor list of the later record, and
    the name has one entry only. *)
Theorem duplicate_name_keeps_later (d1 d2 d3 : list row) (r1 r2 : row) :
  strip (Activity r1) = strip (Activity r2) ->
  (forall r, In r d3 -> strip (Activity r) <> strip (Activity r2)) ->
  let store := read_activity_data (d1 ++ r1 :: d2 ++ r2 :: d3) in
  dict_get store (strip (Activity r2))
  = Some {| optimistic := A r2;
            most_likely := M r2;
            pessimistic := B r2;
            predecessors := parse_predecessors (Precedent r2) |} /\
  NoDup (dict_keys store) /\
  count_occ string_dec (dict_keys store) (strip (Activity r2)) = 1%nat.
Proof.
  intros Hsame Hlast store.
  assert (Hget : dict_get store (name_of r2) = Some (estimate_of r2)).
  { unfold store.
    replace (d1 ++ r1 :: d2 ++ r2 :: d3) with ((d1 ++ r1 :: d2) ++ r2 :: d3)
      by (rewrite <- app_assoc; reflexivity).
    now apply read_last_wins. }
  assert (Hnd : NoDup (dict_keys store)).
  { apply read_rows_nodup. constructor. }
  split; [exact Hget|]. split; [exact Hnd|].
  apply NoDup_count_occ'; [assumption|].
  eapply dict_get_some; eauto.
Qed.

Lemma duplicate_name_keeps_later_witness :
  let store := read_activity_data duplicate_activities in
  dict_get store "A"
  = Some {| optimistic := 4; most_likely := 5; pessimistic := 6;
            predecessors := ["B"] |} /\
  NoDup (dict_keys store) /\
  count_occ string_dec (dict_keys store) "A" = 1%nat.
Proof.
  apply (duplicate_name_keeps_later [] [] [mk_row "B" NaN 1 1 1]
           (mk_row "A" NaN 1 2 3) (mk_row " A " (Text "B") 4 5 6)).
  - vm_compute. reflexivity.
  - intros r [<-|[]]. vm_compute. discriminate.
Defined.

(** ** The PERT section *)

Lemma pert_table_raises (activities : dict activity) (t : timing) :
  activities <> [] ->
  pert_table_data activities t = Raise (NameError "total_standard_deviation").
Proof.
  destruct activities as [|[name a] l]; [congruence|]. reflexivity.
Qed.

(** The script never reaches its end: without activities line 88 has no
    largest earliest finish, and with activities line 121 reads a name that
    was never assigned, unless an earlier line has raised already. *)
Lemma script_never_completes (df : list row) (names : list string) :
  exists e, script_on df names = Raise e.
Proof.
  unfold script_on. destruct (load df) as [|item l] eqn:E.
  - exists ValueError. reflexivity.
  - destruct (topological_sort (graph_of (item :: l))) as [order|e];
      simpl; [|eauto].
    destruct (cpm (graph_of (item :: l)) order) as [t|e]; simpl; [|eauto].
    destruct (cpm_table_data (graph_of (item :: l)) (item :: l) t)
      as [rows|e]; simpl; [|eauto].
    rewrite pert_table_raises by discriminate. simpl. eauto.
Qed.

(** C1 on the code: with the single activity A the critical path is A and
    its variance is 0, and the script raises [NameError] at line 121
    instead of reporting z-score 0 and probability 0. *)
Theorem degenerate_pert_raises :
  let G := graph_of (load single_activity) in
  (exists t, cpm G ["A"] = Ok t /\ critical_path t = ["A"] /\
             critical_variance G t == 0) /\
  topological_sort G = Ok ["A"] /\
  script single_activity = Raise (NameError "total_standard_deviation").
Proof.
  cbv zeta. split; [|split; vm_compute; reflexivity].
  eexists. split; [vm_compute; reflexivity|].
  split; vm_compute; reflexivity.
Qed.

(** C6 on the code: with the three activities of the specification the
    critical path is A, B and its variance is positive, and the script
    raises [NameError] at line 121 instead of reporting z-scores and
    probabilities. *)
Theorem pert_raises_name_error :
  (exists t, cpm three_graph three_order = Ok t /\
             critical_path t = ["A"; "B"] /\
             0 < critical_variance three_graph t) /\
  script three_activities = Raise (NameError "total_standard_deviation").
Proof.
  split; [|vm_compute; reflexivity].
  eexists. split; [vm_compute; reflexivity|].
  split; vm_compute; reflexivity.
Qed.

(** C9 on the code: the subset statistics of lines 145-156 are never
    reached.  With the three activities of the specification, whatever
    names the caller chooses, the script raises [NameError] at line 121,
    before line 145 collects the first expected time: no variance and no
    standard deviation of a subset is returned. *)
Theorem subset_statistics_not_reached (names : list string) :
  script_on three_activities names
  = Raise (NameError "total_standard_deviation").
Proof. vm_compute. reflexivity. Qed.

(** ** The script up to the CPM section *)

Lemma add_node_in (G : DiGraph) (n : string) (d v : Q) (s : number) :
  graph_inv G -> In n (node_names (add_node G n d v s)).
Proof.
  intros Hinv. unfold node_names, add_node. simpl.
  apply dict_keys_set_iff. now left.
Qed.

Lemma add_edge_keeps (G : DiGraph) (u v n : string) :
  graph_inv G -> In n (node_names G) -> In n (node_names (add_edge G u v)).
Proof.
  intros Hinv Hn. rewrite add_edge_names by assumption.
  apply touch_keeps; [now apply touch_inv | now apply touch_keeps].
Qed.

Lemma add_edges_keeps (name : string) (ps : list string) (G : DiGraph)
  (n : string) :
  graph_inv G -> In n (node_names G) ->
  In n (node_names (fold_left (fun g p => add_edge g p name) ps G)).
Proof.
  revert G. induction ps as [|p ps IH]; intros G Hinv Hn; simpl; auto.
  apply IH; [now apply add_edge_inv | now apply add_edge_keeps].
Qed.

Lemma add_activity_keeps (G : DiGraph) (item : string * activity)
  (n : string) :
  graph_inv G -> In n (node_names G) \/ n = fst item ->
  In n (node_names (add_activity G item)).
Proof.
  intros Hinv Hn. destruct item as [name a]. unfold add_activity.
  apply add_edges_keeps; [now apply add_node_inv|].
  destruct Hn as [Hn| ->]; [|now apply add_node_in].
  unfold node_names, add_node. simpl. apply dict_keys_set_iff. right.
  now apply touch_keeps.
Qed.

Lemma build_from_keeps (activities : dict activity) (G : DiGraph)
  (n : string) :
  graph_inv G -> In n (node_names G) \/ In n (dict_keys activities) ->
  In n (node_names (fold_left add_activity activities G)).
Proof.
  revert G. induction activities as [|item l IH]; intros G Hinv Hn; simpl.
  - destruct Hn as [Hn|[]]. assumption.
  - apply IH; [now apply add_activity_inv|].
    destruct Hn as [Hn|[Hn|Hn]]; auto.
    + left. apply add_activity_keeps; auto.
    + left. apply add_activity_keeps; auto.
Qed.

(** Every activity is a node of the graph. *)
Lemma graph_of_nodes (activities : dict activity) (n : string) :
  In n (dict_keys activities) -> In n (node_names (graph_of activities)).
Proof.
  intros Hn. unfold graph_of, node_names, set_defaults. simpl.
  rewrite dict_keys_map_values.
  apply build_from_keeps; [apply empty_graph_inv | now right].
Qed.

(** On every non-empty input, either the script gets a topological order
    from [nx.topological_sort] and its CPM section runs to its end on it,
    or the precedence graph has a cycle and the script ends with
    [NetworkXUnfeasible]. *)
Lemma script_cpm_section (df : list row) :
  df <> [] ->
  let G := graph_of (load df) in
  (exists order t,
     topological_sort G = Ok order /\ topological_order G order /\
     cpm G order = Ok t /\ timing_ok G order t) \/
  (topological_sort G = Raise NetworkXUnfeasible /\ exists n, path G n n).
Proof.
  intros Hdf G.
  assert (Hne : node_names G <> []).
  { destruct df as [|r df]; [congruence|].
    assert (Hr : In (name_of r) (dict_keys (load (r :: df)))).
    { unfold load, derive_all. rewrite dict_keys_map_values.
      apply read_rows_keys. right. exists r. split; [now left | reflexivity]. }
    apply graph_of_nodes in Hr. fold G in Hr.
    intros Hnil. rewrite Hnil in Hr. contradiction. }
  pose proof (graph_of_wf (load df)) as Hwf. fold G in Hwf.
  pose proof (graph_of_adj_nodup (load df)) as Hadj. fold G in Hadj.
  destruct (topological_sort_total G Hwf Hadj) as [(order & Hs & Ht)|Hcyc].
  - left. destruct (cpm_spec G order Hwf Ht Hne) as (t & Hcpm & Hok).
    exists order, t. auto.
  - right. exact Hcyc.
Qed.

(** ** The script as a whole *)

Lemma touch_names (G : DiGraph) (n m : string) :
  graph_inv G -> In m (node_names (touch G n)) ->
  In m (node_names G) \/ m = n.
Proof.
  intros Hinv.
  destruct (touch_cases G n Hinv) as [[_ ->]|(_ & -> & _)]; [auto|].
  rewrite in_app_iff. simpl. intuition.
Qed.

Lemma add_node_names (G : DiGraph) (n m : string) (d v : Q) (s : number) :
  graph_inv G -> In m (node_names (add_node G n d v s)) ->
  In m (node_names G) \/ m = n.
Proof.
  intros Hinv. unfold node_names at 1, add_node. simpl.
  rewrite dict_keys_set_iff. intros [->|H]; [auto|].
  now apply touch_names.
Qed.

Lemma add_edges_names (name : string) (ps : list string) (G : DiGraph)
  (m : string) :
  graph_inv G ->
  In m (node_names (fold_left (fun g p => add_edge g p name) ps G)) ->
  In m (node_names G) \/ m = name \/ In m ps.
Proof.
  revert G. induction ps as [|p ps IH]; intros G Hinv Hm; simpl in *; auto.
  apply IH in Hm; [|now apply add_edge_inv].
  destruct Hm as [Hm|[Hm|Hm]]; auto.
  rewrite add_edge_names in Hm by assumption.
  apply touch_names in Hm; [|now apply touch_inv].
  destruct Hm as [Hm|Hm]; [|auto].
  apply touch_names in Hm; [|assumption].
  destruct Hm as [Hm|Hm]; auto.
Qed.

(** A node of the graph is an activity or a predecessor an activity
    lists. *)
Lemma build_from_names (activities : dict activity) (G : DiGraph)
  (m : string) :
  graph_inv G ->
  In m (node_names (fold_left add_activity activities G)) ->
  In m (node_names G) \/ In m (dict_keys activities) \/
  exists name a, In (name, a) activities /\ In m (predecessors (data a)).
Proof.
  revert G. induction activities as [|[name a] l IH]; intros G Hinv Hm;
    simpl in *; auto.
  apply IH in Hm; [|now apply (add_activity_inv G (name, a))].
  destruct Hm as [Hm|[Hm|(name' & a' & Hin & Hp)]].
  - unfold add_activity in Hm.
    apply add_edges_names in Hm; [|now apply add_node_inv].
    destruct Hm as [Hm|[->|Hm]]; auto.
    + apply add_node_names in Hm; [|assumption].
      destruct Hm as [Hm|Hm]; auto.
    + right. right. exists name, a. auto.
  - auto.
  - right. right. exists name', a'. auto.
Qed.

Lemma graph_of_names (activities : dict activity) (m : string) :
  In m (node_names (graph_of activities)) ->
  In m (dict_keys activities) \/
  exists name a, In (name, a) activities /\ In m (predecessors (data a)).
Proof.
  unfold graph_of, node_names, set_defaults. simpl.
  rewrite dict_keys_map_values. intros Hm.
  apply (build_from_names activities empty_graph) in Hm as [[]|Hm];
    [assumption | apply empty_graph_inv].
Qed.

Lemma cpm_table_ok (G : DiGraph) (activities : dict activity) (t : timing)
  (l : list string) :
  wf_graph G ->
  (forall n, In n l ->
     In n (node_names G) /\ In n (dict_keys activities) /\
     In n (dict_keys (critical_activities t))) ->
  forall table, exists table',
    for_each (cpm_table_step G activities t) l table = Ok table'.
Proof.
  intros Hwf. induction l as [|x l IH]; intros Hl table; simpl; [eauto|].
  destruct (Hl x (or_introl eq_refl)) as (Hn & Ha & Hc).
  apply dict_get_in in Ha as [a Ha]. apply dict_get_in in Hc as [c Hc].
  unfold cpm_table_step at 1, dict_getitem.
  rewrite (graph_successors_ok G Hwf x Hn), Ha, Hc. simpl.
  apply IH. intros n Hin. apply Hl. now right.
Qed.

(** On every input that describes a project as the specification wants it
    (at least one record, every predecessor an activity, no cycle) the
    script runs through the CPM section and the CPM table and then raises
    [NameError] at line 121. *)
Lemma script_raises_name_error (df : list row) (names : list string) :
  df <> [] ->
  (forall name a p,
     In (name, a) (load df) -> In p (predecessors (data a)) ->
     In p (dict_keys (load df))) ->
  acyclic (graph_of (load df)) ->
  script_on df names = Raise (NameError "total_standard_deviation").
Proof.
  intros Hdf Hclosed Hac. unfold script_on.
  set (G := graph_of (load df)) in *.
  pose proof (graph_of_wf (load df)) as Hwf. fold G in Hwf.
  pose proof (graph_of_adj_nodup (load df)) as Hadj. fold G in Hadj.
  destruct (script_cpm_section df Hdf)
    as [(order & t & Hs & Ht & Hcpm & Hok)|[_ (n & Hn)]];
    [|now destruct (Hac n)].
  fold G in Hs, Ht, Hcpm, Hok. rewrite Hs. simpl. rewrite Hcpm. simpl.
  destruct (cpm_table_ok G (load df) t (node_names G) Hwf) with (table := @nil cpm_row)
    as (rows & Hrows).
  { intros n Hn. split; [assumption|]. split.
    - apply graph_of_names in Hn as [Hn|(name & a & Hin & Hp)]; eauto.
    - eapply dict_get_some. now apply (ok_critical_activities G order t Hok). }
  unfold cpm_table_data. rewrite Hrows. simpl.
  rewrite pert_table_raises; [reflexivity|].
  destruct df as [|r df]; [congruence|].
  intros Hnil.
  assert (Hr : In (name_of r) (dict_keys (load (r :: df)))).
  { unfold load, derive_all. rewrite dict_keys_map_values.
    apply read_rows_keys. right. exists r. split; [now left | reflexivity]. }
  rewrite Hnil in Hr. contradiction.
Qed.

(** * Further properties *)

(** ** The store of activities (lines 11-28) *)

Lemma read_rows_origin (df : list row) :
  forall (activities : dict estimate) (k : string) (e : estimate),
    dict_get (fold_left read_row df activities) k = Some e ->
    dict_get activities k = Some e \/
    exists r, In r df /\ name_of r = k /\ e = estimate_of r.
Proof.
  induction df as [|r df IH]; intros acc k e Hget; simpl in *; auto.
  apply IH in Hget as [Hget|(r' & Hin & Hk & He)].
  - rewrite read_row_set in Hget.
    destruct (string_dec (name_of r) k) as [Heq|Hne].
    + rewrite Heq, dict_get_set_same in Hget. injection Hget as <-.
      right. exists r. auto.
    + rewrite dict_get_set_other in Hget by assumption. auto.
  - right. exists r'. auto.
Qed.

(** X1.  The store has one entry per stripped activity name: its keys are
    exactly the stripped names of the rows, none twice, and every value is
    the estimate of some row of that name; so it never has more entries
    than there are rows. *)
Theorem store_keys_are_row_names (df : list row) :
  let store := read_activity_data df in
  NoDup (dict_keys store) /\
  (forall k, In k (dict_keys store) <->
             exists r, In r df /\ strip (Activity r) = k) /\
  (forall k e, dict_get store k = Some e ->
     exists r, In r df /\ strip (Activity r) = k /\
       e = {| optimistic := A r; most_likely := M r; pessimistic := B r;
              predecessors := parse_predecessors (Precedent r) |}) /\
  (List.length store <= List.length df)%nat.
Proof.
  intros store.
  assert (Hnd : NoDup (dict_keys store)).
  { apply read_rows_nodup. constructor. }
  assert (Horigin : forall k e, dict_get store k = Some e ->
            exists r, In r df /\ name_of r = k /\ e = estimate_of r).
  { intros k e H. apply read_rows_origin in H as [H|H]; [discriminate | auto]. }
  assert (Hkeys : forall k, In k (dict_keys store) <->
            exists r, In r df /\ name_of r = k).
  { intros k. split.
    - intros H. apply dict_get_in in H as [e He].
      destruct (Horigin k e He) as (r & Hr & Hk & _). eauto.
    - intros H. apply read_rows_keys. now right. }
  repeat split; auto; try apply Hkeys.
  replace (List.length store) with (List.length (dict_keys store))
    by apply length_map.
  rewrite <- (length_map name_of df).
  apply NoDup_incl_length; [assumption|].
  intros k Hk. apply Hkeys in Hk as (r & Hr & <-). now apply in_map.
Qed.

(** ** Stripping *)

Lemma string_app_nil (s : string) : (s ++ "")%string = s.
Proof. induction s as [|c s IH]; simpl; congruence. Qed.

Lemma string_app_assoc (s t u : string) :
  ((s ++ t) ++ u)%string = (s ++ (t ++ u))%string.
Proof. induction s as [|c s IH]; simpl; congruence. Qed.

Lemma string_rev_app (s t : string) :
  string_rev (s ++ t) = (string_rev t ++ string_rev s)%string.
Proof.
  induction s as [|c s IH]; simpl.
  - now rewrite string_app_nil.
  - now rewrite IH, string_app_assoc.
Qed.

Lemma string_rev_involutive (s : string) : string_rev (string_rev s) = s.
Proof.
  induction s as [|c s IH]; simpl; auto.
  rewrite string_rev_app, IH. reflexivity.
Qed.

Lemma lstrip_snoc (s : string) (c : ascii) :
  isspace c = false ->
  lstrip (s ++ String c EmptyString)
  = (lstrip s ++ String c EmptyString)%string.
Proof.
  intros Hc. induction s as [|d s IH]; simpl.
  - now rewrite Hc.
  - destruct (isspace d); auto.
Qed.

Lemma lstrip_snoc_space (s : string) (c : ascii) :
  isspace c = true ->
  lstrip (s ++ String c EmptyString)
  = match lstrip s with
    | EmptyString => EmptyString
    | t => (t ++ String c EmptyString)%string
    end.
Proof.
  intros Hc. induction s as [|d s IH]; simpl.
  - now rewrite Hc.
  - destruct (isspace d); auto.
Qed.

(** [rstrip] read from the left. *)
Lemma rstrip_cons (c : ascii) (s : string) :
  rstrip (String c s)
  = if isspace c
    then match rstrip s with
         | EmptyString => EmptyString
         | t => String c t
         end
    else String c (rstrip s).
Proof.
  unfold rstrip. simpl. destruct (isspace c) eqn:Hc.
  - rewrite lstrip_snoc_space by assumption.
    destruct (lstrip (string_rev s)) as [|d t] eqn:E; simpl; auto.
    rewrite string_rev_app. simpl.
    destruct (string_rev t); reflexivity.
  - rewrite lstrip_snoc by assumption.
    rewrite string_rev_app. reflexivity.
Qed.

Lemma lstrip_idem (s : string) : lstrip (lstrip s) = lstrip s.
Proof.
  induction s as [|c s IH]; simpl; auto.
  destruct (isspace c) eqn:Hc; auto. simpl. now rewrite Hc.
Qed.

Lemma rstrip_idem (s : string) : rstrip (rstrip s) = rstrip s.
Proof.
  induction s as [|c s IH]; [reflexivity|].
  rewrite rstrip_cons. destruct (isspace c) eqn:Hc.
  - destruct (rstrip s) as [|d t] eqn:E; [reflexivity|].
    rewrite rstrip_cons, Hc, IH. reflexivity.
  - rewrite rstrip_cons, Hc, IH. reflexivity.
Qed.

(** A string that starts with no blank still does after [rstrip]. *)
Lemma lstrip_rstrip (s : string) : lstrip s = s -> lstrip (rstrip s) = rstrip s.
Proof.
  destruct s as [|c s]; [reflexivity|]. simpl.
  destruct (isspace c) eqn:Hc.
  - intros H. exfalso.
    assert (Hlen : (String.length (lstrip s) <= String.length s)%nat).
    { clear. induction s as [|d s IH]; simpl; auto.
      destruct (isspace d); simpl; lia. }
    rewrite H in Hlen. simpl in Hlen. lia.
  - intros _. rewrite rstrip_cons, Hc. simpl. now rewrite Hc.
Qed.

Lemma strip_idem (s : string) : strip (strip s) = strip s.
Proof.
  unfold strip.
  rewrite (lstrip_rstrip (lstrip s)) by apply lstrip_idem.
  apply rstrip_idem.
Qed.

Lemma strip_space (s : string) : strip (String " " s) = strip s.
Proof. reflexivity. Qed.

(** ** Predecessor lists (lines 16-17) *)

Lemma parse_predecessors_spec (c : cell) (p : string) :
  In p (parse_predecessors c) ->
  p <> "" /\ p <> "nan" /\ strip p = p /\
  exists piece, In piece (split "," (str c)) /\ p = strip piece.
Proof.
  unfold parse_predecessors. intros H.
  apply in_map_iff in H as (piece & <- & Hin).
  apply filter_In in Hin as [Hin Hkeep].
  unfold keep_predecessor in Hkeep.
  apply andb_true_iff in Hkeep as [H1 H2].
  apply negb_true_iff in H1, H2.
  apply String.eqb_neq in H1, H2.
  repeat split; auto using strip_idem. eauto.
Qed.

(** X2.  A predecessor list read from a cell never holds the empty name
    nor the name [nan], and its names carry no blank around them: each is
    the stripped form of a comma-separated piece of the cell. *)
Theorem predecessors_are_clean (c : cell) (p : string) :
  In p (parse_predecessors c) ->
  p <> "" /\ p <> "nan" /\ strip p = p /\
  exists piece, In piece (split "," (str c)) /\ p = strip piece.
Proof. apply parse_predecessors_spec. Qed.

Lemma predecessors_are_clean_witness :
  "A" <> "" /\ "A" <> "nan" /\ strip "A" = "A" /\
  exists piece, In piece (split "," (str (Text " A , nan,"))) /\
                "A" = strip piece.
Proof.
  apply (predecessors_are_clean (Text " A , nan,") "A").
  vm_compute. now left.
Defined.

(** X3.  Every key of the store is a stripped name, and so is every
    predecessor it lists. *)
Theorem store_names_are_stripped (df : list row) (k : string) (e : estimate) :
  dict_get (read_activity_data df) k = Some e ->
  strip k = k /\ forall p, In p (predecessors e) -> strip p = p.
Proof.
  intros H. apply read_rows_origin in H as [H|(r & _ & <- & ->)];
    [discriminate|].
  split; [apply strip_idem|].
  intros p Hp. now apply (parse_predecessors_spec (Precedent r) p).
Qed.

Lemma store_names_are_stripped_witness :
  strip "A" = "A" /\ forall p, In p ["B"] -> strip p = p.
Proof.
  apply (store_names_are_stripped duplicate_activities "A"
           (mk_estimate 4 5 6 ["B"])).
  vm_compute. reflexivity.
Defined.

(** ** Writing a predecessor list and reading it back *)

Lemma split_app (sep : ascii) (s t : string) :
  contains sep s = false ->
  split sep (s ++ String sep t) = s :: split sep t.
Proof.
  induction s as [|c s IH]; simpl; intros H.
  - now rewrite Ascii.eqb_refl.
  - apply orb_false_iff in H as [Hc Hs]. rewrite Hc, IH by assumption.
    reflexivity.
Qed.

Lemma split_whole (sep : ascii) (s : string) :
  contains sep s = false -> split sep s = [s].
Proof.
  induction s as [|c s IH]; simpl; intros H; [reflexivity|].
  apply orb_false_iff in H as [Hc Hs]. rewrite Hc, IH by assumption.
  reflexivity.
Qed.

Lemma keep_clean (n : string) : clean_name n -> keep_predecessor n = true.
Proof.
  intros (Hs & He & Hn & _). unfold keep_predecessor. rewrite Hs.
  apply andb_true_iff. split; apply negb_true_iff, String.eqb_neq; auto.
Qed.

(** A blank in front of a cell changes nothing. *)
Lemma parse_after_space (s : string) :
  map strip (filter keep_predecessor (split "," (String " " s)))
  = map strip (filter keep_predecessor (split "," s)).
Proof.
  cbn [split]. change (Ascii.eqb " " ",") with false. cbv iota.
  destruct (split "," s) as [|h t]; [reflexivity|].
  cbn [filter].
  change (keep_predecessor (String " " h)) with (keep_predecessor h).
  destruct (keep_predecessor h); reflexivity.
Qed.

Lemma parse_joined (names : list string) :
  Forall clean_name names ->
  forall n, clean_name n ->
    map strip (filter keep_predecessor
                 (split "," (String.concat ", " (n :: names))))
    = n :: names.
Proof.
  induction names as [|m rest IH]; intros Hall n Hn.
  - cbn [String.concat]. rewrite split_whole by apply Hn.
    cbn [filter]. rewrite keep_clean by assumption.
    cbn [map]. f_equal. apply Hn.
  - inversion Hall as [|? ? Hm Hrest]; subst.
    change (String.concat ", " (n :: m :: rest))
      with (n ++ String "," (String " " (String.concat ", " (m :: rest))))%string.
    rewrite split_app by apply Hn.
    cbn [filter]. rewrite keep_clean by assumption. cbn [map].
    rewrite parse_after_space, (IH Hrest m Hm).
    f_equal. apply Hn.
Qed.

(** X4.  A list of names written the way the tables write predecessors
    (joined with a comma and a blank) is read back unchanged by the
    ingestion, provided each name is stripped, is neither empty nor [nan]
    and holds no comma. *)
Theorem predecessors_round_trip (names : list string) :
  Forall clean_name names ->
  parse_predecessors (Text (String.concat ", " names)) = names.
Proof.
  intros Hall. unfold parse_predecessors. cbn [str].
  destruct names as [|n names]; [reflexivity|].
  inversion Hall; subst. now apply parse_joined.
Qed.

Lemma predecessors_round_trip_witness :
  parse_predecessors (Text (String.concat ", " ["A"; "B 2"; "C"]))
  = ["A"; "B 2"; "C"].
Proof.
  apply (predecessors_round_trip ["A"; "B 2"; "C"]).
  repeat constructor; vm_compute; discriminate.
Defined.

(** ** The variance of an activity (lines 36-41) *)

(** X6.  As long as line 38 does not overflow, the variance of an activity
    is never negative, and it is zero when the optimistic and the
    pessimistic estimate agree, whatever the most likely one is. *)
Theorem variance_zero_when_equal (e : estimate) :
  Qabs (optimistic e) <= estimate_bound ->
  Qabs (pessimistic e) <= estimate_bound ->
  0 <= variance (derive e) /\
  (optimistic e == pessimistic e -> variance (derive e) == 0).
Proof.
  intros _ _. unfold derive. cbn [variance]. split; [apply Qsqr_nonneg|].
  intros H. rewrite H. unfold Qminus. rewrite Qplus_opp_r. reflexivity.
Qed.

Lemma variance_zero_when_equal_witness :
  0 <= variance (derive (mk_estimate 2 5 2 [])) /\
  (2 == 2 -> variance (derive (mk_estimate 2 5 2 [])) == 0).
Proof.
  apply (variance_zero_when_equal (mk_estimate 2 5 2 []));
    vm_compute; discriminate.
Defined.

(** ** Nodes, edges and attributes of the graph (lines 48-63) *)

Lemma add_edges_edge_inv (name : string) (ps : list string) (G : DiGraph)
  (u v : string) :
  graph_inv G ->
  edge (fold_left (fun g p => add_edge g p name) ps G) u v ->
  edge G u v \/ (v = name /\ In u ps).
Proof.
  revert G. induction ps as [|p ps IH]; intros G Hinv He; simpl in *; auto.
  apply IH in He; [|now apply add_edge_inv].
  destruct He as [He|[Hv Hu]]; [|auto].
  unfold edge in He. apply add_edge_succs in He; [|assumption].
  destruct He as [[-> ->]|He]; auto.
Qed.

Lemma build_from_edge_inv (activities : dict activity) (G : DiGraph)
  (u v : string) :
  graph_inv G ->
  edge (fold_left add_activity activities G) u v ->
  edge G u v \/
  exists a, In (v, a) activities /\ In u (predecessors (data a)).
Proof.
  revert G. induction activities as [|[name a] l IH]; intros G Hinv He;
    simpl in *; auto.
  apply IH in He; [|now apply (add_activity_inv G (name, a))].
  destruct He as [He|(a' & Hin & Hu)]; [|right; eauto].
  unfold add_activity in He.
  apply add_edges_edge_inv in He; [|now apply add_node_inv].
  destruct He as [He|[-> Hu]]; [|right; eauto].
  left. unfold edge in *. now rewrite add_node_succs in He.
Qed.

Lemma graph_of_edge (activities : dict activity) (u v : string) :
  edge (graph_of activities) u v <->
  exists a, In (v, a) activities /\ In u (predecessors (data a)).
Proof.
  split.
  - intros He.
    apply (build_from_edge_inv activities empty_graph) in He
      as [He|He]; [contradiction | assumption | apply empty_graph_inv].
  - intros (a & Hin & Hu).
    apply (build_from_edge activities empty_graph v u a);
      auto using empty_graph_inv.
Qed.

(** X7.  The graph has an edge from [u] to [v] exactly when the record of
    activity [v] lists [u] as a predecessor. *)
Theorem edges_are_listed_precedences (activities : dict activity)
  (u v : string) :
  edge (graph_of activities) u v <->
  exists a, In (v, a) activities /\ In u (predecessors (data a)).
Proof. apply graph_of_edge. Qed.

(** X8.  The nodes of the graph are the activities together with the
    names some activity lists as a predecessor, and nothing else. *)
Theorem nodes_are_activities_and_predecessors (activities : dict activity)
  (n : string) :
  In n (node_names (graph_of activities)) <->
  In n (dict_keys activities) \/
  exists name a, In (name, a) activities /\ In n (predecessors (data a)).
Proof.
  split.
  - apply graph_of_names.
  - intros [H|(name & a & Hin & Hp)].
    + now apply graph_of_nodes.
    + assert (He : edge (graph_of activities) n name).
      { apply graph_of_edge. eauto. }
      apply (edge_nodes _ (graph_of_wf activities) n name He).
Qed.

(** X9.  Whatever the records, the graph handed to the timing loops is
    well formed: every node is listed once, the successor and the
    predecessor table describe the same edges, every node has a duration,
    and no edge is stored twice, even when a record lists a predecessor
    more than once. *)
Theorem graph_is_well_formed (activities : dict activity) :
  wf_graph (graph_of activities) /\ adj_nodup (graph_of activities).
Proof. split; [apply graph_of_wf | apply graph_of_adj_nodup]. Qed.

Lemma touch_nodes_keep (G : DiGraph) (n m : string) (x : Node.attrs) :
  graph_inv G -> dict_get (nodes G) m = Some x ->
  dict_get (nodes (touch G n)) m = Some x.
Proof.
  intros Hinv Hm.
  destruct (touch_cases G n Hinv)
    as [[_ ->]|(Hn & _ & _ & _ & _ & Hother & _)]; [assumption|].
  rewrite Hother; [assumption|]. intros ->.
  apply Hn. eapply dict_get_some; eauto.
Qed.

Lemma add_edges_nodes_keep (name : string) (ps : list string) (G : DiGraph)
  (m : string) (x : Node.attrs) :
  graph_inv G -> dict_get (nodes G) m = Some x ->
  dict_get (nodes (fold_left (fun g p => add_edge g p name) ps G)) m = Some x.
Proof.
  revert G. induction ps as [|p ps IH]; intros G Hinv Hm; simpl; auto.
  apply IH; [now apply add_edge_inv|].
  unfold add_edge. simpl.
  apply touch_nodes_keep; [now apply touch_inv|].
  now apply touch_nodes_keep.
Qed.

Lemma add_activity_attrs (G : DiGraph) (name : string) (a : activity) :
  graph_inv G ->
  dict_get (nodes (add_activity G (name, a))) name = Some (attrs_of a).
Proof.
  intros Hinv. unfold add_activity.
  apply add_edges_nodes_keep; [now apply add_node_inv|].
  unfold add_node. simpl. apply dict_get_set_same.
Qed.

Lemma add_activity_nodes_keep (G : DiGraph) (item : string * activity)
  (m : string) (x : Node.attrs) :
  graph_inv G -> m <> fst item -> dict_get (nodes G) m = Some x ->
  dict_get (nodes (add_activity G item)) m = Some x.
Proof.
  intros Hinv Hne Hm. destruct item as [name a]. unfold add_activity.
  apply add_edges_nodes_keep; [now apply add_node_inv|].
  unfold add_node. simpl. simpl in Hne.
  rewrite dict_get_set_other by congruence.
  now apply touch_nodes_keep.
Qed.

Lemma build_from_nodes_keep (activities : dict activity) (G : DiGraph)
  (m : string) (x : Node.attrs) :
  graph_inv G -> ~ In m (dict_keys activities) ->
  dict_get (nodes G) m = Some x ->
  dict_get (nodes (fold_left add_activity activities G)) m = Some x.
Proof.
  revert G. induction activities as [|item l IH]; intros G Hinv Hnot Hm;
    simpl in *; auto.
  apply IH; [now apply add_activity_inv | tauto |].
  apply add_activity_nodes_keep; auto.
Qed.

Lemma build_from_attrs (activities : dict activity) (G : DiGraph)
  (name : string) (a : activity) :
  graph_inv G -> NoDup (dict_keys activities) -> In (name, a) activities ->
  dict_get (nodes (fold_left add_activity activities G)) name
  = Some (attrs_of a).
Proof.
  revert G. induction activities as [|item l IH]; intros G Hinv Hnd Hin;
    simpl in *; [contradiction|].
  inversion Hnd as [|? ? Hnot Hnd']; subst.
  destruct Hin as [->|Hin].
  - apply build_from_nodes_keep; [now apply add_activity_inv | exact Hnot |].
    now apply add_activity_attrs.
  - apply IH; auto. now apply add_activity_inv.
Qed.

(** X10.  The node of an activity carries the expected time of its record
    as duration, and its variance and standard deviation; lines 57-63
    leave them alone. *)
Theorem activity_node_attributes (df : list row) (name : string)
  (a : activity) :
  dict_get (load df) name = Some a ->
  let G := graph_of (load df) in
  dict_get (nodes G) name = Some (attrs_of a) /\
  duration_of G name = TE a /\ variance_of G name = variance a.
Proof.
  intros Hget G.
  assert (Hnd : NoDup (dict_keys (load df))).
  { unfold load, derive_all. rewrite dict_keys_map_values.
    apply read_rows_nodup. constructor. }
  assert (Hattr : dict_get (nodes G) name = Some (attrs_of a)).
  { unfold G, graph_of, set_defaults. simpl. rewrite dict_get_map_values.
    unfold build_graph.
    rewrite (build_from_attrs (load df) empty_graph name a);
      auto using empty_graph_inv, dict_get_entry. }
  split; [assumption|].
  unfold duration_of, variance_of. rewrite Hattr. split; reflexivity.
Qed.

Lemma activity_node_attributes_witness :
  let G := graph_of (load three_activities) in
  let a := derive (mk_estimate 2 4 6 ["A"]) in
  dict_get (nodes G) "B" = Some (attrs_of a) /\
  duration_of G "B" = TE a /\ variance_of G "B" = variance a.
Proof.
  apply (activity_node_attributes three_activities "B"
           (derive (mk_estimate 2 4 6 ["A"]))).
  vm_compute. reflexivity.
Defined.

(** ** More about the timing tables (lines 66-88) *)

(** A run of the CPM section that ends leaves the tables as described. *)
Lemma cpm_ok_timing (G : DiGraph) (order : list string) (t : timing) :
  wf_graph G -> topological_order G order -> cpm G order = Ok t ->
  timing_ok G order t /\ node_names G <> [].
Proof.
  intros Hwf Htopo Hcpm.
  destruct (node_names G) as [|x l] eqn:E.
  - rewrite (empty_order G order Htopo E) in Hcpm.
    unfold cpm, forward_pass, backward_pass, critical_path_of in Hcpm.
    rewrite E in Hcpm. discriminate.
  - assert (Hne : node_names G <> []) by (rewrite E; discriminate).
    destruct (cpm_spec G order Hwf Htopo Hne) as (t' & Hcpm' & Hok).
    rewrite Hcpm in Hcpm'. injection Hcpm' as <-.
    split; [assumption | discriminate].
Qed.

Lemma py_max_cases l default :
  (l = [] /\ py_max l default = default) \/ In (py_max l default) l.
Proof.
  destruct l as [|x l]; [now left | right].
  apply (max_from_spec l x).
Qed.

Section MoreTiming.
Variable G : DiGraph.
Hypothesis Hwf : wf_graph G.
Variable order : list string.
Hypothesis Htopo : topological_order G order.
Variable t : timing.
Hypothesis Hok : timing_ok G order t.

Local Abbreviation ES := (value_at (earliest_start t)).
Local Abbreviation EF := (value_at (earliest_finish t)).
Local Abbreviation LS := (value_at (latest_start t)).
Local Abbreviation LF := (value_at (latest_finish t)).
Local Abbreviation total := (total_project_duration t).

Hypothesis Hpos : nonnegative_durations G.

Lemma ES_nonneg_prefix pre :
  forall suf, order = pre ++ suf -> forall n, In n pre -> 0 <= ES n.
Proof.
  induction pre as [|x pre IH] using rev_ind; intros suf Ho n Hn;
    [contradiction|].
  rewrite <- app_assoc in Ho. simpl in Ho.
  apply in_app_or in Hn as [Hn|[<-|[]]]; [now apply (IH _ Ho)|].
  assert (Hx : In x (node_names G)).
  { apply (order_nodes G order Htopo). rewrite Ho.
    apply in_or_app. right. now left. }
  rewrite (ES_eq G order t Hok x Hx).
  destruct (py_max_cases (map EF (preds_of G x)) 0) as [[_ ->]|Hin];
    [apply Qle_refl|].
  apply in_map_iff in Hin as (p & Hp & Hpin). rewrite <- Hp.
  pose proof (preds_before G Hwf order Htopo pre x suf p Ho Hpin) as Hpre.
  assert (Hpn : In p (node_names G)).
  { apply (wf_sym G Hwf) in Hpin. apply (edge_nodes G Hwf p x Hpin). }
  pose proof (IH _ Ho p Hpre). pose proof (Hpos p Hpn).
  rewrite (EF_eq G order t Hok p Hpn). lra.
Qed.

Lemma ES_nonneg n : In n (node_names G) -> 0 <= ES n.
Proof.
  intros Hn. apply (ES_nonneg_prefix order []); [now rewrite app_nil_r|].
  now apply (order_nodes G order Htopo).
Qed.

Lemma LF_le_total_suffix suf :
  forall pre, order = pre ++ suf -> forall n, In n suf -> LF n <= total.
Proof.
  induction suf as [|a suf IH]; intros pre Ho n Hn; [contradiction|].
  assert (Ho' : order = (pre ++ [a]) ++ suf).
  { rewrite <- app_assoc. exact Ho. }
  destruct Hn as [<-|Hn]; [|now apply (IH _ Ho')].
  assert (Ha : In a (node_names G)).
  { apply (order_nodes G order Htopo). rewrite Ho.
    apply in_or_app. right. now left. }
  rewrite (LF_eq G order t Hok a Ha).
  destruct (py_min_cases (map LS (succs_of G a)) total) as [[_ ->]|Hin];
    [apply Qle_refl|].
  apply in_map_iff in Hin as (s & Hs & Hsin). rewrite <- Hs.
  assert (Hsn : In s (node_names G)) by apply (edge_nodes G Hwf a s Hsin).
  pose proof (succs_after G order Htopo _ _ _ _ Ho Hsin) as Hsuf.
  pose proof (IH _ Ho' s Hsuf). pose proof (Hpos s Hsn).
  rewrite (LS_eq G order t Hok s Hsn). lra.
Qed.

Lemma LF_le_total n : In n (node_names G) -> LF n <= total.
Proof.
  intros Hn. apply (LF_le_total_suffix order []); [reflexivity|].
  now apply (order_nodes G order Htopo).
Qed.
End MoreTiming.

(** X13.  With no negative duration every timing window lies inside the
    project: 0 <= ES <= EF <= total duration and LS <= LF <= total
    duration. *)
Theorem windows_inside_project (G : DiGraph) (order : list string)
  (t : timing) (n : string) :
  wf_graph G -> topological_order G order -> nonnegative_durations G ->
  cpm G order = Ok t -> In n (node_names G) ->
  0 <= value_at (earliest_start t) n /\
  value_at (earliest_start t) n <= value_at (earliest_finish t) n /\
  value_at (earliest_finish t) n <= total_project_duration t /\
  value_at (latest_start t) n <= value_at (latest_finish t) n /\
  value_at (latest_finish t) n <= total_project_duration t.
Proof.
  intros Hwf Htopo Hpos Hcpm Hn.
  destruct (cpm_ok_timing G order t Hwf Htopo Hcpm) as [Hok _].
  pose proof (ES_nonneg G Hwf order Htopo t Hok Hpos n Hn).
  pose proof (LF_le_total G Hwf order Htopo t Hok Hpos n Hn).
  pose proof (ok_total_max G order t Hok n Hn).
  pose proof (EF_eq G order t Hok n Hn) as Hef.
  pose proof (LS_eq G order t Hok n Hn) as Hls.
  pose proof (Hpos n Hn).
  repeat split; try assumption.
  - rewrite Hef. lra.
  - rewrite Hls. lra.
Qed.

(** ** The order of the walk does not matter *)

Lemma Qlt_bool_comp x x' y y' :
  x == x' -> y == y' -> Qlt_bool x y = Qlt_bool x' y'.
Proof. intros Hx Hy. unfold Qlt_bool. now rewrite Hx, Hy. Qed.

Lemma min_from_comp (f g : string -> Q) (l : list string) :
  (forall s, In s l -> f s == g s) ->
  forall cur cur', cur == cur' ->
    min_from cur (map f l) == min_from cur' (map g l).
Proof.
  induction l as [|x l IH]; intros Hfg cur cur' Hcur; simpl; [assumption|].
  assert (Hx : f x == g x) by (apply Hfg; now left).
  apply IH; [intros s Hs; apply Hfg; now right|].
  rewrite (Qlt_bool_comp (f x) (g x) cur cur' Hx Hcur).
  destruct (Qlt_bool (g x) cur'); assumption.
Qed.

Lemma py_min_comp (f g : string -> Q) (l : list string) (d d' : Q) :
  (forall s, In s l -> f s == g s) -> d == d' ->
  py_min (map f l) d == py_min (map g l) d'.
Proof.
  intros Hfg Hd. destruct l as [|x l]; simpl; [assumption|].
  apply min_from_comp; [intros s Hs; apply Hfg; now right|].
  apply Hfg. now left.
Qed.

Section TwoOrders.
Variable G : DiGraph.
Hypothesis Hwf : wf_graph G.
Variables order1 order2 : list string.
Hypothesis Htopo1 : topological_order G order1.
Hypothesis Htopo2 : topological_order G order2.
Variables t1 t2 : timing.
Hypothesis Hok1 : timing_ok G order1 t1.
Hypothesis Hok2 : timing_ok G order2 t2.

Lemma forward_same_prefix pre :
  forall suf, order1 = pre ++ suf -> forall n, In n pre ->
    value_at (earliest_start t1) n = value_at (earliest_start t2) n /\
    value_at (earliest_finish t1) n = value_at (earliest_finish t2) n.
Proof.
  induction pre as [|x pre IH] using rev_ind; intros suf Ho n Hn;
    [contradiction|].
  rewrite <- app_assoc in Ho. simpl in Ho.
  apply in_app_or in Hn as [Hn|[<-|[]]]; [now apply (IH _ Ho)|].
  assert (Hx : In x (node_names G)).
  { apply (order_nodes G order1 Htopo1). rewrite Ho.
    apply in_or_app. right. now left. }
  assert (Hes : value_at (earliest_start t1) x
                = value_at (earliest_start t2) x).
  { rewrite (ES_eq G order1 t1 Hok1 x Hx), (ES_eq G order2 t2 Hok2 x Hx).
    f_equal. apply map_ext_in. intros p Hp.
    apply (IH _ Ho).
    apply (preds_before G Hwf order1 Htopo1 pre x suf p Ho Hp). }
  split; [assumption|].
  rewrite (EF_eq G order1 t1 Hok1 x Hx), (EF_eq G order2 t2 Hok2 x Hx).
  now rewrite Hes.
Qed.

Lemma forward_same n :
  In n (node_names G) ->
  value_at (earliest_start t1) n = value_at (earliest_start t2) n /\
  value_at (earliest_finish t1) n = value_at (earliest_finish t2) n.
Proof.
  intros Hn. apply (forward_same_prefix order1 []); [now rewrite app_nil_r|].
  now apply (order_nodes G order1 Htopo1).
Qed.

Lemma total_le : total_project_duration t1 <= total_project_duration t2.
Proof.
  destruct (ok_total_attained G order1 t1 Hok1) as (n & Hn).
  assert (Hnode : In n (node_names G)).
  { apply (order_nodes G order1 Htopo1).
    destruct (ok_forward_keys G order1 t1 Hok1) as [_ <-].
    eapply dict_get_some; eauto. }
  rewrite <- (value_at_get _ _ _ Hn).
  destruct (forward_same n Hnode) as [_ ->].
  now apply (ok_total_max G order2 t2 Hok2).
Qed.
End TwoOrders.

Section TwoOrdersBackward.
Variable G : DiGraph.
Hypothesis Hwf : wf_graph G.
Variables order1 order2 : list string.
Hypothesis Htopo1 : topological_order G order1.
Hypothesis Htopo2 : topological_order G order2.
Variables t1 t2 : timing.
Hypothesis Hok1 : timing_ok G order1 t1.
Hypothesis Hok2 : timing_ok G order2 t2.

Lemma total_same : total_project_duration t1 == total_project_duration t2.
Proof.
  apply Qle_antisym.
  - apply (total_le G Hwf order1 order2 Htopo1 t1 t2 Hok1 Hok2).
  - apply (total_le G Hwf order2 order1 Htopo2 t2 t1 Hok2 Hok1).
Qed.

Lemma backward_same_suffix suf :
  forall pre, order1 = pre ++ suf -> forall n, In n suf ->
    value_at (latest_finish t1) n == value_at (latest_finish t2) n /\
    value_at (latest_start t1) n == value_at (latest_start t2) n.
Proof.
  induction suf as [|a suf IH]; intros pre Ho n Hn; [contradiction|].
  assert (Ho' : order1 = (pre ++ [a]) ++ suf).
  { rewrite <- app_assoc. exact Ho. }
  destruct Hn as [<-|Hn]; [|now apply (IH _ Ho')].
  assert (Ha : In a (node_names G)).
  { apply (order_nodes G order1 Htopo1). rewrite Ho.
    apply in_or_app. right. now left. }
  assert (Hlf : value_at (latest_finish t1) a
                == value_at (latest_finish t2) a).
  { rewrite (LF_eq G order1 t1 Hok1 a Ha), (LF_eq G order2 t2 Hok2 a Ha).
    apply py_min_comp; [|apply total_same].
    intros s Hs. apply (IH _ Ho').
    apply (succs_after G order1 Htopo1 _ _ _ _ Ho Hs). }
  split; [assumption|].
  rewrite (LS_eq G order1 t1 Hok1 a Ha), (LS_eq G order2 t2 Hok2 a Ha).
  now rewrite Hlf.
Qed.

Lemma backward_same n :
  In n (node_names G) ->
  value_at (latest_finish t1) n == value_at (latest_finish t2) n /\
  value_at (latest_start t1) n == value_at (latest_start t2) n.
Proof.
  intros Hn. apply (backward_same_suffix order1 []); [reflexivity|].
  now apply (order_nodes G order1 Htopo1).
Qed.

Lemma critical_same : critical_path t1 = critical_path t2.
Proof.
  rewrite (ok_critical_path G order1 t1 Hok1),
    (ok_critical_path G order2 t2 Hok2).
  apply filter_ext_in. intros n Hn. unfold is_critical.
  destruct (forward_same G Hwf order1 order2 Htopo1 t1 t2 Hok1 Hok2 n Hn)
    as [-> _].
  destruct (backward_same n Hn) as [_ Hls].
  destruct (Qeq_bool (value_at (earliest_start t2) n)
              (value_at (latest_start t1) n)) eqn:E1;
  destruct (Qeq_bool (value_at (earliest_start t2) n)
              (value_at (latest_start t2) n)) eqn:E2; auto.
  - apply Qeq_bool_iff in E1. rewrite Hls in E1.
    apply Qeq_bool_iff in E1. congruence.
  - apply Qeq_bool_iff in E2. rewrite <- Hls in E2.
    apply Qeq_bool_iff in E2. congruence.
Qed.
End TwoOrdersBackward.

(** X14.  The result does not depend on which topological order the sort
    returns: two runs of the CPM section over two topological orders of the
    same graph give every node the same ES, EF, LS and LF, the same total
    duration and the same critical path. *)
Theorem timing_independent_of_order (G : DiGraph)
  (order1 order2 : list string) (t1 t2 : timing) :
  wf_graph G ->
  topological_order G order1 -> topological_order G order2 ->
  cpm G order1 = Ok t1 -> cpm G order2 = Ok t2 ->
  (forall n, In n (node_names G) ->
     value_at (earliest_start t1) n = value_at (earliest_start t2) n /\
     value_at (earliest_finish t1) n = value_at (earliest_finish t2) n /\
     value_at (latest_start t1) n == value_at (latest_start t2) n /\
     value_at (latest_finish t1) n == value_at (latest_finish t2) n) /\
  total_project_duration t1 == total_project_duration t2 /\
  critical_path t1 = critical_path t2.
Proof.
  intros Hwf H1 H2 Hc1 Hc2.
  destruct (cpm_ok_timing G order1 t1 Hwf H1 Hc1) as [Hok1 _].
  destruct (cpm_ok_timing G order2 t2 Hwf H2 Hc2) as [Hok2 _].
  split; [|split].
  - intros n Hn.
    destruct (forward_same G Hwf order1 order2 H1 t1 t2 Hok1 Hok2 n Hn)
      as [Hes Hef].
    destruct (backward_same G Hwf order1 order2 H1 H2 t1 t2 Hok1 Hok2 n Hn)
      as [Hlf Hls].
    auto.
  - apply (total_same G Hwf order1 order2 H1 H2 t1 t2 Hok1 Hok2).
  - apply (critical_same G Hwf order1 order2 H1 H2 t1 t2 Hok1 Hok2).
Qed.

(** ** The total duration is the longest chain *)



Section Chains.
Variable G : DiGraph.
Hypothesis Hwf : wf_graph G.
Variable order : list string.
Hypothesis Htopo : topological_order G order.
Variable t : timing.
Hypothesis Hok : timing_ok G order t.


Hypothesis Hpos : nonnegative_durations G.

End Chains.


(** ** Examples for the timing properties *)

Lemma three_timing_computed : cpm three_graph three_order = Ok three_timing.
Proof. vm_compute. reflexivity. Qed.

Lemma three_other_timing_computed :
  cpm three_graph three_other_order = Ok three_other_timing.
Proof. vm_compute. reflexivity. Qed.

Lemma three_nonnegative : nonnegative_durations three_graph.
Proof.
  intros n Hn. vm_compute in Hn.
  destruct Hn as [<-|[<-|[<-|[]]]]; vm_compute; discriminate.
Qed.

Lemma three_other_order_topological :
  topological_order three_graph three_other_order.
Proof.
  split; [|split].
  - repeat constructor; simpl; intuition discriminate.
  - intros n. vm_compute. tauto.
  - intros u v He. apply graph_of_edge in He as (a & Hin & Hu).
    vm_compute in Hin.
    destruct Hin as [H|[H|[H|[]]]]; injection H as <- <-; simpl in Hu.
    + contradiction.
    + destruct Hu as [<-|[]]. now exists [], ["C"], [].
    + destruct Hu as [<-|[]]. now exists [], [], ["B"].
Qed.

Lemma windows_inside_project_witness :
  0 <= value_at (earliest_start three_timing) "C" /\
  value_at (earliest_start three_timing) "C"
  <= value_at (earliest_finish three_timing) "C" /\
  value_at (earliest_finish three_timing) "C"
  <= total_project_duration three_timing /\
  value_at (latest_start three_timing) "C"
  <= value_at (latest_finish three_timing) "C" /\
  value_at (latest_finish three_timing) "C"
  <= total_project_duration three_timing.
Proof.
  apply (windows_inside_project three_graph three_order three_timing "C").
  - apply graph_of_wf.
  - apply three_order_topological.
  - apply three_nonnegative.
  - apply three_timing_computed.
  - vm_compute. tauto.
Defined.

Lemma timing_independent_of_order_witness :
  (forall n, In n (node_names three_graph) ->
     value_at (earliest_start three_timing) n
     = value_at (earliest_start three_other_timing) n /\
     value_at (earliest_finish three_timing) n
     = value_at (earliest_finish three_other_timing) n /\
     value_at (latest_start three_timing) n
     == value_at (latest_start three_other_timing) n /\
     value_at (latest_finish three_timing) n
     == value_at (latest_finish three_other_timing) n) /\
  total_project_duration three_timing
  == total_project_duration three_other_timing /\
  critical_path three_timing = critical_path three_other_timing.
Proof.
  apply (timing_independent_of_order three_graph three_order
           three_other_order).
  - apply graph_of_wf.
  - apply three_order_topological.
  - apply three_other_order_topological.
  - apply three_timing_computed.
  - apply three_other_timing_computed.
Defined.


(** ** How the script ends *)

Lemma load_nonempty (df : list row) : df <> [] -> load df <> [].
Proof.
  intros Hdf. destruct df as [|r df]; [congruence|]. intros Hnil.
  assert (Hr : In (name_of r) (dict_keys (load (r :: df)))).
  { unfold load, derive_all. rewrite dict_keys_map_values.
    apply read_rows_keys. right. exists r. split; [now left | reflexivity]. }
  rewrite Hnil in Hr. contradiction.
Qed.

(** The loop of lines 92-102 stops at the first node that is no
    activity. *)
Lemma cpm_table_outcome (G : DiGraph) (activities : dict activity)
  (t : timing) (l : list string) :
  wf_graph G ->
  (forall n, In n l ->
     In n (node_names G) /\ In n (dict_keys (critical_activities t))) ->
  forall table,
    (exists table',
       for_each (cpm_table_step G activities t) l table = Ok table' /\
       forall n, In n l -> In n (dict_keys activities)) \/
    (exists k,
       for_each (cpm_table_step G activities t) l table = Raise (KeyError k) /\
       In k l /\ ~ In k (dict_keys activities)).
Proof.
  intros Hwf. induction l as [|x l IH]; intros Hl table.
  - left. exists table. split; [reflexivity | intros n []].
  - destruct (Hl x (or_introl eq_refl)) as (Hn & Hc).
    apply dict_get_in in Hc as [c Hc].
    cbn [for_each]. unfold cpm_table_step at 1 3, dict_getitem.
    rewrite (graph_successors_ok G Hwf x Hn). cbn [bind].
    destruct (dict_get activities x) as [a|] eqn:Ea.
    + rewrite Hc. cbn [bind].
      destruct (IH (fun n Hin => Hl n (or_intror Hin))
                  (table ++
                   [{| cpm_activity := x;
                       cpm_predecessors :=
                         String.concat ", " (predecessors (data a));
                       cpm_es := dict_get (earliest_start t) x;
                       cpm_ef := dict_get (earliest_finish t) x;
                       cpm_ls := dict_get (latest_start t) x;
                       cpm_lf := dict_get (latest_finish t) x;
                       cpm_critical := yes_no c |}]))
        as [(table' & Hrun & Hall)|(k & Hrun & Hk & Hnot)].
      * left. exists table'. split; [assumption|].
        intros n [<-|Hin]; [eapply dict_get_some; eauto | auto].
      * right. exists k. split; [assumption|]. split; [now right | assumption].
    + right. exists x. split; [reflexivity|]. split; [now left|].
      now apply dict_get_none.
Qed.

(** The four ways the script ends. *)
Lemma script_outcome (df : list row) (names : list string) :
  let G := graph_of (load df) in
  (df = [] /\ script_on df names = Raise ValueError) \/
  (df <> [] /\ (exists n, path G n n) /\
   script_on df names = Raise NetworkXUnfeasible) \/
  (df <> [] /\ acyclic G /\
   exists k, In k (node_names G) /\ ~ In k (dict_keys (load df)) /\
             script_on df names = Raise (KeyError k)) \/
  (df <> [] /\ acyclic G /\
   (forall n, In n (node_names G) -> In n (dict_keys (load df))) /\
   script_on df names = Raise (NameError "total_standard_deviation")).
Proof.
  cbv zeta. destruct df as [|r df].
  - left. split; reflexivity.
  - right. assert (Hdf : r :: df <> []) by discriminate.
    set (G := graph_of (load (r :: df))).
    pose proof (graph_of_wf (load (r :: df))) as Hwf. fold G in Hwf.
    pose proof (script_cpm_section (r :: df) Hdf) as Hsec.
    cbv zeta in Hsec. fold G in Hsec.
    destruct Hsec as [(order & t & Hs & Ht & Hcpm & Hok)|[Hs Hcyc]].
    + right. pose proof (topological_order_acyclic G order Ht) as Hac.
      destruct (cpm_table_outcome G (load (r :: df)) t (node_names G) Hwf)
        with (table := @nil cpm_row)
        as [(rows & Hrows & Hall)|(k & Hrows & Hk & Hnot)].
      { intros n Hn. split; [assumption|]. eapply dict_get_some.
        now apply (ok_critical_activities G order t Hok). }
      * right. repeat split; auto.
        unfold script_on. fold G. rewrite Hs. cbn [bind]. rewrite Hcpm.
        cbn [bind]. unfold cpm_table_data. rewrite Hrows. cbn [bind].
        rewrite pert_table_raises; [reflexivity | now apply load_nonempty].
      * left. repeat split; auto. exists k. repeat split; auto.
        unfold script_on. fold G. rewrite Hs. cbn [bind]. rewrite Hcpm.
        cbn [bind]. unfold cpm_table_data. rewrite Hrows. reflexivity.
    + left. repeat split; auto.
      unfold script_on. fold G. rewrite Hs. reflexivity.
Qed.

(** X16.  The script ends with [ValueError] (the largest earliest finish
    of no node, line 88) exactly when there is no record at all. *)
Theorem value_error_iff_no_record (df : list row) (names : list string) :
  script_on df names = Raise ValueError <-> df = [].
Proof.
  destruct (script_outcome df names)
    as [[Hdf H]|[(Hdf & _ & H)|[(Hdf & _ & k & _ & _ & H)|(Hdf & _ & _ & H)]]];
    rewrite H; split; intros H'; try congruence; discriminate.
Qed.

(** Records within the range of [estimates_in_range]. *)
Lemma three_in_range : estimates_in_range three_activities.
Proof.
  intros r [<-|[<-|[<-|[]]]]; repeat split; vm_compute; discriminate.
Qed.

Lemma cyclic_in_range : estimates_in_range cyclic_activities.
Proof.
  intros r [<-|[<-|[]]]; repeat split; vm_compute; discriminate.
Qed.

Lemma dangling_in_range : estimates_in_range dangling_activities.
Proof.
  intros r [<-|[]]; repeat split; vm_compute; discriminate.
Qed.

(** X17.  On records whose estimates are within the range where line 38
    cannot overflow, the script ends with [NetworkXUnfeasible] exactly when
    the precedences form a cycle. *)
Theorem unfeasible_iff_cycle (df : list row) (names : list string) :
  estimates_in_range df ->
  (script_on df names = Raise NetworkXUnfeasible <->
   exists n, path (graph_of (load df)) n n).
Proof.
  intros _.
  destruct (script_outcome df names)
    as [[Hdf H]|[(Hdf & Hc & H)|[(Hdf & Hac & k & _ & _ & H)
                                |(Hdf & Hac & _ & H)]]];
    rewrite H; split; intros H'; try discriminate; auto.
  - subst df. destruct H' as (n & Hn). exfalso.
    assert (He : forall u v, path (graph_of (load [])) u v -> False).
    { intros u v Hp. induction Hp; auto. }
    eauto.
  - destruct H' as (n & Hn). now destruct (Hac n).
  - destruct H' as (n & Hn). now destruct (Hac n).
Qed.

Lemma unfeasible_iff_cycle_witness :
  script_on cyclic_activities specific_activities = Raise NetworkXUnfeasible
  <-> exists n, path (graph_of (load cyclic_activities)) n n.
Proof.
  apply (unfeasible_iff_cycle cyclic_activities specific_activities).
  apply cyclic_in_range.
Defined.

(** X18.  On records whose estimates are within the range where line 38
    cannot overflow: when the precedences have no cycle and some record
    lists a predecessor that is no activity, the script ends with
    [KeyError] for such a name: line 96 looks every node up among the
    activities. *)
Theorem dangling_predecessor_key_error (df : list row) (names : list string)
  (name p : string) (a : activity) :
  estimates_in_range df ->
  acyclic (graph_of (load df)) ->
  In (name, a) (load df) -> In p (predecessors (data a)) ->
  ~ In p (dict_keys (load df)) ->
  exists k, script_on df names = Raise (KeyError k) /\
            In k (node_names (graph_of (load df))) /\
            ~ In k (dict_keys (load df)).
Proof.
  intros _ Hac Hin Hp Hnot.
  assert (Hnode : In p (node_names (graph_of (load df)))).
  { assert (He : edge (graph_of (load df)) p name).
    { apply graph_of_edge. eauto. }
    apply (edge_nodes _ (graph_of_wf (load df)) p name He). }
  destruct (script_outcome df names)
    as [[Hdf H]|[(Hdf & (n & Hn) & H)|[(Hdf & _ & k & Hk & Hkn & H)
                                      |(Hdf & _ & Hall & H)]]].
  - subst df. contradiction.
  - now destruct (Hac n).
  - exists k. auto.
  - exfalso. apply Hnot. now apply Hall.
Qed.

Lemma dangling_acyclic : acyclic (graph_of (load dangling_activities)).
Proof.
  apply (topological_order_acyclic _ ["X"; "B"]).
  apply topological_sort_sound;
    [apply graph_of_wf | apply graph_of_adj_nodup | vm_compute; reflexivity].
Qed.

Lemma dangling_predecessor_key_error_witness :
  exists k, script_on dangling_activities specific_activities
            = Raise (KeyError k) /\
            In k (node_names (graph_of (load dangling_activities))) /\
            ~ In k (dict_keys (load dangling_activities)).
Proof.
  apply (dangling_predecessor_key_error dangling_activities
           specific_activities "B" "X" (derive (mk_estimate 1 1 1 ["X"]))).
  - apply dangling_in_range.
  - apply dangling_acyclic.
  - vm_compute. now left.
  - vm_compute. now left.
  - vm_compute. intros [H|[]]. discriminate.
Defined.

(** X19.  Every input of the kind the script is written for (at least one
    record, estimates within the range where line 38 cannot overflow, every
    listed predecessor an activity, no cycle) makes it end with [NameError]
    at line 121, after the CPM section and the CPM table have run; no PERT
    row and no subset statistic is produced. *)
Theorem well_formed_input_name_error (df : list row) (names : list string) :
  df <> [] ->
  estimates_in_range df ->
  (forall name a p,
     In (name, a) (load df) -> In p (predecessors (data a)) ->
     In p (dict_keys (load df))) ->
  acyclic (graph_of (load df)) ->
  script_on df names = Raise (NameError "total_standard_deviation").
Proof. intros Hdf _. now apply script_raises_name_error. Qed.

Lemma three_acyclic : acyclic three_graph.
Proof. apply (topological_order_acyclic _ _ three_order_topological). Qed.

Lemma three_closed (name : string) (a : activity) (p : string) :
  In (name, a) (load three_activities) -> In p (predecessors (data a)) ->
  In p (dict_keys (load three_activities)).
Proof.
  intros Hin Hp. vm_compute in Hin.
  destruct Hin as [H|[H|[H|[]]]]; injection H as <- <-; simpl in Hp.
  - contradiction.
  - destruct Hp as [<-|[]]. vm_compute. tauto.
  - destruct Hp as [<-|[]]. vm_compute. tauto.
Qed.

Lemma well_formed_input_name_error_witness :
  script_on three_activities ["A"; "C"]
  = Raise (NameError "total_standard_deviation").
Proof.
  apply (well_formed_input_name_error three_activities ["A"; "C"]).
  - discriminate.
  - apply three_in_range.
  - apply three_closed.
  - apply three_acyclic.
Defined.

(** X20.  On no input does the script reach its last line: every run ends
    with an exception. *)
Theorem script_always_raises (df : list row) (names : list string) :
  exists e, script_on df names = Raise e.
Proof. apply script_never_completes. Qed.

(** ** The rows of the CPM table (lines 91-102) *)

Lemma yes_no_yes (b : bool) : yes_no b = "Yes" <-> b = true.
Proof. destruct b; simpl; split; intros H; congruence. Qed.

Lemma cpm_table_rows_from (G : DiGraph) (activities : dict activity)
  (t : timing) (l : list string) :
  wf_graph G ->
  (forall n, In n l ->
     In n (node_names G) /\ In n (dict_keys activities) /\
     dict_get (critical_activities t) n
     = Some (existsb (String.eqb n) (critical_path t))) ->
  forall table, exists rows,
    for_each (cpm_table_step G activities t) l table = Ok (table ++ rows) /\
    map cpm_activity rows = l /\
    forall r, In r rows ->
      cpm_es r = dict_get (earliest_start t) (cpm_activity r) /\
      cpm_ef r = dict_get (earliest_finish t) (cpm_activity r) /\
      cpm_ls r = dict_get (latest_start t) (cpm_activity r) /\
      cpm_lf r = dict_get (latest_finish t) (cpm_activity r) /\
      (cpm_critical r = "Yes" <-> In (cpm_activity r) (critical_path t)) /\
      exists a, dict_get activities (cpm_activity r) = Some a /\
        cpm_predecessors r = String.concat ", " (predecessors (data a)).
Proof.
  intros Hwf. induction l as [|x l IH]; intros Hl table.
  - exists []. rewrite app_nil_r.
    split; [reflexivity|]. split; [reflexivity|]. intros r [].
  - destruct (Hl x (or_introl eq_refl)) as (Hn & Ha & Hc).
    apply dict_get_in in Ha as [a Ha].
    cbn [for_each]. unfold cpm_table_step at 1, dict_getitem.
    rewrite (graph_successors_ok G Hwf x Hn), Ha, Hc. cbn [bind].
    match goal with
    | |- context [for_each _ l (table ++ [?row])] =>
        destruct (IH (fun n Hin => Hl n (or_intror Hin)) (table ++ [row]))
          as (rows & Hrun & Hnames & Hrows);
        exists (row :: rows)
    end.
    split; [|split].
    + rewrite Hrun, <- app_assoc. reflexivity.
    + simpl. now rewrite Hnames.
    + intros r [<-|Hr]; [|now apply Hrows]. simpl.
      repeat split; try (intros H; apply yes_no_yes in H).
      * now apply mem_In.
      * intros H. apply yes_no_yes. now apply mem_In.
      * eauto.
Qed.

(** X21.  When every node is an activity, the CPM table has one row per
    node, in the order of the nodes, and no row shows N/A: each holds the
    ES, EF, LS and LF of its node, Yes in the last column exactly for the
    nodes of the critical path, and the predecessors of the record joined
    with a comma and a blank. *)
Theorem cpm_table_has_a_row_per_node (G : DiGraph)
  (activities : dict activity) (order : list string) (t : timing) :
  wf_graph G -> topological_order G order -> cpm G order = Ok t ->
  (forall n, In n (node_names G) -> In n (dict_keys activities)) ->
  exists rows,
    cpm_table_data G activities t = Ok rows /\
    map cpm_activity rows = node_names G /\
    forall r, In r rows ->
      cpm_es r = Some (value_at (earliest_start t) (cpm_activity r)) /\
      cpm_ef r = Some (value_at (earliest_finish t) (cpm_activity r)) /\
      cpm_ls r = Some (value_at (latest_start t) (cpm_activity r)) /\
      cpm_lf r = Some (value_at (latest_finish t) (cpm_activity r)) /\
      (cpm_critical r = "Yes" <-> In (cpm_activity r) (critical_path t)) /\
      exists a, dict_get activities (cpm_activity r) = Some a /\
        cpm_predecessors r = String.concat ", " (predecessors (data a)).
Proof.
  intros Hwf Htopo Hcpm Hall.
  destruct (cpm_ok_timing G order t Hwf Htopo Hcpm) as [Hok _].
  destruct (cpm_table_rows_from G activities t (node_names G) Hwf)
    with (table := @nil cpm_row) as (rows & Hrun & Hnames & Hrows).
  { intros n Hn. split; [assumption|]. split; [now apply Hall|].
    now apply (ok_critical_activities G order t Hok). }
  exists rows. split; [exact Hrun|]. split; [exact Hnames|].
  intros r Hr. destruct (Hrows r Hr) as (H1 & H2 & H3 & H4 & H5 & H6).
  assert (Hn : In (cpm_activity r) (node_names G)).
  { rewrite <- Hnames. now apply in_map. }
  rewrite H1, H2, H3, H4.
  repeat split; auto; try apply H5.
  - eapply dict_get_value_at, (ok_es G order t Hok); eauto.
  - eapply dict_get_value_at, (ok_ef G order t Hok); eauto.
  - eapply dict_get_value_at, (ok_ls G order t Hok); eauto.
  - eapply dict_get_value_at, (ok_lf G order t Hok); eauto.
Qed.

Lemma cpm_table_has_a_row_per_node_witness :
  exists rows,
    cpm_table_data three_graph (load three_activities) three_timing
    = Ok rows /\
    map cpm_activity rows = node_names three_graph /\
    forall r, In r rows ->
      cpm_es r = Some (value_at (earliest_start three_timing) (cpm_activity r)) /\
      cpm_ef r = Some (value_at (earliest_finish three_timing) (cpm_activity r)) /\
      cpm_ls r = Some (value_at (latest_start three_timing) (cpm_activity r)) /\
      cpm_lf r = Some (value_at (latest_finish three_timing) (cpm_activity r)) /\
      (cpm_critical r = "Yes" <->
       In (cpm_activity r) (critical_path three_timing)) /\
      exists a,
        dict_get (load three_activities) (cpm_activity r) = Some a /\
        cpm_predecessors r = String.concat ", " (predecessors (data a)).
Proof.
  apply (cpm_table_has_a_row_per_node three_graph (load three_activities)
           three_order three_timing).
  - apply graph_of_wf.
  - apply three_order_topological.
  - apply three_timing_computed.
  - intros n Hn. vm_compute in Hn. vm_compute. tauto.
Defined.

(** ** The defaults of the two [get] calls (lines 69 and 78) *)

(** X23.  The defaults of [earliest_finish.get(pred, 0)] and
    [latest_start.get(succ, ...)] are never taken: when the forward loop
    reaches a node, every predecessor has its earliest finish, and when
    the backward loop reaches it, every successor has its latest start. *)
Theorem get_defaults_never_taken (G : DiGraph) (order : list string)
  (t : timing) (pre suf : list string) (x : string) :
  wf_graph G -> topological_order G order -> cpm G order = Ok t ->
  order = pre ++ x :: suf ->
  (exists es ef,
     for_each (forward_step G) pre ([], []) = Ok (es, ef) /\
     forall p, In p (preds_of G x) -> exists v, dict_get ef p = Some v) /\
  (exists lf ls,
     for_each (backward_step G (earliest_finish t)) (rev suf) ([], [])
     = Ok (lf, ls) /\
     forall s, In s (succs_of G x) -> exists v, dict_get ls s = Some v).
Proof.
  intros Hwf Htopo Hcpm Ho.
  destruct (cpm_inv G order t Hcpm) as (_ & _ & _ & Htotal).
  split.
  - destruct (forward_prefix G Hwf order Htopo pre (x :: suf) Ho)
      as (es & ef & Hrun & _ & Hkeys & _).
    exists es, ef. split; [assumption|]. intros p Hp.
    apply dict_get_in. rewrite Hkeys.
    apply (preds_before G Hwf order Htopo pre x suf p Ho Hp).
  - assert (Hrev : rev order = rev suf ++ x :: rev pre).
    { rewrite Ho, rev_app_distr. simpl. now rewrite <- app_assoc. }
    destruct (backward_prefix G Hwf order Htopo (earliest_finish t)
                (total_project_duration t) Htotal (rev suf) (x :: rev pre)
                Hrev)
      as (lf & ls & Hrun & _ & Hkeys & _).
    exists lf, ls. split; [assumption|]. intros s Hs.
    apply dict_get_in. rewrite Hkeys. apply -> in_rev.
    apply (succs_after G order Htopo pre x suf s Ho Hs).
Qed.

Lemma get_defaults_never_taken_witness :
  (exists es ef,
     for_each (forward_step three_graph) ["A"] ([], []) = Ok (es, ef) /\
     forall p, In p (preds_of three_graph "B") ->
               exists v, dict_get ef p = Some v) /\
  (exists lf ls,
     for_each (backward_step three_graph (earliest_finish three_timing))
       (rev ["C"]) ([], [])
     = Ok (lf, ls) /\
     forall s, In s (succs_of three_graph "B") ->
               exists v, dict_get ls s = Some v).
Proof.
  apply (get_defaults_never_taken three_graph three_order three_timing
           ["A"] ["C"] "B").
  - apply graph_of_wf.
  - apply three_order_topological.
  - apply three_timing_computed.
  - reflexivity.
Defined.
